(** * IAScrapperCompanyData: the scrapper package, embedded and verified

    A shallow embedding of [scrapper/cleaner.py], [scrapper/fetcher.py] and
    [scrapper/text_utils.py], and the properties of the specification that
    bear on them.

    Conventions of the embedding.
    - A Python [str] is a [list ascii]: a sequence of code points below 256
      (Latin-1).  The character tables of the Python runtime ([str.isspace],
      [\s], [\d], [str.lower], the literals [int] accepts) are written out
      for these code points.
    - A pattern handed to [re] is a term of [Re.regex]; [Re.run] is the
      backtracking matcher (ordered choice, greedy and lazy repetition),
      [Re.sub], [Re.search] and [Re.finditer] scan from left to right as
      [re] does.
    - A [try: ... except Exception:] body is a computation in [option]
      ([None]: an exception was raised), the handler is the [None] branch.
    - The tree that [BeautifulSoup(html, "html.parser")] builds is a value
      of [Soup.node], its strings told apart by their class as [get_text]
      tells them apart; a page is its text together with its tree, and the
      functions that parse take the page.  Decoding a [bytes] argument comes
      before that and is not part of the model.
    - The network is an outcome for every fetch, the thread pool an order
      in which the fetches complete.  Printing and the progress bar are
      left out.
    - [remove_decorative] looks at code points beyond Latin-1: for it a
      [str] is a [list N] of code points, with the matcher at this
      character type (module [Wide]).  So is the payload of
      [decode_cloudflare_email] where the question is what the decoder
      refuses (module [WideCleaner]): [int] reads the decimal digits and
      the blanks of every script.  On code points below 256 the two
      decoders are one.
    - Under [re.IGNORECASE] two code points below 256 match when their
      lowercase forms are the same; the statements on the case of a match
      are statements on such strings. *)

From Stdlib Require Import ZArith Ascii String.
From stdpp Require Import base option list sets gmap strings.

Local Open Scope nat_scope.

(** ** Python strings *)

Module Py.

Abbreviation str := (list ascii).

(** String literals of the source, as [str]. *)
Definition s (lit : string) : str := list_ascii_of_string lit.

Definition ord (c : ascii) : N := N_of_ascii c.

Definition between (lo hi : N) (c : ascii) : bool :=
  ((lo <=? ord c) && (ord c <=? hi))%N.

(** [str.isspace] and the class [\s] of [re]: the code points
    9-13, 28-32, 0x85 and 0xA0. *)
Definition isspace (c : ascii) : bool :=
  between 9 13 c || between 28 32 c || (ord c =? 133)%N || (ord c =? 160)%N.

(** The class [\d] of [re] (Unicode decimal digits): 0-9. *)
Definition isdecimal (c : ascii) : bool := between 48 57 c.

(** [str.lower], one character: A-Z and the Latin-1 capitals
    0xC0-0xDE (0xD7, the multiplication sign, apart) move up by 32. *)
Definition lower_char (c : ascii) : ascii :=
  if between 65 90 c || (between 192 222 c && negb (ord c =? 215)%N)
  then ascii_of_N (ord c + 32) else c.

Definition lower (t : str) : str := map lower_char t.

Fixpoint drop_while (p : ascii → bool) (t : str) : str :=
  match t with
  | c :: t' => if p c then drop_while p t' else t
  | [] => []
  end.

Definition lstrip (t : str) : str := drop_while isspace t.

Definition rstrip (t : str) : str := reverse (lstrip (reverse t)).

(** [str.strip()] *)
Definition strip (t : str) : str := rstrip (lstrip t).

(** [t.startswith(p)] *)
Fixpoint startswith (p t : str) : bool :=
  match p, t with
  | [], _ => true
  | a :: p', b :: t' => if decide (a = b) then startswith p' t' else false
  | _ :: _, [] => false
  end.

(** [needle in hay] *)
Fixpoint contains (needle hay : str) : bool :=
  startswith needle hay ||
  match hay with
  | _ :: hay' => contains needle hay'
  | [] => false
  end.

(** [t.split(sep)] for a one-character separator. *)
Fixpoint split (sep : ascii) (t : str) : list str :=
  match t with
  | [] => [[]]
  | c :: t' =>
      if decide (c = sep) then [] :: split sep t'
      else match split sep t' with
           | l :: ls => (c :: l) :: ls
           | [] => [[c]]
           end
  end.

(** [sep.join(parts)] *)
Fixpoint join (sep : str) (parts : list str) : str :=
  match parts with
  | [] => []
  | [p] => p
  | p :: ps => p ++ sep ++ join sep ps
  end.

(** [t.replace(a, b)] for one-character [a] and [b]. *)
Definition replace_char (a b : ascii) (t : str) : str :=
  map (λ c, if decide (c = a) then b else c) t.

(** [t[i:j]] for [0 <= i <= j]. *)
Definition slice (i j : nat) (t : str) : str := take (j - i) (drop i t).

(** A bound of a slice, for any integer: a negative one counts from the
    end, and every one is brought back between 0 and the length. *)
Definition slice_bound (k : Z) (len : nat) : nat :=
  if (k <? 0)%Z then Z.to_nat (Z.max 0 (k + Z.of_nat len))
  else Nat.min (Z.to_nat k) len.

(** [t[i:j]] for any integers [i] and [j]. *)
Definition slice_z (i j : Z) (t : str) : str :=
  slice (slice_bound i (length t)) (slice_bound j (length t)) t.

End Py.

Import Py.

(** ** The [re] module *)

Module Re.

Inductive regex : Type :=
| Eps                                  (* the empty pattern *)
| Chr (p : ascii → bool)               (* one character of a class *)
| Cat (r1 r2 : regex)                  (* r1 r2 *)
| Alt (r1 r2 : regex)                  (* r1|r2, r1 tried first *)
| Opt (r : regex)                      (* r? *)
| Star (p : ascii → bool)              (* [class]*, greedy *)
| StarLazy (p : ascii → bool)          (* [class]*?, lazy *)
| Eos.                                 (* $ (no MULTILINE) *)

Section Matcher.
Context {A : Type}.

Fixpoint star_greedy (p : ascii → bool) (k : str → option A) (t : str)
  : option A :=
  match t with
  | c :: t' =>
      if p c then
        match star_greedy p k t' with
        | Some a => Some a
        | None => k t
        end
      else k t
  | [] => k t
  end.

Fixpoint star_lazy (p : ascii → bool) (k : str → option A) (t : str)
  : option A :=
  match k t with
  | Some a => Some a
  | None =>
      match t with
      | c :: t' => if p c then star_lazy p k t' else None
      | [] => None
      end
  end.

(** [run r t k]: match [r] at the head of [t], hand the rest to [k];
    when [k] refuses, backtrack into [r]. *)
Fixpoint run (r : regex) (t : str) (k : str → option A) : option A :=
  match r with
  | Eps => k t
  | Chr p =>
      match t with
      | c :: t' => if p c then k t' else None
      | [] => None
      end
  | Cat r1 r2 => run r1 t (λ t', run r2 t' k)
  | Alt r1 r2 =>
      match run r1 t k with
      | Some a => Some a
      | None => run r2 t k
      end
  | Opt r1 =>
      match run r1 t k with
      | Some a => Some a
      | None => k t
      end
  | Star p => star_greedy p k t
  | StarLazy p => star_lazy p k t
  | Eos =>
      match t with
      | [] => k t
      | [c] => if decide (c = "010"%char) then k t else None
      | _ => None
      end
  end.
End Matcher.

(** Length of the match of [r] at the head of [t], if any. *)
Definition match_at (r : regex) (t : str) : option nat :=
  run r t (λ rest, Some (length t - length rest)).

(** [re.search]: the leftmost match, as [(start, end)]. *)
Fixpoint search_from (r : regex) (i : nat) (t : str) : option (nat * nat) :=
  match match_at r t with
  | Some n => Some (i, i + n)
  | None =>
      match t with
      | _ :: t' => search_from r (S i) t'
      | [] => None
      end
  end.

Definition search (r : regex) (t : str) : option (nat * nat) :=
  search_from r 0 t.

(** [re.finditer]: the non-overlapping matches from left to right.
    [skip] counts the characters of the current match still to pass. *)
Fixpoint finditer_go (r : regex) (i skip : nat) (t : str)
  : list (nat * nat) :=
  match t with
  | [] =>
      match skip, match_at r [] with
      | 0, Some _ => [(i, i)]
      | _, _ => []
      end
  | _ :: t' =>
      match skip with
      | S n => finditer_go r (S i) n t'
      | 0 =>
          match match_at r t with
          | Some (S n) => (i, i + S n) :: finditer_go r (S i) n t'
          | Some 0 => (i, i) :: finditer_go r (S i) 0 t'
          | None => finditer_go r (S i) 0 t'
          end
      end
  end.

Definition finditer (r : regex) (t : str) : list (nat * nat) :=
  finditer_go r 0 0 t.

(** [re.sub(r, repl, t)] for a replacement without group references. *)
Fixpoint sub_go (r : regex) (repl : str) (skip : nat) (t : str) : str :=
  match t with
  | [] =>
      match skip, match_at r [] with
      | 0, Some _ => repl
      | _, _ => []
      end
  | c :: t' =>
      match skip with
      | S n => sub_go r repl n t'
      | 0 =>
          match match_at r t with
          | Some (S n) => repl ++ sub_go r repl n t'
          | Some 0 => repl ++ c :: sub_go r repl 0 t'
          | None => c :: sub_go r repl 0 t'
          end
      end
  end.

Definition sub (r : regex) (repl t : str) : str := sub_go r repl 0 t.

(** Pattern builders. *)
Definition lit (c : ascii) : regex := Chr (λ x, bool_decide (x = c)).
(** A literal character under [re.IGNORECASE], among code points below
    256: there two characters match when their lowercase forms are the
    same.  The further pairs [re] takes as one letter (s and U+017F, i and
    U+0131, the micro sign and U+03BC, ...) have one side beyond 255. *)
Definition lit_i (c : ascii) : regex :=
  Chr (λ x, bool_decide (lower_char x = lower_char c)).
Definition word (w : str) : regex := foldr (λ c r, Cat (lit c) r) Eps w.
Definition word_i (w : str) : regex := foldr (λ c r, Cat (lit_i c) r) Eps w.
Definition Plus (p : ascii → bool) : regex := Cat (Chr p) (Star p).
Definition cats (rs : list regex) : regex := foldr Cat Eps rs.

(** Character classes. *)
Definition cls_s : ascii → bool := isspace.                  (* \s *)
Definition cls_d : ascii → bool := isdecimal.                (* \d *)
Definition cls_D : ascii → bool := λ c, negb (isdecimal c).  (* \D *)
Definition cls_dot : ascii → bool :=                         (* . *)
  λ c, negb (bool_decide (c = "010"%char)).
Definition one_of (w : string) : ascii → bool :=
  λ c, bool_decide (c ∈ Py.s w).
Definition none_of (w : string) : ascii → bool :=
  λ c, negb (bool_decide (c ∈ Py.s w)).

End Re.

(** ** The tree of BeautifulSoup *)

Module Soup.

(** A node of the parse tree.  [attrs] is the attribute dict of a tag;
    the attributes the program reads ([href], [style], [data-cfemail])
    hold one string each.  The strings of the tree come in three kinds:
    - [NavigableString]: an object of the class [NavigableString] itself,
      or a [CData]; these are the strings [get_text] collects from an
      element;
    - [Comment]: an object of the class [Comment];
    - [OtherString]: a string of any other class, a doctype, a
      declaration, a processing instruction, and the strings the tree
      builder puts in a class of their own (those below [rt], [rp],
      [template], [script] and [style], where the builder does so);
      [get_text] on an element passes over them. *)
Inductive node : Type :=
| Tag (name : str) (attrs : gmap str str) (contents : list node)
| NavigableString (text : str)
| Comment (text : str)
| OtherString (text : str).

(** A page: its text and the tree
    [BeautifulSoup(markup, "html.parser")] built from it. *)
Record document : Type := { markup : str; soup : list node }.

(** [.descendants]: the nodes below [n], in document order. *)
Fixpoint descendants (n : node) : list node :=
  match n with
  | Tag _ _ cs => flat_map (λ c, c :: descendants c) cs
  | _ => []
  end.

Definition all_nodes (roots : list node) : list node :=
  flat_map (λ c, c :: descendants c) roots.

Definition is_tag (names : list str) (n : node) : bool :=
  match n with
  | Tag name _ _ => bool_decide (name ∈ names)
  | _ => false
  end.

(** [find_all(names)] below the given roots. *)
Definition find_all (names : list str) (roots : list node) : list node :=
  List.filter (is_tag names) (all_nodes roots).

(** The strings [get_text] collects below a tag that has no string class
    of its own: those whose class is [NavigableString] or [CData]. *)
Fixpoint strings (n : node) : list str :=
  match n with
  | Tag _ _ cs => flat_map strings cs
  | NavigableString t => [t]
  | Comment _ => []
  | OtherString _ => []
  end.

(** [n.get_text(sep, strip=True)] *)
Definition get_text (sep : str) (n : node) : str :=
  join sep (List.filter (λ t, negb (bool_decide (t = [])))
                        (map strip (strings n))).

(** [decompose()] / [extract()] of every node that satisfies [gone]. *)
Fixpoint prune (gone : node → bool) (n : node) : list node :=
  if gone n then []
  else match n with
       | Tag name attrs cs => [Tag name attrs (flat_map (prune gone) cs)]
       | _ => [n]
       end.

(** What html.parser builds from a text without markup (no "<", no "&"):
    that text, as one NavigableString. *)
Definition of_text (t : str) : document :=
  {| markup := t; soup := [NavigableString t] |}.

End Soup.

(** ** cleaner.py *)

Module Cleaner.

(** *** BaseCleaner.decode_cloudflare_email *)

Definition hexval (c : ascii) : option Z :=
  if between 48 57 c then Some (Z.of_N (ord c) - 48)%Z        (* 0-9 *)
  else if between 97 102 c then Some (Z.of_N (ord c) - 87)%Z  (* a-f *)
  else if between 65 70 c then Some (Z.of_N (ord c) - 55)%Z   (* A-F *)
  else None.

(** The blanks [int] strips: 9-13, 32, 0x85, 0xA0. *)
Definition int_blank (c : ascii) : bool :=
  between 9 13 c || (ord c =? 32)%N || (ord c =? 133)%N || (ord c =? 160)%N.

(** [int(chunk, 16)] on the arguments the decoder passes it, slices
    [cfemail[i:i+2]] of at most two characters, of code points below 256;
    [None] is [ValueError].  A literal is hex digits with an optional sign
    and blanks around it.  [WideCleaner.int16] below is [int] on chunks of
    any code points. *)
Definition int16 (chunk : str) : option Z :=
  match chunk with
  | [a] => hexval a
  | [a; b] =>
      match hexval a, hexval b with
      | Some x, Some y => Some (16 * x + y)%Z
      | Some x, None => if int_blank b then Some x else None
      | None, Some y =>
          if int_blank a || bool_decide (a = "+"%char) then Some y
          else if bool_decide (a = "-"%char) then Some (- y)%Z
          else None
      | None, None => None
      end
  | _ => None
  end.

(** [chr(x)]: [None] is [ValueError] (negative [x]).  A code point from
    256 on is outside [str] as modelled here; [Decoder.xor_in_range]
    shows the decoder never asks for one. *)
Definition chr (x : Z) : option ascii :=
  if ((0 <=? x) && (x <? 256))%Z then Some (ascii_of_N (Z.to_N x)) else None.

(** [range(start, stop, 2)] *)
Definition range2 (start stop : nat) : list nat :=
  map (λ j, start + 2 * j) (seq 0 ((stop - start + 1) / 2)).

(** The body of the [try]. *)
Definition decode_try (cfemail : str) : option str :=
  n ← int16 (slice 0 2 cfemail);
  mapM (λ i, x ← int16 (slice i (i + 2) cfemail); chr (Z.lxor x n))
       (range2 2 (length cfemail)).

Definition decode_cloudflare_email (cfemail : str) : str :=
  match decode_try cfemail with
  | Some email => email
  | None => []        (* except Exception: the empty string *)
  end.

(** *** HtmlCleaner.clean_html *)

Import Soup.

Definition nl : ascii := "010"%char.
Definition nbsp : ascii := "160"%char.

(** 1. Remove scripts, styles, noscript and comments *)
Definition is_comment (n : node) : bool :=
  match n with Comment _ => true | _ => false end.

Definition remove_noise (roots : list node) : list node :=
  let roots :=
    flat_map (prune (is_tag [Py.s "script"; Py.s "style"; Py.s "noscript"]))
             roots in
  flat_map (prune is_comment) roots.

(** 2. Decode Cloudflare emails.  [tag.string = decoded] replaces the
    contents of the tag, so tags found below it are no longer in the tree. *)
Fixpoint decode_cfemail_tags (n : node) : node :=
  match n with
  | Tag name attrs cs =>
      match attrs !! Py.s "data-cfemail" with
      | Some cf =>
          let decoded := decode_cloudflare_email cf in
          if bool_decide (decoded = [])
          then Tag name attrs (map decode_cfemail_tags cs)
          else Tag name attrs [NavigableString decoded]
      | None => Tag name attrs (map decode_cfemail_tags cs)
      end
  | _ => n
  end.

Definition protection_marker : str := Py.s "/cdn-cgi/l/email-protection#".

Fixpoint decode_protected_links (n : node) : node :=
  match n with
  | Tag name attrs cs =>
      let unchanged := Tag name attrs (map decode_protected_links cs) in
      if bool_decide (name = Py.s "a") then
        match attrs !! Py.s "href" with
        | Some href =>
            if contains protection_marker href then
              let encoded_hash := List.last (split "#"%char href) [] in
              let real_email := decode_cloudflare_email encoded_hash in
              if bool_decide (real_email = []) then unchanged
              else Tag name
                     (<[Py.s "href" := Py.s "mailto:" ++ real_email]> attrs)
                     [NavigableString real_email]
            else unchanged
        | None => unchanged
        end
      else unchanged
  | _ => n
  end.

(** 3. Remove hidden elements: [re.compile(r"display:\s*none", re.I)] *)
Definition display_none : Re.regex :=
  Re.cats [Re.word_i (Py.s "display:"); Re.Star Re.cls_s;
           Re.word_i (Py.s "none")].

Definition is_hidden (n : node) : bool :=
  match n with
  | Tag _ attrs _ =>
      match attrs !! Py.s "style" with
      | Some style => bool_decide (is_Some (Re.search display_none style))
      | None => false
      end
  | _ => false
  end.

(** 4. Extract meaningful content *)
Definition content_tags : list str :=
  map Py.s ["h1"; "h2"; "h3"; "h4"; "p"; "li"; "a"].

(** The line one element contributes; [None] is [continue]. *)
Definition line_of (elem : node) : option str :=
  match elem with
  | Tag name attrs _ =>
      let text := get_text (Py.s " ") elem in
      if bool_decide (text = []) then None
      else
        let text := Re.sub (Re.Plus Re.cls_s) (Py.s " ") text in
        if length text <? 3 then None
        else if bool_decide (name = Py.s "a") then
          match attrs !! Py.s "href" with
          | Some h =>
              let href := strip h in
              if contains href text then Some text
              else Some (text ++ Py.s ": " ++ href)
          | None => Some text
          end
        else Some text
  | _ => None
  end.

Definition extract_lines (roots : list node) : list str :=
  omap line_of (find_all content_tags roots).

(** 5. Normalize whitespace *)
Definition blank_lines : Re.regex :=                  (* r"\n\s*\n" *)
  Re.cats [Re.lit nl; Re.Star Re.cls_s; Re.lit nl].
Definition blanks : Re.regex :=                       (* r"[ \t]+" *)
  Re.Plus (λ c, bool_decide (c = " "%char) || bool_decide (c = "009"%char)).

Definition normalize (texto : str) : str :=
  let texto := replace_char nbsp " "%char texto in
  let texto := Re.sub blank_lines [nl] texto in
  Re.sub blanks (Py.s " ") texto.

(** 6. Smart deduplication *)
Definition link_start : Re.regex :=                   (* (https?://|/) *)
  Re.Alt (Re.cats [Re.word (Py.s "http"); Re.Opt (Re.lit "s"%char);
                   Re.word (Py.s "://")])
         (Re.lit "/"%char).

Definition url_suffix : Re.regex :=       (* r":\s*(https?://|/).*?$" *)
  Re.cats [Re.lit ":"%char; Re.Star Re.cls_s; link_start;
           Re.StarLazy Re.cls_dot; Re.Eos].

Definition normalized_key (line : str) : str :=
  lower (strip (Re.sub url_suffix [] line)).

(** The state of the loop: the set [seen] and the list [dedup_lines]. *)
Record dedup_state : Type :=
  { seen : gset str; dedup_lines : list str }.

Definition dedup_step (st : dedup_state) (line : str) : dedup_state :=
  let line := strip line in
  if bool_decide (line = []) then st
  else
    let key := normalized_key line in
    if bool_decide (key ∈ seen st) then st
    else {| seen := {[key]} ∪ seen st;
            dedup_lines := dedup_lines st ++ [line] |}.

Definition dedup (texto : str) : list str :=
  dedup_lines
    (foldl dedup_step {| seen := ∅; dedup_lines := [] |} (split nl texto)).

(** Steps 5 and 6: from the joined lines to the returned text. *)
Definition normalize_dedup (texto : str) : str :=
  join [nl] (dedup (normalize texto)).

(** Steps 1 to 4 and the join of step 5: the text [texto] starts as. *)
Definition extracted_text (html : document) : str :=
  let roots := remove_noise (soup html) in
  let roots := map decode_cfemail_tags roots in
  let roots := map decode_protected_links roots in
  let roots := flat_map (prune is_hidden) roots in
  join [nl] (extract_lines roots).

Definition clean_html (html : document) : str :=
  normalize_dedup (extracted_text html).

End Cleaner.

(** ** fetcher.py *)

Module Fetcher.

Import Soup.

(** *** BaseScraper *)

Definition dq : ascii := "034"%char.      (* the double quote *)

Definition KEYWORDS : list str :=
  [Py.s "email"; Py.s "correo"; Py.s "contacto"; Py.s "phone";
   Py.s "telefono"; Py.s "tel" ++ ["233"%char] ++ Py.s "fono";
   Py.s "whatsapp"; Py.s "wa.me"; Py.s "tel:"; Py.s "mailto:"].

Definition alnum (c : ascii) : bool :=
  between 97 122 c || between 65 90 c || between 48 57 c.

Definition alt_words (ws : list string) : Re.regex :=
  match ws with
  | [] => Re.Eps
  | w :: ws' =>
      foldl (λ r w', Re.Alt r (Re.word_i (Py.s w'))) (Re.word_i (Py.s w)) ws'
  end.

(** [[a-zA-Z0-9._%+-]+@[a-zA-Z0-9.-]+\.(?:com|mx|...|io)], IGNORECASE *)
Definition EMAIL_REGEX : Re.regex :=
  Re.cats [Re.Plus (λ c, alnum c || Re.one_of "._%+-" c);
           Re.lit "@"%char;
           Re.Plus (λ c, alnum c || Re.one_of ".-" c);
           Re.lit "."%char;
           alt_words ["com"; "mx"; "org"; "net"; "edu"; "info"; "biz";
                      "co"; "io"]].

(** [\+?\d[\d\s\-\(\)]{6,}\d] *)
Definition PHONE_REGEX : Re.regex :=
  let inner := λ c, Re.cls_d c || Re.cls_s c || Re.one_of "-()" c in
  Re.cats ([Re.Opt (Re.lit "+"%char); Re.Chr Re.cls_d]
           ++ replicate 6 (Re.Chr inner)
           ++ [Re.Star inner; Re.Chr Re.cls_d]).

(** [clean_number]: [re.sub] of [\D] by the empty string. *)
Definition clean_number (text : str) : str :=
  Re.sub (Re.Chr Re.cls_D) [] text.

(** [is_valid_phone]; [len(set(clean))] is the size of a finite set. *)
Definition is_valid_phone (number : str) : bool :=
  let clean := clean_number number in
  if (length clean <? 8) || (12 <? length clean) then false
  else if 13 <=? length clean then false
  else if (11 <=? length clean)
          && (startswith (Py.s "16") clean || startswith (Py.s "17") clean)
  then false
  else if size (list_to_set clean : gset ascii) =? 1 then false
  else true.

(** The dict [detect_signals] returns.  The two lists it makes from
    sets come in no fixed order: they are kept as sets. *)
Record Signals : Type :=
  { keywords_found : list str;
    emails_found : gset str;
    phones_found : gset str;
    has_email : bool;
    has_phone : bool }.

Definition matches (r : Re.regex) (t : str) : list str :=
  map (λ m, slice m.1 m.2 t) (Re.finditer r t).

Definition detect_signals (html : str) : Signals :=
  let lower_html := lower html in
  let found_keywords :=
    List.filter (λ k, contains k lower_html) KEYWORDS in
  let email_strings : gset str := list_to_set (matches EMAIL_REGEX html) in
  let phone_candidates := matches PHONE_REGEX html in
  let phones : gset str :=
    list_to_set (map clean_number
                     (List.filter is_valid_phone phone_candidates)) in
  {| keywords_found := found_keywords;
     emails_found := email_strings;
     phones_found := phones;
     has_email := 0 <? size email_strings;
     has_phone := 0 <? size phones |}.

Record FrameworkInfo : Type :=
  { frameworks_detected : list str;
    is_spa_like : bool;
    is_html_traditional : bool }.

(** [<div[^>]+id=["']root["']] *)
Definition div_root : Re.regex :=
  let quote :=
    Re.Chr (λ c, bool_decide (c = dq) || bool_decide (c = "'"%char)) in
  Re.cats [Re.word (Py.s "<div"); Re.Plus (Re.none_of ">");
           Re.word (Py.s "id="); quote; Re.word (Py.s "root"); quote].

(** The number of "meaningful" tags: those below [soup.body], the first
    body tag of the tree; 0 when there is none. *)
Definition meaningful_tags (roots : list node) : nat :=
  match find_all [Py.s "body"] roots with
  | Tag _ _ cs :: _ =>
      length (find_all (map Py.s ["p"; "h1"; "h2"; "h3"; "li"]) cs)
  | _ => 0
  end.

(** The four conditions of [detect_framework], on [lower_html]. *)
Definition react_marks (lower_html : str) : bool :=
  contains (Py.s "data-reactroot") lower_html
  || contains (Py.s "reactroot") lower_html
  || contains (Py.s "__react") lower_html
  || contains (Py.s "react-dom") lower_html
  || bool_decide (is_Some (Re.search div_root lower_html)).

Definition vue_marks (lower_html : str) : bool :=
  contains (Py.s "id=" ++ [dq] ++ Py.s "app" ++ [dq]) lower_html
  || contains (Py.s "data-v-") lower_html
  || contains (Py.s "vue.js") lower_html
  || contains (Py.s "vue.runtime") lower_html.

Definition angular_marks (lower_html : str) : bool :=
  contains (Py.s "ng-app") lower_html
  || contains (Py.s "ng-version") lower_html
  || contains (Py.s "angular.js") lower_html
  || contains (Py.s "ng-") lower_html.

Definition nextjs_marks (lower_html : str) : bool :=
  contains (Py.s "__next") lower_html
  || contains (Py.s "/_next/") lower_html
  || contains (Py.s "next.config") lower_html.

Definition detect_framework (html : document) : FrameworkInfo :=
  let lower_html := lower (markup html) in
  let frameworks :=
    [(Py.s "react", react_marks lower_html);
     (Py.s "vue", vue_marks lower_html);
     (Py.s "angular", angular_marks lower_html);
     (Py.s "nextjs", nextjs_marks lower_html)] in
  let is_spa := existsb snd frameworks in
  let is_probably_html_normal :=
    negb is_spa && (5 <? meaningful_tags (soup html)) in
  {| frameworks_detected := map fst (List.filter snd frameworks);
     is_spa_like := is_spa;
     is_html_traditional := is_probably_html_normal |}.

(** [BAD_URL_KEYWORDS] and [SOCIAL_DOMAINS]: sets in the program, which
    only asks whether any of their elements stands in a string. *)
Definition BAD_URL_KEYWORDS : list str :=
  map Py.s ["duckduckgo.com/y.js"; "bing.com/aclick"; "doubleclick";
            "ad_domain="].

Definition SOCIAL_DOMAINS : list str :=
  map Py.s ["facebook.com"; "www.facebook.com"; "m.facebook.com";
            "instagram.com"; "www.instagram.com"; "twitter.com"; "x.com";
            "tiktok.com"; "linkedin.com"].

(** [is_bad_url].  [netloc url] is [urlparse(url).netloc]; [None] is the
    [ValueError] [urlparse] raises on a malformed URL, which [is_bad_url]
    lets through. *)
Definition is_bad_url (netloc : str → option str) (url : str)
  : option bool :=
  if existsb (λ bad, contains bad url) BAD_URL_KEYWORDS then Some true
  else
    parsed_netloc ← netloc url;
    let domain := lower parsed_netloc in
    if existsb (λ social, contains social domain) SOCIAL_DOMAINS
    then Some true
    else Some false.

(** *** DuckDuckGoScraper *)

Record FetchResult : Type :=
  { url : str;
    size_ : nat;
    signals : Signals;
    framework : FrameworkInfo;
    html : str }.

(** [fetch_html].  [response] is what the [try] gets from the network:
    [None] when the sleep, the GET, [raise_for_status] or the decoding
    raised, else the decoded page. *)
Definition fetch_html (response : option document) (url : str)
  : option FetchResult :=
  page ← response;
  Some {| url := url;
          size_ := length (markup page);
          signals := detect_signals (markup page);
          framework := detect_framework page;
          html := markup page |}.

(** [fetch_multiple].  A future is the index of its submission;
    [net i] is the response future [i] gets; [completed] is the order in
    which [as_completed] yields the futures.  [None] is the [ValueError]
    of [ThreadPoolExecutor] for a worker count below 1. *)
Definition fetch_multiple (net : nat → option document)
    (completed : list nat) (urls : list str) (max_workers : option Z)
  : option (list FetchResult) :=
  if bool_decide (urls = []) then Some []
  else
    let max_workers :=
      default (Z.min 10 (Z.of_nat (length urls))) max_workers in
    if (max_workers <=? 0)%Z then None
    else
      let future_to_url : gmap nat str := map_seq 0 urls in
      Some (omap (λ future,
                    url ← future_to_url !! future;
                    fetch_html (net future) url)
                 completed).

(** The loop of [main_search] over [raw_links], what [extract_real_url]
    gave for each result of the search ([None] for no URL).  [is_bad] is
    [is_bad_url]; the loop stops when it raises. *)
Fixpoint select_links (is_bad : str → option bool) (n_sites : Z)
    (links : list str) (raw_links : list (option str))
  : option (list str) :=
  match raw_links with
  | [] => Some links
  | link :: rest =>
      links ←
        match link with
        | Some l =>
            if bool_decide (l = []) then Some links
            else
              match is_bad l with
              | Some bad => Some (if negb bad then links ++ [l] else links)
              | None => None
              end
        | None => Some links
        end;
      if (n_sites <=? Z.of_nat (length links))%Z then Some links
      else select_links is_bad n_sites links rest
  end.

(** [main_search].  [search] is what the request to DuckDuckGo gives:
    [None] when the GET or [raise_for_status] raises, else the
    [raw_links] read from the result page. *)
Definition main_search (netloc : str → option str)
    (search : option (list (option str)))
    (net : nat → option document) (completed : list nat) (n_sites : Z)
  : option (list FetchResult) :=
  raw_links ← search;
  links ← select_links (is_bad_url netloc) n_sites [] raw_links;
  fetch_multiple net completed links None.

End Fetcher.

(** ** Strings of any code points *)

Module Wide.

(** A [str] as the list of its code points. *)
Abbreviation ustr := (list N).

Definition between (lo hi c : N) : bool := ((lo <=? c) && (c <=? hi))%N.

(** [str.isspace] and the class [\s] of [re], on all code points. *)
Definition isspace (c : N) : bool :=
  between 9 13 c || between 28 32 c || (c =? 0x85)%N || (c =? 0xA0)%N
  || (c =? 0x1680)%N || between 0x2000 0x200A c || (c =? 0x2028)%N
  || (c =? 0x2029)%N || (c =? 0x202F)%N || (c =? 0x205F)%N
  || (c =? 0x3000)%N.

Fixpoint drop_while (p : N → bool) (t : ustr) : ustr :=
  match t with
  | c :: t' => if p c then drop_while p t' else t
  | [] => []
  end.

Definition lstrip (t : ustr) : ustr := drop_while isspace t.
Definition rstrip (t : ustr) : ustr := reverse (lstrip (reverse t)).
(** [str.strip()] *)
Definition strip (t : ustr) : ustr := rstrip (lstrip t).

(** The patterns [remove_decorative] uses: classes, sequences and
    greedy repetition of a class. *)
Inductive regex : Type :=
| Eps
| Chr (p : N → bool)
| Cat (r1 r2 : regex)
| Star (p : N → bool).

Section Matcher.
Context {A : Type}.

Fixpoint star_greedy (p : N → bool) (k : ustr → option A) (t : ustr)
  : option A :=
  match t with
  | c :: t' =>
      if p c then
        match star_greedy p k t' with
        | Some a => Some a
        | None => k t
        end
      else k t
  | [] => k t
  end.

(** The matcher of [Re.run], at this character type. *)
Fixpoint run (r : regex) (t : ustr) (k : ustr → option A) : option A :=
  match r with
  | Eps => k t
  | Chr p =>
      match t with
      | c :: t' => if p c then k t' else None
      | [] => None
      end
  | Cat r1 r2 => run r1 t (λ t', run r2 t' k)
  | Star p => star_greedy p k t
  end.
End Matcher.

Definition match_at (r : regex) (t : ustr) : option nat :=
  run r t (λ rest, Some (length t - length rest)).

(** [re.sub(r, repl, t)], as [Re.sub_go]. *)
Fixpoint sub_go (r : regex) (repl : ustr) (skip : nat) (t : ustr) : ustr :=
  match t with
  | [] =>
      match skip, match_at r [] with
      | 0, Some _ => repl
      | _, _ => []
      end
  | c :: t' =>
      match skip with
      | S n => sub_go r repl n t'
      | 0 =>
          match match_at r t with
          | Some (S n) => repl ++ sub_go r repl n t'
          | Some 0 => repl ++ c :: sub_go r repl 0 t'
          | None => c :: sub_go r repl 0 t'
          end
      end
  end.

Definition sub (r : regex) (repl t : ustr) : ustr := sub_go r repl 0 t.

Definition lit (c : N) : regex := Chr (λ x, (x =? c)%N).
Definition Plus (p : N → bool) : regex := Cat (Chr p) (Star p).

(** [t[i:j]] for [0 <= i <= j]. *)
Definition slice (i j : nat) (t : ustr) : ustr := take (j - i) (drop i t).

End Wide.

(** ** The decoder of cleaner.py, on strings of any code points

    [Cleaner.decode_cloudflare_email] above reads payloads of code points
    below 256.  Here the payload is any string; [int] then also reads the
    decimal digits and the blanks beyond ASCII. *)

Module WideCleaner.

Import Wide.

Section Decimal.

(** [decimal c] is the value of the code point [c] as a decimal digit in
    the Unicode database of the runtime ([Py_UNICODE_TODECIMAL]); [None]
    when it has none. *)
Variable decimal : N → option Z.

(** The value of a character as a digit of base 16.  [int] first rewrites
    its argument: a code point below 127 stands for itself, any other for
    a space when it is whitespace and else for its decimal digit; then it
    reads the digits 0-9, a-f and A-F. *)
Definition digit16 (c : N) : option Z :=
  if (c <? 127)%N then
    if between 48 57 c then Some (Z.of_N c - 48)%Z            (* 0-9 *)
    else if between 97 102 c then Some (Z.of_N c - 87)%Z      (* a-f *)
    else if between 65 70 c then Some (Z.of_N c - 55)%Z       (* A-F *)
    else None
  else if isspace c then None
  else decimal c.

(** The blanks [int] strips: the ASCII ones, 9-13 and 32, and the
    whitespace from 127 on. *)
Definition int_blank (c : N) : bool :=
  if (c <? 127)%N then between 9 13 c || (c =? 32)%N else isspace c.

Definition plus_sign : N := 43%N.
Definition minus_sign : N := 45%N.

(** [int(chunk, 16)] on a slice of at most two characters; [None] is
    [ValueError]. *)
Definition int16 (chunk : ustr) : option Z :=
  match chunk with
  | [a] => digit16 a
  | [a; b] =>
      match digit16 a, digit16 b with
      | Some x, Some y => Some (16 * x + y)%Z
      | Some x, None => if int_blank b then Some x else None
      | None, Some y =>
          if int_blank a || (a =? plus_sign)%N then Some y
          else if (a =? minus_sign)%N then Some (- y)%Z
          else None
      | None, None => None
      end
  | _ => None
  end.

(** [chr(x)]: [None] is [ValueError]. *)
Definition chr (x : Z) : option N :=
  if ((0 <=? x) && (x <? 0x110000))%Z then Some (Z.to_N x) else None.

(** The body of the [try]. *)
Definition decode_try (cfemail : ustr) : option ustr :=
  n ← int16 (slice 0 2 cfemail);
  mapM (λ i, x ← int16 (slice i (i + 2) cfemail); chr (Z.lxor x n))
       (Cleaner.range2 2 (length cfemail)).

Definition decode_cloudflare_email (cfemail : ustr) : ustr :=
  match decode_try cfemail with
  | Some email => email
  | None => []        (* except Exception: the empty string *)
  end.

End Decimal.

End WideCleaner.

(** ** text_utils.py *)

Module TextUtils.

(** *** BaseTextCleaner.remove_decorative *)

(** The class of [emoji_pattern]: nine ranges of code points. *)
Definition emoji (c : N) : bool :=
  Wide.between 0x1F600 0x1F64F c
  || Wide.between 0x1F300 0x1F5FF c
  || Wide.between 0x1F680 0x1F6FF c
  || Wide.between 0x1F1E0 0x1F1FF c
  || Wide.between 0x2700 0x27BF c
  || Wide.between 0x1F900 0x1F9FF c
  || Wide.between 0x2600 0x26FF c
  || Wide.between 0x2B00 0x2BFF c
  || Wide.between 0x2300 0x23FF c.

Definition space : N := 32%N.
Definition tab : N := 9%N.
Definition newline : N := 10%N.

Definition remove_decorative (text : Wide.ustr) : Wide.ustr :=
  let text := Wide.sub (Wide.Plus emoji) [] text in
  let text :=                                          (* r"[ \t]+" *)
    Wide.sub (Wide.Plus (λ c, (c =? space)%N || (c =? tab)%N)) [space] text in
  let text :=                                          (* r"\n\s*\n" *)
    Wide.sub (Wide.Cat (Wide.lit newline)
                (Wide.Cat (Wide.Star Wide.isspace) (Wide.lit newline)))
             [newline] text in
  Wide.strip text.

(** *** find_string_in_html *)

Record hit : Type :=
  { source : str;
    match_ : str;
    start : nat;
    end_ : nat;
    snippet : str }.

(** The pattern of [_search]; every character goes through [re.escape]
    and the flags are [re.IGNORECASE]. *)
Definition digits_pattern (target_digits : str) : Re.regex :=
  Re.cats (flat_map (λ ch, [Re.lit_i ch; Re.Star Re.cls_D]) target_digits).

Definition pattern (target target_digits : str) : Re.regex :=
  if bool_decide (target_digits = []) then Re.word_i target
  else digits_pattern target_digits.

(** [find_string_in_html]; [context_chars] is any integer. *)
Definition find_string_in_html (target html : str) (context_chars : Z)
  : list hit :=
  if bool_decide (target = []) || bool_decide (html = []) then []
  else
    let target_digits := Re.sub (Re.Chr Re.cls_D) [] target in
    map (λ m,
           let '(s, e) := m in
           let snippet_start := Z.max 0 (Z.of_nat s - context_chars) in
           let snippet_end :=
             Z.min (Z.of_nat (length html)) (Z.of_nat e + context_chars) in
           {| source := Py.s "raw";
              match_ := slice s e html;
              start := s;
              end_ := e;
              snippet := slice_z snippet_start snippet_end html |})
        (Re.finditer (pattern target target_digits) html).

End TextUtils.

(** ** The vocabulary of the specification

    The notions the statements below are written in.  They are defined
    here on their own, next to the code, and related to it by the lemmas
    that follow. *)

Module Spec.

Import Soup.

(** *** Phone numbers *)

(** The digit-only form of a candidate: its digits, in order. *)
Definition digits_of (candidate : str) : str :=
  List.filter isdecimal candidate.

(** One digit, repeated. *)
Definition repeated_digit (d : str) : Prop :=
  ∃ c, d = replicate (length d) c.

Definition begins_with (p : string) (d : str) : Prop :=
  ∃ rest, d = Py.s p ++ rest.

(** *** The obfuscation scheme *)

(** A string cut into pairs of characters, a single one left over at the
    end when the length is odd. *)
Fixpoint chunks2 (t : str) : list str :=
  match t with
  | a :: b :: t' => [a; b] :: chunks2 t'
  | [a] => [[a]]
  | [] => []
  end.

Definition hexdigit (upper : bool) (v : Z) : ascii :=
  ascii_of_N (Z.to_N (if (v <? 10)%Z then 48 + v
                      else if upper then 55 + v else 87 + v)%Z).

(** A byte as two hex digits. *)
Definition hex2 (upper : bool) (v : Z) : str :=
  [hexdigit upper (v / 16)%Z; hexdigit upper (v mod 16)%Z].

Definition code (c : ascii) : Z := Z.of_N (ord c).

(** The payload for an email: the key byte, then every character of the
    email XOR the key, each as two hex digits (capitals when [upper]). *)
Definition obfuscate (upper : bool) (key : Z) (email : str) : str :=
  hex2 upper key ++ flat_map (λ c, hex2 upper (Z.lxor (code c) key)) email.

Definition is_hex (c : ascii) : bool :=
  between 48 57 c || between 97 102 c || between 65 70 c.

(** The characters an integer literal of base 16 can hold when it is at
    most two characters long: hex digits, a sign, a blank. *)
Definition literal_char (c : ascii) : bool :=
  is_hex c || Cleaner.int_blank c
  || bool_decide (c = "+"%char) || bool_decide (c = "-"%char).

(** *** Payloads of any code points *)

(** The decimal digits of Unicode 14.0, the database of Python 3.11: 66
    runs of ten code points, the digits 0 to 9 of a script; the list holds
    the first code point of every run. *)
Definition decimal_runs : list N :=
  [0x30; 0x660; 0x6F0; 0x7C0; 0x966; 0x9E6; 0xA66; 0xAE6; 0xB66; 0xBE6;
   0xC66; 0xCE6; 0xD66; 0xDE6; 0xE50; 0xED0; 0xF20; 0x1040; 0x1090;
   0x17E0; 0x1810; 0x1946; 0x19D0; 0x1A80; 0x1A90; 0x1B50; 0x1BB0; 0x1C40;
   0x1C50; 0xA620; 0xA8D0; 0xA900; 0xA9D0; 0xA9F0; 0xAA50; 0xABF0; 0xFF10;
   0x104A0; 0x10D30; 0x11066; 0x110F0; 0x11136; 0x111D0; 0x112F0; 0x11450;
   0x114D0; 0x11650; 0x116C0; 0x11730; 0x118E0; 0x11950; 0x11C50; 0x11D50;
   0x11DA0; 0x16A60; 0x16AC0; 0x16B50; 0x1D7CE; 0x1D7D8; 0x1D7E2; 0x1D7EC;
   0x1D7F6; 0x1E140; 0x1E2F0; 0x1E950; 0x1FBF0]%N.

Definition unicode_decimal (c : N) : option Z :=
  match List.find (λ first, (first <=? c)%N && (c <? first + 10)%N)
                  decimal_runs with
  | Some first => Some (Z.of_N (c - first))
  | None => None
  end.

(** A table of decimal digits gives values from 0 to 9. *)
Definition decimal_table (decimal : N → option Z) : Prop :=
  ∀ c v, decimal c = Some v → (0 ≤ v < 10)%Z.

(** A hex digit of ASCII. *)
Definition wide_is_hex (c : N) : bool :=
  Wide.between 48 57 c || Wide.between 97 102 c || Wide.between 65 70 c.

(** A character [int] reads as a digit of base 16: a hex digit of ASCII,
    or a decimal digit of any script beyond ASCII. *)
Definition reads_as_digit (decimal : N → option Z) (c : N) : bool :=
  wide_is_hex c
  || ((127 <=? c)%N && negb (Wide.isspace c)
      && bool_decide (is_Some (decimal c))).

(** The characters an integer literal of base 16 can hold when it is at
    most two characters long: digits, a sign, a blank. *)
Definition wide_literal_char (decimal : N → option Z) (c : N) : bool :=
  reads_as_digit decimal c || WideCleaner.int_blank c
  || (c =? 43)%N || (c =? 45)%N.

(** Four fullwidth digits: 4, 1, 4, 2. *)
Definition fullwidth_4142 : Wide.ustr := [0xFF14; 0xFF11; 0xFF14; 0xFF12]%N.

(** *** Lines *)

(** The lines of a text, as the deduplication loop sees them: cut at the
    newlines, stripped, the empty ones left out. *)
Definition text_lines (t : str) : list str :=
  List.filter (λ l, negb (bool_decide (l = [])))
              (map strip (split Cleaner.nl t)).

Definition url_start (t : str) : bool :=
  startswith (Py.s "http://") t || startswith (Py.s "https://") t
  || startswith (Py.s "/") t.

(** A line without its trailing link: cut at the first colon that is
    followed, after any whitespace, by "http://", "https://" or "/". *)
Fixpoint cut_link (line : str) : str :=
  match line with
  | [] => []
  | c :: rest =>
      if bool_decide (c = ":"%char) && url_start (drop_while isspace rest)
      then []
      else c :: cut_link rest
  end.

(** The dedup key of a line as the specification words it: the line
    without its trailing link, stripped and lowercased. *)
Definition dedup_key (line : str) : str := lower (strip (cut_link line)).

(** The first line of every dedup key, in order; [seen] holds the keys
    met before. *)
Fixpoint keep_first (seen : gset str) (lines : list str) : list str :=
  match lines with
  | [] => []
  | l :: rest =>
      if bool_decide (Cleaner.normalized_key l ∈ seen) then keep_first seen rest
      else l :: keep_first ({[Cleaner.normalized_key l]} ∪ seen) rest
  end.

(** [[ \t]]: a space or a tab. *)
Definition blank (c : ascii) : bool :=
  bool_decide (c = " "%char) || bool_decide (c = "009"%char).

(** No tab, and no space next to another. *)
Fixpoint collapsed (t : str) : bool :=
  match t with
  | [] => true
  | c :: t' =>
      (if blank c
       then bool_decide (c = " "%char)
            && match t' with d :: _ => negb (blank d) | [] => true end
       else true)
      && collapsed t'
  end.

(** Every newline is followed by a character that is no whitespace. *)
Fixpoint no_blank_line (t : str) : bool :=
  match t with
  | [] => true
  | c :: t' =>
      (if bool_decide (c = Cleaner.nl)
       then match t' with d :: _ => negb (isspace d) | [] => true end
       else true)
      && no_blank_line t'
  end.

(** A line as the loop retains it. *)
Definition clean_line (l : str) : Prop :=
  l ≠ [] ∧ strip l = l ∧ (Cleaner.nl ∉ l) ∧ (Cleaner.nbsp ∉ l)
  ∧ collapsed l = true.

(** *** Pages for the text extractor *)

(** Two links with one text: [<a href="https://a.com/x">Contact us</a>]
    and [<a href="/y">Contact us</a>]. *)
Definition two_contact_links : document :=
  let link := λ href : string,
    Tag (Py.s "a") {[ Py.s "href" := Py.s href ]}
        [NavigableString (Py.s "Contact us")] in
  let q := "034"%char in
  {| markup := Py.s "<a href=" ++ [q] ++ Py.s "https://a.com/x" ++ [q]
               ++ Py.s ">Contact us</a><a href=" ++ [q] ++ Py.s "/y" ++ [q]
               ++ Py.s ">Contact us</a>";
     soup := [link "https://a.com/x"; link "/y"] |}.

(** [<p>abc <rt>def</rt></p>], with a tree builder that keeps the text
    of [rt] in a class of its own. *)
Definition ruby_paragraph : document :=
  {| markup := Py.s "<p>abc <rt>def</rt></p>";
     soup := [Tag (Py.s "p") ∅
                [NavigableString (Py.s "abc ");
                 Tag (Py.s "rt") ∅ [OtherString (Py.s "def")]]] |}.

(** [<p>hello</p>] *)
Definition hello_page : document :=
  {| markup := Py.s "<p>hello</p>";
     soup := [Tag (Py.s "p") ∅ [NavigableString (Py.s "hello")]] |}.

(** *** Pages for the framework detector *)

(** The number of h1, h2, h3, p and li tags in the whole document. *)
Definition document_tags (roots : list node) : nat :=
  length (find_all (map Py.s ["p"; "h1"; "h2"; "h3"; "li"]) roots).

(** The tags named in [names] in the tree of [n], [n] included, counted
    by recursion on the tree. *)
Fixpoint count_tags (names : list str) (n : node) : nat :=
  match n with
  | Tag name _ cs =>
      (if bool_decide (name ∈ names) then 1 else 0)
      + foldr (λ c k, count_tags names c + k) 0 cs
  | _ => 0
  end.

Definition count_tags_in (names : list str) (roots : list node) : nat :=
  foldr (λ c k, count_tags names c + k) 0 roots.

(** The first tag named [name] in the tree of [n], in document order: [n]
    itself, or else the first one found below its children, taken from
    left to right. *)
Fixpoint first_tag (name : str) (n : node) : option node :=
  match n with
  | Tag nm _ cs =>
      if bool_decide (nm = name) then Some n
      else foldr (λ c later, match first_tag name c with
                             | Some found => Some found
                             | None => later
                             end) None cs
  | _ => None
  end.

Definition first_tag_in (name : str) (roots : list node) : option node :=
  foldr (λ c later, match first_tag name c with
                    | Some found => Some found
                    | None => later
                    end) None roots.

(** The number of h1, h2, h3, p and li tags that stand below the first
    body tag of the document, at any depth; 0 in a document without a body
    tag. *)
Definition tags_below_body (roots : list node) : nat :=
  match first_tag_in (Py.s "body") roots with
  | Some (Tag _ _ cs) =>
      count_tags_in (map Py.s ["p"; "h1"; "h2"; "h3"; "li"]) cs
  | _ => 0
  end.

(** Six paragraphs in a body: [<body>] and [<p>a</p>] six times over. *)
Definition six_paragraphs_in_body : document :=
  {| markup := Py.s "<body>" ++ concat (replicate 6 (Py.s "<p>a</p>"))
               ++ Py.s "</body>";
     soup := [Tag (Py.s "body") ∅
                (replicate 6 (Tag (Py.s "p") ∅
                                [NavigableString (Py.s "a")]))] |}.

(** The nodes below a tag of the tree stand together in the tree. *)
Definition below_together (nodes : list node) : Prop :=
  ∀ name attrs cs, Tag name attrs cs ∈ nodes →
    ∃ pre post, nodes = pre ++ all_nodes cs ++ post.

(** Six paragraphs, [<p>a</p>] six times over, and no body tag: html.parser
    adds none. *)
Definition six_paragraphs : document :=
  {| markup := concat (replicate 6 (Py.s "<p>a</p>"));
     soup := replicate 6 (Tag (Py.s "p") ∅ [NavigableString (Py.s "a")]) |}.




Definition is_quote (c : ascii) : Prop := c = "034"%char ∨ c = "'"%char.

(** *** The batch fetch *)

(** The number of fetches that fail among the first [n] submitted. *)
Definition failures (net : nat → option document) (n : nat) : nat :=
  length (List.filter (λ i, negb (bool_decide (is_Some (net i)))) (seq 0 n)).

(** The records of the fetches that succeed, in the order of submission;
    the first URL is submitted as future [start]. *)
Fixpoint fetched_in_order (net : nat → option document) (start : nat)
    (urls : list str) : list Fetcher.FetchResult :=
  match urls with
  | [] => []
  | u :: us =>
      match Fetcher.fetch_html (net start) u with
      | Some r => r :: fetched_in_order net (S start) us
      | None => fetched_in_order net (S start) us
      end
  end.

(** A worker count [ThreadPoolExecutor] accepts: the default, or 1 and up. *)
Definition workers_ok (max_workers : option Z) : Prop :=
  match max_workers with
  | None => True
  | Some w => (0 < w)%Z
  end.

(** A page without links, mail or phone. *)
Definition plain_page : document :=
  {| markup := Py.s "<body><p>hi</p></body>";
     soup := [Tag (Py.s "body") ∅
                  [Tag (Py.s "p") ∅ [NavigableString (Py.s "hi")]]] |}.

(** *** The links of a search *)

(** The social sites of [SOCIAL_DOMAINS], without the names that hold
    another one. *)
Definition SOCIAL_SITES : list str :=
  map Py.s ["facebook.com"; "instagram.com"; "twitter.com"; "x.com";
            "tiktok.com"; "linkedin.com"].

(** The links that are there, not empty and not bad, in order. *)
Definition good_links (bad : str → bool) (raw_links : list (option str))
  : list str :=
  omap (λ link, l ← link;
                if bool_decide (l = []) || bad l then None else Some l)
       raw_links.

(** The links [main_search] retains: the first [n_sites] good ones; for
    [n_sites] below 1, the first result of the search when it is good. *)
Definition selected (bad : str → bool) (n_sites : Z)
    (raw_links : list (option str)) : list str :=
  if (1 <=? n_sites)%Z then take (Z.to_nat n_sites) (good_links bad raw_links)
  else good_links bad (take 1 raw_links).

(** *** What a pattern can match *)

(** The texts a pattern can match, anchors put aside ([$] takes no
    character). *)
Inductive matches : Re.regex → str → Prop :=
| matches_eps : matches Re.Eps []
| matches_chr p c : p c = true → matches (Re.Chr p) [c]
| matches_cat r1 r2 w1 w2 :
    matches r1 w1 → matches r2 w2 → matches (Re.Cat r1 r2) (w1 ++ w2)
| matches_alt_l r1 r2 w : matches r1 w → matches (Re.Alt r1 r2) w
| matches_alt_r r1 r2 w : matches r2 w → matches (Re.Alt r1 r2) w
| matches_opt r w : matches r w → matches (Re.Opt r) w
| matches_opt_nil r : matches (Re.Opt r) []
| matches_star p w : Forall (λ c, p c = true) w → matches (Re.Star p) w
| matches_star_lazy p w :
    Forall (λ c, p c = true) w → matches (Re.StarLazy p) w
| matches_eos : matches Re.Eos [].

(** Spans [(start, end)] of matches of [r] in [whole], from offset [lo]
    on, from left to right and without overlap. *)
Fixpoint spans_ok (r : Re.regex) (whole : str) (lo : nat)
    (spans : list (nat * nat)) : Prop :=
  match spans with
  | [] => True
  | (s, e) :: rest =>
      lo ≤ s ∧ s ≤ e ∧ e ≤ length whole
      ∧ matches r (slice s e whole)
      ∧ spans_ok r whole e rest
  end.

(** [u] occurs in [t]. *)
Definition occurs_in (u t : str) : Prop := ∃ pre post, t = pre ++ u ++ post.

(** *** Whitespace in a line *)

(** Every run of whitespace made one space. *)
Fixpoint squeeze (t : str) : str :=
  match t with
  | [] => []
  | c :: t' =>
      if isspace c then
        match t' with
        | d :: _ => if isspace d then squeeze t' else " "%char :: squeeze t'
        | [] => [" "%char]
        end
      else c :: squeeze t'
  end.

(** The text of an element as [clean_html] reads it. *)
Definition element_text (elem : node) : str :=
  squeeze (get_text (Py.s " ") elem).

(** *** The tree the lines are read from *)

(** The tree after steps 1 to 3 of [clean_html]. *)
Definition cleaned_tree (html : document) : list node :=
  flat_map (prune Cleaner.is_hidden)
    (map Cleaner.decode_protected_links
       (map Cleaner.decode_cfemail_tags (Cleaner.remove_noise (soup html)))).

(** A test on nodes that does not look below the node. *)
Definition ignores_contents (Q : node → bool) : Prop :=
  ∀ name attrs cs cs', Q (Tag name attrs cs) = Q (Tag name attrs cs').

(** A test on nodes that looks at the kind and the tag name only, and
    holds of no string. *)
Definition by_name (Q : node → bool) : Prop :=
  (∀ name attrs attrs' cs cs',
     Q (Tag name attrs cs) = Q (Tag name attrs' cs'))
  ∧ ∀ t, Q (NavigableString t) = false.

(** Every node of [roots'] that passes [Q] stems from a node of [roots]
    that does. *)
Definition origin (Q : node → bool) (roots roots' : list node) : Prop :=
  ∀ m, m ∈ all_nodes roots' → Q m = true →
       ∃ m', m' ∈ all_nodes roots ∧ Q m' = true.

(** *** Signals *)

(** The top-level domains of [EMAIL_REGEX]. *)
Definition TLDS : list str :=
  map Py.s ["com"; "mx"; "org"; "net"; "edu"; "info"; "biz"; "co"; "io"].

(** The shape of an address [EMAIL_REGEX] can match: a local part, one
    "@", a domain, a dot and a listed top-level domain in any case. *)
Definition email_shape (email : str) : Prop :=
  ∃ local domain tld,
    email = local ++ "@"%char :: domain ++ "."%char :: tld
    ∧ local ≠ [] ∧ domain ≠ []
    ∧ ("@"%char ∉ local) ∧ ("@"%char ∉ domain)
    ∧ lower tld ∈ TLDS.

End Spec.

(** * Properties *)

(** ** Strings and patterns *)

Module PyFacts.

Lemma between_spec (lo hi : N) (c : ascii) :
  between lo hi c = true ↔ (lo ≤ ord c ≤ hi)%N.
Proof. unfold between. rewrite andb_true_iff, !N.leb_le. done. Qed.

Lemma startswith_spec (p t : str) :
  startswith p t = true ↔ ∃ rest, t = p ++ rest.
Proof.
  revert t. induction p as [|a p IH]; intros t; simpl.
  - split; [intros _; by exists t | done].
  - destruct t as [|b t]; simpl.
    + split; [done | intros [rest H]; discriminate].
    + destruct (decide (a = b)) as [->|Hne].
      * rewrite IH. split; intros [rest H]; exists rest; congruence.
      * split; [done | intros [rest H]; congruence].
Qed.

Lemma contains_spec (needle hay : str) :
  contains needle hay = true ↔ ∃ pre post, hay = pre ++ needle ++ post.
Proof.
  induction hay as [|c hay IH]; simpl.
  - rewrite orb_false_r, startswith_spec. split.
    + intros [rest H]. exists [], rest. done.
    + intros (pre & post & H). symmetry in H.
      apply app_eq_nil in H as [-> H]. exists post. done.
  - rewrite orb_true_iff, startswith_spec, IH. split.
    + intros [[rest H]|(pre & post & H)].
      * exists [], rest. done.
      * exists (c :: pre), post. by rewrite H.
    + intros (pre & post & H). destruct pre as [|x pre]; simpl in H.
      * left. by exists post.
      * right. exists pre, post. congruence.
Qed.

(** *** [strip] *)

Lemma drop_while_suffix (p : ascii → bool) (t : str) :
  ∃ pre, t = pre ++ drop_while p t.
Proof.
  induction t as [|c t [pre IH]]; simpl.
  - by exists [].
  - destruct (p c); [|by exists []].
    exists (c :: pre). simpl. by f_equal.
Qed.

Lemma drop_while_head (p : ascii → bool) (t : str) (c : ascii) (r : str) :
  drop_while p t = c :: r → p c = false.
Proof.
  induction t as [|d t IH]; simpl; [done|].
  destruct (p d) eqn:E; [done|]. intros H. by simplify_eq.
Qed.

Lemma drop_while_id (p : ascii → bool) (t : str) :
  match t with c :: _ => p c = false | [] => True end → drop_while p t = t.
Proof. destruct t as [|c t]; simpl; [done|]. by intros ->. Qed.

Lemma drop_while_idem (p : ascii → bool) (t : str) :
  drop_while p (drop_while p t) = drop_while p t.
Proof.
  apply drop_while_id. destruct (drop_while p t) as [|c r] eqn:E; [done|].
  by apply drop_while_head in E.
Qed.

(** [strip] cuts a string out of its argument. *)
Lemma strip_factor (t : str) : ∃ pre post, t = pre ++ strip t ++ post.
Proof.
  unfold strip, rstrip, lstrip.
  destruct (drop_while_suffix isspace t) as [pre Hpre].
  destruct (drop_while_suffix isspace (reverse (drop_while isspace t)))
    as [post Hpost].
  exists pre, (reverse post). rewrite <- reverse_app, <- Hpost.
  by rewrite reverse_involutive.
Qed.

(** A stripped string begins and ends with a character that is no space. *)
Lemma strip_fixed (t : str) :
  strip t = t ↔ lstrip t = t ∧ lstrip (reverse t) = reverse t.
Proof.
  unfold strip, rstrip. split.
  - intros H. assert (Hr : lstrip (reverse t) = reverse t).
    { rewrite <- H at 1 2. rewrite reverse_involutive.
      unfold lstrip. apply drop_while_idem. }
    split; [|done].
    unfold lstrip in *.
    destruct (drop_while_suffix isspace t) as [pre Hpre].
    destruct (drop_while_suffix isspace (reverse (drop_while isspace t)))
      as [post Hpost].
    apply (f_equal reverse) in Hpost.
    rewrite reverse_involutive, reverse_app, H in Hpost.
    rewrite Hpost in Hpre at 1.
    apply (f_equal length) in Hpre.
    rewrite !length_app, length_reverse in Hpre.
    destruct pre; [|simpl in Hpre; lia].
    destruct post; [|simpl in Hpre; lia].
    by rewrite Hpost, app_nil_r.
  - intros [H1 H2]. by rewrite H1, H2, reverse_involutive.
Qed.

Lemma strip_idem (t : str) : strip (strip t) = strip t.
Proof.
  apply strip_fixed. unfold strip, rstrip, lstrip.
  rewrite reverse_involutive, drop_while_idem. split; [|done].
  set (u := drop_while isspace t).
  apply drop_while_id.
  destruct (reverse _) as [|c r] eqn:E; [done|].
  destruct (drop_while_suffix isspace (reverse u)) as [post Hpost].
  apply (f_equal reverse) in Hpost.
  rewrite reverse_involutive, reverse_app, E in Hpost.
  subst u. eapply drop_while_head. rewrite Hpost. reflexivity.
Qed.

Lemma strip_head (t : str) (c : ascii) (r : str) :
  strip t = t → t = c :: r → isspace c = false.
Proof.
  intros [H _]%strip_fixed ->. unfold lstrip in H.
  by apply drop_while_head in H.
Qed.

(** *** [split] and [join] *)

Lemma split_nonempty (sep : ascii) (t : str) : split sep t ≠ [].
Proof.
  destruct t as [|c t]; simpl; [done|].
  destruct (decide (c = sep)); [done|]. by destruct (split sep t).
Qed.

Lemma split_no_sep (sep : ascii) (t : str) : sep ∉ t → split sep t = [t].
Proof.
  induction t as [|c t IH]; simpl; [done|].
  intros H. apply not_elem_of_cons in H as [Hc Ht].
  destruct (decide (c = sep)); [congruence|]. by rewrite IH.
Qed.

Lemma split_app (sep : ascii) (a b : str) :
  sep ∉ a → split sep (a ++ sep :: b) = a :: split sep b.
Proof.
  induction a as [|c a IH]; simpl.
  - intros _. by destruct (decide (sep = sep)).
  - intros H. apply not_elem_of_cons in H as [Hc Ha].
    destruct (decide (c = sep)); [congruence|]. by rewrite IH.
Qed.

Lemma split_join (sep : ascii) (ls : list str) :
  ls ≠ [] → Forall (λ l, sep ∉ l) ls → split sep (join [sep] ls) = ls.
Proof.
  induction ls as [|l ls IH]; [done|].
  intros _ Hall. apply Forall_cons in Hall as [Hl Hls].
  destruct ls as [|l' ls].
  - by apply split_no_sep.
  - change (join [sep] (l :: l' :: ls)) with (l ++ sep :: join [sep] (l' :: ls)).
    rewrite split_app by done. f_equal. by apply IH.
Qed.

(** The first piece of [split] is a prefix without separator. *)
Lemma split_head_prefix (sep : ascii) (t : str) :
  ∃ l0 ls post, split sep t = l0 :: ls ∧ t = l0 ++ post ∧ sep ∉ l0.
Proof.
  induction t as [|c t (l0 & ls & post & H1 & H2 & H3)]; simpl.
  - exists [], [], []. split_and!; [done | done | apply not_elem_of_nil].
  - destruct (decide (c = sep)) as [->|Hne].
    + exists [], (split sep t), (sep :: t).
      split_and!; [done | done | apply not_elem_of_nil].
    + rewrite H1. exists (c :: l0), ls, post.
      split_and!; [done | by rewrite H2 at 1 | by apply not_elem_of_cons].
Qed.

(** The pieces of [split] hold no separator and are cut out of the text. *)
Lemma split_pieces (sep : ascii) (t l : str) :
  l ∈ split sep t → (sep ∉ l) ∧ ∃ pre post, t = pre ++ l ++ post.
Proof.
  revert l. induction t as [|c t IH]; simpl; intros l Hl.
  - apply list_elem_of_singleton in Hl as ->. split; [apply not_elem_of_nil|].
    by exists [], [].
  - destruct (decide (c = sep)) as [->|Hne].
    + apply elem_of_cons in Hl as [->|Hl].
      * split; [apply not_elem_of_nil|]. by exists [], (sep :: t).
      * destruct (IH l Hl) as [H1 (pre & post & H2)].
        split; [done|]. exists (sep :: pre), post. by rewrite H2 at 1.
    + destruct (split_head_prefix sep t) as (l0 & ls & post0 & H1 & H2 & H3).
      rewrite H1 in Hl, IH.
      apply elem_of_cons in Hl as [->|Hl].
      * split; [by apply not_elem_of_cons|].
        exists [], post0. by rewrite H2 at 1.
      * destruct (IH l) as [H4 (pre & post & H5)]; [by right|].
        split; [done|]. exists (c :: pre), post. by rewrite H5 at 1.
Qed.

End PyFacts.

Module ReFacts.

Import PyFacts.

(** A one-character match at the head. *)
Lemma match_at_Chr (p : ascii → bool) (c : ascii) (t : str) :
  Re.match_at (Re.Chr p) (c :: t) = if p c then Some 1 else None.
Proof.
  unfold Re.match_at; simpl. destruct (p c); [|done].
  f_equal. lia.
Qed.

(** Substituting the empty string for a class deletes its characters. *)
Lemma sub_Chr_empty (p : ascii → bool) (t : str) :
  Re.sub (Re.Chr p) [] t = List.filter (λ c, negb (p c)) t.
Proof.
  unfold Re.sub. induction t as [|c t IH].
  - reflexivity.
  - cbn [Re.sub_go]. rewrite match_at_Chr. simpl.
    destruct (p c); simpl; by rewrite IH.
Qed.

(** *** The matcher hands a suffix of its input to the continuation *)

Lemma star_greedy_result {A} (p : ascii → bool) (k : str → option A)
    (t : str) (a : A) :
  Re.star_greedy p k t = Some a →
  ∃ rest, k rest = Some a ∧ length rest ≤ length t.
Proof.
  induction t as [|c t IH]; simpl.
  - intros H. exists []. by split.
  - destruct (p c).
    + destruct (Re.star_greedy p k t) as [a'|] eqn:E.
      * intros [= ->]. destruct (IH eq_refl) as (rest & H1 & H2).
        exists rest. split; [done | lia].
      * intros H. exists (c :: t). by split.
    + intros H. exists (c :: t). by split.
Qed.

Lemma star_lazy_result {A} (p : ascii → bool) (k : str → option A)
    (t : str) (a : A) :
  Re.star_lazy p k t = Some a →
  ∃ rest, k rest = Some a ∧ length rest ≤ length t.
Proof.
  induction t as [|c t IH]; simpl.
  - destruct (k []) eqn:E; [|done]. intros [= ->]. exists []. by split.
  - destruct (k (c :: t)) eqn:E.
    + intros [= ->]. exists (c :: t). by split.
    + destruct (p c); [|done]. intros H.
      destruct (IH H) as (rest & H1 & H2). exists rest. split; [done | lia].
Qed.

Lemma run_result {A} (r : Re.regex) (t : str) (k : str → option A) (a : A) :
  Re.run r t k = Some a → ∃ rest, k rest = Some a ∧ length rest ≤ length t.
Proof.
  revert t k. induction r as [| p | r1 IH1 r2 IH2 | r1 IH1 r2 IH2 | r1 IH1
                              | p | p | ]; intros t k; simpl.
  - intros H. exists t. by split.
  - destruct t as [|c t]; [done|]. destruct (p c); [|done].
    intros H. exists t. split; [done | simpl; lia].
  - intros H. destruct (IH1 _ _ H) as (t1 & H1 & L1).
    destruct (IH2 _ _ H1) as (t2 & H2 & L2). exists t2. split; [done | lia].
  - destruct (Re.run r1 t k) eqn:E.
    + intros [= ->]. by apply IH1.
    + apply IH2.
  - destruct (Re.run r1 t k) eqn:E.
    + intros [= ->]. by apply IH1.
    + intros H. exists t. by split.
  - apply star_greedy_result.
  - apply star_lazy_result.
  - destruct t as [|c [|d t]].
    + intros H. exists []. by split.
    + destruct (decide _); [|done]. intros H. exists [c]. by split.
    + done.
Qed.

Lemma match_at_le (r : Re.regex) (t : str) (n : nat) :
  Re.match_at r t = Some n → n ≤ length t.
Proof.
  unfold Re.match_at. intros H.
  apply run_result in H as (rest & [= <-] & _). lia.
Qed.

(** *** [sub] *)

Lemma sub_go_skip (r : Re.regex) (repl : str) (n : nat) (t : str) :
  n ≤ length t → Re.sub_go r repl n t = Re.sub_go r repl 0 (drop n t).
Proof.
  revert t. induction n as [|n IH]; intros t Hn; [by rewrite drop_0|].
  destruct t as [|c t]; simpl in Hn; [lia|].
  simpl. apply IH. lia.
Qed.

(** One step of [sub] at a position where a match may start. *)
Lemma sub_go_cons (r : Re.regex) (repl : str) (c : ascii) (t : str) :
  Re.sub_go r repl 0 (c :: t) =
    match Re.match_at r (c :: t) with
    | Some (S n) => repl ++ Re.sub_go r repl 0 (drop n t)
    | Some 0 => repl ++ c :: Re.sub_go r repl 0 t
    | None => c :: Re.sub_go r repl 0 t
    end.
Proof.
  cbn [Re.sub_go].
  destruct (Re.match_at r (c :: t)) as [[|n]|] eqn:E; [done| |done].
  apply match_at_le in E. simpl in E. f_equal. apply sub_go_skip. lia.
Qed.

(** [sub] writes only characters of the text and of the replacement. *)
Lemma sub_go_chars (r : Re.regex) (repl : str) (skip : nat) (t : str)
    (x : ascii) :
  x ∈ Re.sub_go r repl skip t → x ∈ t ∨ x ∈ repl.
Proof.
  revert skip. induction t as [|c t IH]; intros skip; simpl.
  - destruct skip; [|by left]. destruct (Re.match_at r []); [by right | by left].
  - destruct skip as [|n].
    + destruct (Re.match_at r (c :: t)) as [[|n]|].
      * rewrite elem_of_app, !elem_of_cons.
        intros [?|[?|H]]; [by right | by left; left|].
        destruct (IH _ H); [left; by right | by right].
      * rewrite elem_of_app. intros [?|H]; [by right|].
        destruct (IH _ H); [left; by right | by right].
      * rewrite !elem_of_cons. intros [?|H]; [by left; left|].
        destruct (IH _ H); [left; by right | by right].
    + intros H. destruct (IH _ H); [left; by right | by right].
Qed.

(** Where the pattern matches nowhere, [sub] changes nothing. *)
Lemma sub_no_match (r : Re.regex) (repl : str) (t : str) :
  (∀ i, Re.match_at r (drop i t) = None) → Re.sub r repl t = t.
Proof.
  unfold Re.sub. induction t as [|c t IH]; intros H.
  - simpl. by rewrite (H 0 : Re.match_at r [] = None).
  - cbn [Re.sub_go]. rewrite (H 0 : Re.match_at r (c :: t) = None).
    f_equal. apply IH. intros i. apply (H (S i)).
Qed.

(** *** Greedy repetition before a continuation that cannot fail *)

Lemma star_greedy_total {A} (p : ascii → bool) (k : str → option A)
    (t : str) :
  (∀ u, is_Some (k u)) → Re.star_greedy p k t = k (drop_while p t).
Proof.
  intros Hk. induction t as [|c t IH]; simpl; [done|].
  destruct (p c); [|done]. rewrite IH.
  by destruct (Hk (drop_while p t)) as [a ->].
Qed.

Lemma match_at_Plus (p : ascii → bool) (c : ascii) (t : str) :
  Re.match_at (Re.Plus p) (c :: t) =
    if p c then Some (S (length t - length (drop_while p t))) else None.
Proof.
  unfold Re.match_at, Re.Plus. cbn [Re.run]. destruct (p c); [|done].
  rewrite star_greedy_total by eauto.
  f_equal. destruct (drop_while_suffix p t) as [pre Hpre].
  apply (f_equal length) in Hpre. rewrite length_app in Hpre.
  cbn [length]. lia.
Qed.

Lemma match_at_Plus_nil (p : ascii → bool) : Re.match_at (Re.Plus p) [] = None.
Proof. done. Qed.

(** *** When a match exists, the matcher finds one *)

Lemma star_greedy_some {A} (p : ascii → bool) (k : str → option A) (t : str) :
  is_Some (k t) → is_Some (Re.star_greedy p k t).
Proof.
  destruct t as [|c t]; simpl; [done|].
  intros H. destruct (p c); [|done]. by destruct (Re.star_greedy p k t).
Qed.

Lemma star_greedy_complete {A} (p : ascii → bool) (k : str → option A)
    (a b : str) :
  Forall (λ c, p c = true) a → is_Some (k b) →
  is_Some (Re.star_greedy p k (a ++ b)).
Proof.
  intros Ha Hk. induction Ha as [|c a Hc Ha IH]; simpl.
  - by apply star_greedy_some.
  - rewrite Hc. destruct IH as [x ->]. by eexists.
Qed.

Lemma run_word {A} (w t : str) (k : str → option A) :
  Re.run (Re.word w) (w ++ t) k = k t.
Proof.
  induction w as [|c w IH]; simpl; [done|].
  by rewrite bool_decide_eq_true_2.
Qed.

Lemma search_from_complete (r : Re.regex) (i : nat) (pre t : str) :
  is_Some (Re.match_at r t) → is_Some (Re.search_from r i (pre ++ t)).
Proof.
  intros [n Hn]. revert i. induction pre as [|c pre IH]; intros i; simpl.
  - destruct t; simpl; by rewrite Hn.
  - by destruct (Re.match_at r (c :: pre ++ t)).
Qed.

(** *** Backtracking that cannot help, words, the lazy run to the end *)

Lemma star_greedy_backtrack {A} (p : ascii → bool) (k : str → option A)
    (t : str) :
  (∀ c u, p c = true → k (c :: u) = None) →
  Re.star_greedy p k t = k (drop_while p t).
Proof.
  intros Hk. induction t as [|c t IH]; simpl; [done|].
  destruct (p c) eqn:E; [|done]. rewrite IH.
  destruct (k (drop_while p t)); [done|]. by apply Hk.
Qed.

Lemma run_word_startswith {A} (w t : str) (k : str → option A) :
  Re.run (Re.word w) t k =
    if startswith w t then k (drop (length w) t) else None.
Proof.
  revert t. induction w as [|c w IH]; intros t; simpl; [done|].
  destruct t as [|x t]; [done|].
  destruct (decide (c = x)) as [->|Hne].
  - rewrite bool_decide_eq_true_2 by done. apply IH.
  - by rewrite bool_decide_eq_false_2 by congruence.
Qed.

Lemma star_lazy_to_end {A} (k : str → option A) (t : str) :
  "010"%char ∉ t →
  Re.star_lazy Re.cls_dot (λ u, Re.run Re.Eos u k) t = k [].
Proof.
  induction t as [|c t IH]; [intros _; simpl; by destruct (k [])|].
  intros [Hc Ht]%not_elem_of_cons.
  specialize (IH Ht). cbn [Re.star_lazy]. rewrite IH.
  unfold Re.cls_dot at 1. rewrite bool_decide_eq_false_2 by done.
  cbn [negb Re.run]. destruct t as [|d t]; [|done].
  by destruct (decide (c = "010"%char)).
Qed.

End ReFacts.

(** ** Phone validity *)

Module PhoneFacts.

Import Fetcher Spec.

Lemma clean_number_digits (text : str) : clean_number text = digits_of text.
Proof.
  unfold clean_number, digits_of. rewrite ReFacts.sub_Chr_empty.
  unfold Re.cls_D. induction text as [|c t IH]; simpl; [done|].
  destruct (isdecimal c); simpl; by rewrite IH.
Qed.

Lemma digits_of_idem (text : str) : digits_of (digits_of text) = digits_of text.
Proof.
  unfold digits_of. induction text as [|c t IH]; simpl; [done|].
  destruct (isdecimal c) eqn:E; simpl; [rewrite E|]; by rewrite ?IH.
Qed.

Lemma all_equal_replicate (l : str) (c : ascii) :
  (∀ x, x ∈ l → x = c) → l = replicate (length l) c.
Proof.
  induction l as [|x l IH]; intros Hall; simpl; [done|].
  f_equal.
  - apply Hall. left.
  - apply IH. intros y Hy. apply Hall. by right.
Qed.

Lemma set_size_one (l : str) :
  size (list_to_set l : gset ascii) = 1 ↔ l ≠ [] ∧ repeated_digit l.
Proof.
  split.
  - intros H. apply size_1_elem_of in H as [c Hc].
    assert (Hall : ∀ x, x ∈ l → x = c).
    { intros x Hx. apply (elem_of_list_to_set (C := gset ascii)) in Hx.
      rewrite Hc in Hx. by apply elem_of_singleton in Hx. }
    split.
    + intros ->. simpl in Hc. set_solver.
    + exists c. by apply all_equal_replicate.
  - intros [Hne [c Hc]]. rewrite Hc.
    destruct (length l) as [|n] eqn:E.
    { destruct l; [done | discriminate]. }
    clear. induction n as [|n IH].
    + cbn [replicate]. rewrite list_to_set_cons, list_to_set_nil.
      rewrite union_empty_r_L. apply size_singleton.
    + rewrite <- IH. cbn [replicate]. rewrite !list_to_set_cons.
      f_equal. set_solver.
Qed.

Lemma is_valid_phone_digits (d : str) :
  digits_of d = d →
  is_valid_phone d = true ↔
    8 ≤ length d ≤ 12
    ∧ ¬ repeated_digit d
    ∧ ¬ ((length d = 11 ∨ length d = 12)
         ∧ (begins_with "16" d ∨ begins_with "17" d)).
Proof.
  intros Hd. unfold is_valid_phone, begins_with.
  rewrite clean_number_digits, Hd.
  rewrite <- !PyFacts.startswith_spec.
  destruct (length d <? 8) eqn:E1; cbn [orb andb].
  { apply Nat.ltb_lt in E1. split; [done | lia]. }
  destruct (12 <? length d) eqn:E2; cbn [orb andb].
  { apply Nat.ltb_lt in E2. split; [done | lia]. }
  apply Nat.ltb_ge in E1, E2.
  destruct (13 <=? length d) eqn:E3.
  { apply Nat.leb_le in E3. lia. }
  destruct (11 <=? length d) eqn:E4; cbn [orb andb].
  - apply Nat.leb_le in E4.
    destruct (startswith (Py.s "16") d || startswith (Py.s "17") d) eqn:E5.
    + apply orb_true_iff in E5. split; [done|].
      intros (_ & _ & H). destruct H. split; [lia | done].
    + apply orb_false_iff in E5 as [E5 E6].
      destruct (size (list_to_set d : gset ascii) =? 1) eqn:E7.
      * apply Nat.eqb_eq, set_size_one in E7 as [_ E7].
        split; [done | tauto].
      * apply Nat.eqb_neq in E7. rewrite set_size_one in E7.
        split; [intros _ | done].
        split_and!; [lia | lia | | ].
        -- intros Hr. apply E7. split; [|done]. intros ->; simpl in E1; lia.
        -- rewrite E5, E6. intros [_ [?|?]]; done.
  - apply Nat.leb_gt in E4.
    destruct (size (list_to_set d : gset ascii) =? 1) eqn:E7.
    + apply Nat.eqb_eq, set_size_one in E7 as [_ E7].
      split; [done | tauto].
    + apply Nat.eqb_neq in E7. rewrite set_size_one in E7.
      split; [intros _ | done].
      split_and!; [lia | lia | | lia].
      intros Hr. apply E7. split; [|done]. intros ->; simpl in E1; lia.
Qed.

(** C3: [is_valid_phone] holds exactly when the digit-only form of the
    candidate (its digits in order, which is what [clean_number] returns)
    has 8 to 12 digits, is not one digit repeated, and is not an
    11- or 12-digit string that begins with 16 or 17; "12345678" and
    "5551234567" are valid, "1111111111" and "16555512345" are not. *)
Theorem is_valid_phone_spec :
  (∀ candidate : str,
     clean_number candidate = digits_of candidate
     ∧ (is_valid_phone candidate = true ↔
          8 ≤ length (digits_of candidate) ≤ 12
          ∧ ¬ repeated_digit (digits_of candidate)
          ∧ ¬ ((length (digits_of candidate) = 11
                ∨ length (digits_of candidate) = 12)
               ∧ (begins_with "16" (digits_of candidate)
                  ∨ begins_with "17" (digits_of candidate)))))
  ∧ is_valid_phone (Py.s "12345678") = true
  ∧ is_valid_phone (Py.s "5551234567") = true
  ∧ is_valid_phone (Py.s "1111111111") = false
  ∧ is_valid_phone (Py.s "16555512345") = false.
Proof.
  split; [|by vm_compute].
  intros candidate. split; [apply clean_number_digits|].
  rewrite <- (is_valid_phone_digits (digits_of candidate))
    by apply digits_of_idem.
  unfold is_valid_phone.
  by rewrite !clean_number_digits, digits_of_idem.
Qed.

(** C10: the verdict of [is_valid_phone] on a candidate is its verdict on
    [clean_number] of the candidate; two candidates with the same digits
    in the same order, whatever separates them, get the same verdict. *)
Theorem is_valid_phone_clean_number :
  (∀ candidate : str,
     is_valid_phone candidate = is_valid_phone (clean_number candidate))
  ∧ (∀ a b : str,
       digits_of a = digits_of b → is_valid_phone a = is_valid_phone b).
Proof.
  split.
  - intros candidate. unfold is_valid_phone.
    by rewrite !clean_number_digits, digits_of_idem.
  - intros a b Hab. unfold is_valid_phone.
    by rewrite !clean_number_digits, Hab.
Qed.

Lemma is_valid_phone_clean_number_witness :
  digits_of (Py.s "(449) 805-5337") = digits_of (Py.s "449 805 5337")
  ∧ is_valid_phone (Py.s "(449) 805-5337")
    = is_valid_phone (Py.s "449 805 5337").
Proof.
  split; [reflexivity|].
  apply (proj2 is_valid_phone_clean_number). reflexivity.
Defined.

End PhoneFacts.

(** ** The obfuscation decoder *)

Module Decoder.

Import Cleaner Spec.

Lemma pair_induction (P : str → Prop) :
  P [] → (∀ a, P [a]) → (∀ a b t, P t → P (a :: b :: t)) → ∀ t, P t.
Proof.
  intros H0 H1 H2.
  assert (H : ∀ t, P t ∧ ∀ a, P (a :: t)).
  { induction t as [|b t [IH1 IH2]]; split; auto. }
  intros t. apply H.
Qed.

Lemma slices_from_0 (t : str) :
  map (λ j, take 2 (drop (2 * j) t)) (seq 0 ((length t + 1) / 2))
  = chunks2 t.
Proof.
  induction t as [| a | a b t IH] using pair_induction; [done..|].
  replace ((length (a :: b :: t) + 1) / 2) with (S ((length t + 1) / 2)).
  2:{ cbn [length].
      replace (S (S (length t)) + 1) with (1 * 2 + (length t + 1)) by lia.
      rewrite Nat.div_add_l by lia. lia. }
  cbn [seq map chunks2]. f_equal.
  rewrite <- IH, <- seq_shift, map_map.
  apply map_ext. intros j.
  by replace (2 * S j) with (S (S (2 * j))) by lia.
Qed.

Lemma slices_chunks (k : nat) (t : str) :
  map (λ i, slice i (i + 2) t) (range2 k (length t)) = chunks2 (drop k t).
Proof.
  rewrite <- slices_from_0. unfold range2, slice.
  rewrite map_map, length_drop.
  apply map_ext. intros j.
  replace (k + 2 * j + 2 - (k + 2 * j)) with 2 by lia.
  by rewrite drop_drop.
Qed.

Lemma mapM_map {A B C} (f : B → option C) (g : A → B) (l : list A) :
  mapM f (map g l) = mapM (λ x, f (g x)) l.
Proof. induction l as [|x l IH]; simpl; [done|]. by rewrite IH. Qed.

(** [decode_try], chunk by chunk. *)
Lemma decode_try_chunks (cfemail : str) :
  decode_try cfemail =
    n ← int16 (take 2 cfemail);
    mapM (λ chunk, x ← int16 chunk; chr (Z.lxor x n))
         (chunks2 (drop 2 cfemail)).
Proof.
  unfold decode_try. change (slice 0 2 cfemail) with (take 2 cfemail).
  destruct (int16 (take 2 cfemail)) as [n|]; simpl; [|done].
  rewrite <- slices_chunks.
  by rewrite (mapM_map (λ chunk, x ← int16 chunk; chr (Z.lxor x n))).
Qed.

(** *** Bytes and hex digits *)

Lemma code_range (c : ascii) : (0 ≤ code c < 256)%Z.
Proof.
  unfold code, ord. pose proof (N_ascii_bounded c). lia.
Qed.

Lemma chr_code (c : ascii) : chr (code c) = Some c.
Proof.
  unfold chr. pose proof (code_range c) as H.
  replace ((0 <=? code c)%Z && (code c <? 256)%Z) with true
    by (symmetry; apply andb_true_iff; split; lia).
  unfold code, ord. by rewrite N2Z.id, ascii_N_embedding.
Qed.

Lemma lxor_byte (a b : Z) :
  (0 ≤ a < 256 → 0 ≤ b < 256 → 0 ≤ Z.lxor a b < 256)%Z.
Proof.
  intros Ha Hb.
  assert (H0 : (0 ≤ Z.lxor a b)%Z) by (apply Z.lxor_nonneg; lia).
  split; [done|].
  destruct (decide (Z.lxor a b = 0%Z)) as [->|Hne]; [lia|].
  change 256%Z with (2 ^ 8)%Z. apply Z.log2_lt_pow2; [lia|].
  pose proof (Z.log2_lxor a b ltac:(lia) ltac:(lia)) as Hl.
  assert (Hla : (Z.log2 a < 8)%Z).
  { destruct (decide (a = 0%Z)) as [->|?]; [done|].
    apply Z.log2_lt_pow2; lia. }
  assert (Hlb : (Z.log2 b < 8)%Z).
  { destruct (decide (b = 0%Z)) as [->|?]; [done|].
    apply Z.log2_lt_pow2; lia. }
  lia.
Qed.

Lemma lxor_cancel (x k : Z) : Z.lxor (Z.lxor x k) k = x.
Proof. by rewrite Z.lxor_assoc, Z.lxor_nilpotent, Z.lxor_0_r. Qed.

Lemma byte_cases (P : Z → Prop) :
  (∀ n, n ∈ seq 0 256 → P (Z.of_nat n)) → ∀ v, (0 ≤ v < 256)%Z → P v.
Proof.
  intros H v Hv. rewrite <- (Z2Nat.id v) by lia.
  apply H. apply elem_of_seq. lia.
Qed.

Lemma int16_hex2 (upper : bool) (v : Z) :
  (0 ≤ v < 256)%Z → int16 (hex2 upper v) = Some v.
Proof.
  revert v. apply byte_cases.
  assert (H : forallb (λ n, bool_decide
              (int16 (hex2 upper (Z.of_nat n)) = Some (Z.of_nat n)))
              (seq 0 256) = true)
    by (destruct upper; vm_compute; reflexivity).
  intros n Hn. rewrite forallb_forall in H.
  apply list_elem_of_In, H in Hn. by apply bool_decide_eq_true in Hn.
Qed.

Lemma chunks2_hex2 {A} (upper : bool) (f : A → Z) (l : list A) :
  chunks2 (flat_map (λ x, hex2 upper (f x)) l)
  = map (λ x, hex2 upper (f x)) l.
Proof. induction l as [|x l IH]; simpl; [done|]. by rewrite IH. Qed.

(** C5: for every email string and every key byte, the payload made of
    the key byte followed by each character of the email XOR the key, all
    as pairs of hex digits, is decoded by [decode_cloudflare_email] to the
    email itself.  The strings of the model are those of code points
    below 256, the ASCII emails among them; the hex digits may be small
    or capital. *)
Theorem decode_obfuscate (upper : bool) (key : Z) (email : str) :
  (0 ≤ key < 256)%Z →
  decode_cloudflare_email (obfuscate upper key email) = email.
Proof.
  intros Hkey. unfold decode_cloudflare_email, obfuscate.
  rewrite decode_try_chunks.
  change (take 2 (hex2 upper key ++ ?l)) with (hex2 upper key).
  change (drop 2 (hex2 upper key ++ ?l)) with l.
  rewrite int16_hex2 by done. cbn [mbind option_bind].
  rewrite chunks2_hex2, mapM_map.
  replace (mapM _ email) with (Some email); [done|].
  symmetry. apply mapM_Some. induction email as [|c email IH]; constructor.
  - pose proof (code_range c).
    rewrite int16_hex2 by (apply lxor_byte; lia). cbn [mbind option_bind].
    by rewrite lxor_cancel, chr_code.
  - apply IH.
Qed.

Lemma decode_obfuscate_witness :
  (0 ≤ 66 < 256)%Z
  ∧ obfuscate false 66 (Py.s "a@b.no") = Py.s "422302206c2c2d"
  ∧ decode_cloudflare_email (obfuscate false 66 (Py.s "a@b.no"))
    = Py.s "a@b.no".
Proof.
  split; [lia|]. split; [reflexivity|].
  apply (decode_obfuscate false 66 (Py.s "a@b.no")). lia.
Defined.

(** *** Malformed payloads *)

Lemma hexval_is_hex (c : ascii) : is_hex c = false → hexval c = None.
Proof.
  unfold is_hex, hexval. intros H.
  apply orb_false_iff in H as [H H3]. apply orb_false_iff in H as [H1 H2].
  by rewrite H1, H2, H3.
Qed.

Lemma hexval_range (c : ascii) (v : Z) :
  hexval c = Some v → (0 ≤ v < 16)%Z.
Proof.
  unfold hexval. intros H.
  repeat match type of H with
         | (if ?b then _ else _) = _ =>
             let E := fresh "E" in
             destruct b eqn:E; [apply PyFacts.between_spec in E|]
         end; simplify_eq; lia.
Qed.

Lemma hexval_hex (c : ascii) : is_hex c = true → is_Some (hexval c).
Proof.
  unfold is_hex, hexval. intros H.
  destruct (between 48 57 c); [by eexists|].
  destruct (between 97 102 c); [by eexists|].
  destruct (between 65 70 c); [by eexists | done].
Qed.

(** A chunk that holds a character no literal can hold is refused. *)
Lemma int16_refuses (chunk : str) (c : ascii) :
  c ∈ chunk → literal_char c = false → int16 chunk = None.
Proof.
  unfold literal_char. intros Hin Hc.
  apply orb_false_iff in Hc as [Hc Hminus].
  apply orb_false_iff in Hc as [Hc Hplus].
  apply orb_false_iff in Hc as [Hhex Hblank].
  apply hexval_is_hex in Hhex.
  destruct chunk as [|a [|b [|? ?]]]; [by apply elem_of_nil in Hin | | | done].
  - apply list_elem_of_singleton in Hin as ->. done.
  - apply elem_of_cons in Hin as [->|Hin].
    + simpl. rewrite Hhex, Hblank, Hplus, Hminus. simpl.
      by destruct (hexval b).
    + apply list_elem_of_singleton in Hin as ->.
      simpl. rewrite Hhex, Hblank. by destruct (hexval a).
Qed.

Lemma int16_range (chunk : str) (x : Z) :
  int16 chunk = Some x → (-16 < x < 256)%Z.
Proof.
  destruct chunk as [|a [|b [|? ?]]]; simpl; [done | | | done].
  - intros H. apply hexval_range in H. lia.
  - destruct (hexval a) as [u|] eqn:Ea, (hexval b) as [v|] eqn:Eb;
      try apply hexval_range in Ea; try apply hexval_range in Eb;
      intros H;
      repeat match type of H with
             | (if ?b then _ else _) = _ => destruct b
             end; simplify_eq; lia.
Qed.

(** What the decoder hands to [chr] is below 256. *)
Lemma xor_in_range (a b : str) (x y : Z) :
  int16 a = Some x → int16 b = Some y → (Z.lxor x y < 256)%Z.
Proof.
  intros Hx%int16_range Hy%int16_range.
  destruct (decide (0 ≤ x)%Z) as [Px|Nx], (decide (0 ≤ y)%Z) as [Py|Ny].
  - apply lxor_byte; lia.
  - assert (¬ (0 ≤ Z.lxor x y)%Z); [rewrite Z.lxor_nonneg|]; lia.
  - assert (¬ (0 ≤ Z.lxor x y)%Z); [rewrite Z.lxor_nonneg|]; lia.
  - rewrite <- Z.lxor_lnot_lnot. apply lxor_byte; unfold Z.lnot; lia.
Qed.

Lemma chunks2_cover (t : str) (c : ascii) :
  c ∈ t → ∃ chunk, chunk ∈ chunks2 t ∧ c ∈ chunk.
Proof.
  induction t as [| a | a b t IH] using pair_induction; simpl.
  - intros H. by apply elem_of_nil in H.
  - intros H. exists [a]. split; [left | done].
  - intros H. rewrite !elem_of_cons in H.
    destruct H as [->|[->|H]].
    + exists [a; b]. split; left.
    + exists [a; b]. split; [left | right; left].
    + destruct (IH H) as (chunk & H1 & H2).
      exists chunk. split; [by right | done].
Qed.

Lemma chunks2_split (t : str) :
  t ≠ [] → chunks2 t = take 2 t :: chunks2 (drop 2 t).
Proof. destruct t as [|a [|b t]]; done. Qed.

Lemma length_chunks2 (t : str) : length (chunks2 t) = (length t + 1) / 2.
Proof.
  induction t as [| a | a b t IH] using pair_induction; [done..|].
  cbn [chunks2 length]. rewrite IH.
  replace (S (S (length t)) + 1) with (1 * 2 + (length t + 1)) by lia.
  rewrite Nat.div_add_l by lia. lia.
Qed.

Lemma decode_try_refused (cfemail : str) (chunk : str) :
  chunk ∈ chunks2 cfemail → int16 chunk = None → decode_try cfemail = None.
Proof.
  intros Hin Hnone. rewrite decode_try_chunks.
  destruct cfemail as [|a t]; [done|].
  rewrite chunks2_split in Hin by done.
  apply elem_of_cons in Hin as [->|Hin].
  - by rewrite Hnone.
  - destruct (int16 (take 2 (a :: t))) as [n|]; [|done].
    cbn [mbind option_bind].
    apply eq_None_not_Some. rewrite mapM_is_Some, Forall_forall.
    intros H. specialize (H chunk Hin).
    cbn in H. rewrite Hnone in H. by destruct H.
Qed.

Lemma int16_hex_chunk (t : str) (chunk : str) :
  Forall (λ c, is_hex c = true) t → chunk ∈ chunks2 t →
  ∃ v, int16 chunk = Some v ∧ (0 ≤ v < 256)%Z.
Proof.
  induction t as [| a | a b t IH] using pair_induction; simpl.
  - intros _ H. by apply elem_of_nil in H.
  - intros Ha H. apply list_elem_of_singleton in H as ->.
    apply Forall_cons in Ha as [Ha _].
    apply hexval_hex in Ha as [v Hv]. exists v. simpl. split; [done|].
    apply hexval_range in Hv. lia.
  - intros Hall H.
    apply Forall_cons in Hall as [Ha Hall].
    apply Forall_cons in Hall as [Hb Hall].
    apply elem_of_cons in H as [->|H]; [|by apply IH].
    apply hexval_hex in Ha as [u Hu]. apply hexval_hex in Hb as [v Hv].
    exists (16 * u + v)%Z. simpl. rewrite Hu, Hv. split; [done|].
    apply hexval_range in Hu, Hv. lia.
Qed.

Lemma decode_hex_length (cfemail : str) :
  Forall (λ c, is_hex c = true) cfemail →
  length (decode_cloudflare_email cfemail) = (length cfemail + 1) / 2 - 1.
Proof.
  intros Hall. destruct cfemail as [|a t]; [done|].
  unfold decode_cloudflare_email. rewrite decode_try_chunks.
  pose proof (chunks2_split (a :: t) ltac:(done)) as Hsplit.
  destruct (int16_hex_chunk (a :: t) (take 2 (a :: t)) Hall) as (n & Hn & Rn).
  { rewrite Hsplit. left. }
  rewrite Hn. cbn [mbind option_bind].
  assert (Hsome : is_Some (mapM (λ chunk, x ← int16 chunk; chr (Z.lxor x n))
                                (chunks2 (drop 2 (a :: t))))).
  { rewrite mapM_is_Some, Forall_forall. intros chunk Hin.
    destruct (int16_hex_chunk (a :: t) chunk Hall) as (x & Hx & Rx).
    { rewrite Hsplit. by right. }
    cbn. rewrite Hx. cbn. unfold chr.
    pose proof (lxor_byte x n Rx Rn).
    replace ((0 <=? Z.lxor x n)%Z && (Z.lxor x n <? 256)%Z) with true
      by (symmetry; apply andb_true_iff; split; lia).
    by eexists. }
  destruct Hsome as [email Hemail]. rewrite Hemail.
  apply length_mapM in Hemail. rewrite <- Hemail.
  pose proof (length_chunks2 (a :: t)) as Hlen.
  rewrite Hsplit in Hlen. cbn [length] in Hlen. cbn [length]. lia.
Qed.

(** *** Payloads of any code points *)

Lemma wide_between_spec (lo hi c : N) :
  Wide.between lo hi c = true ↔ (lo ≤ c ≤ hi)%N.
Proof.
  unfold Wide.between. rewrite andb_true_iff, !N.leb_le. done.
Qed.

Lemma wide_digit16_hex (decimal : N → option Z) (c : N) :
  (c < 127)%N →
  WideCleaner.digit16 decimal c
  = if wide_is_hex c then WideCleaner.digit16 decimal c else None.
Proof.
  intros Hc. unfold WideCleaner.digit16, wide_is_hex.
  replace (c <? 127)%N with true by (symmetry; by apply N.ltb_lt).
  by destruct (Wide.between 48 57 c), (Wide.between 97 102 c),
    (Wide.between 65 70 c).
Qed.

Lemma wide_digit16_range (decimal : N → option Z) (c : N) (v : Z) :
  decimal_table decimal →
  WideCleaner.digit16 decimal c = Some v → (0 ≤ v < 16)%Z.
Proof.
  intros Htable. unfold WideCleaner.digit16.
  destruct (c <? 127)%N.
  - destruct (Wide.between 48 57 c) eqn:E1;
      [apply wide_between_spec in E1; intros [= <-]; lia|].
    destruct (Wide.between 97 102 c) eqn:E2;
      [apply wide_between_spec in E2; intros [= <-]; lia|].
    destruct (Wide.between 65 70 c) eqn:E3;
      [apply wide_between_spec in E3; intros [= <-]; lia|].
    done.
  - destruct (Wide.isspace c); [done|].
    intros Hd. apply Htable in Hd. lia.
Qed.

Lemma reads_as_digit_Some (decimal : N → option Z) (c : N) :
  reads_as_digit decimal c = true ↔ is_Some (WideCleaner.digit16 decimal c).
Proof.
  unfold reads_as_digit.
  destruct (c <? 127)%N eqn:Hc.
  - apply N.ltb_lt in Hc.
    replace (127 <=? c)%N with false by (symmetry; apply N.leb_gt; lia).
    cbn [andb]. rewrite orb_false_r.
    rewrite (wide_digit16_hex decimal c Hc).
    unfold WideCleaner.digit16, wide_is_hex.
    replace (c <? 127)%N with true by (symmetry; by apply N.ltb_lt).
    destruct (Wide.between 48 57 c); [by split; eauto|].
    destruct (Wide.between 97 102 c); [by split; eauto|].
    destruct (Wide.between 65 70 c); [by split; eauto|].
    cbn. split; [done | by intros [? ?]].
  - apply N.ltb_ge in Hc.
    assert (Hhex : wide_is_hex c = false).
    { unfold wide_is_hex.
      destruct (Wide.between 48 57 c) eqn:E1;
        [apply wide_between_spec in E1; lia|].
      destruct (Wide.between 97 102 c) eqn:E2;
        [apply wide_between_spec in E2; lia|].
      destruct (Wide.between 65 70 c) eqn:E3;
        [apply wide_between_spec in E3; lia|].
      done. }
    rewrite Hhex. cbn [orb].
    replace (127 <=? c)%N with true by (symmetry; by apply N.leb_le).
    unfold WideCleaner.digit16.
    replace (c <? 127)%N with false by (symmetry; by apply N.ltb_ge).
    destruct (Wide.isspace c); cbn [negb andb].
    + split; [done | by intros [? ?]].
    + by rewrite bool_decide_eq_true.
Qed.

(** [int] refuses a chunk that holds a character of no literal. *)
Lemma wide_int16_refuses (decimal : N → option Z) (chunk : Wide.ustr)
    (c : N) :
  c ∈ chunk → wide_literal_char decimal c = false →
  WideCleaner.int16 decimal chunk = None.
Proof.
  intros Hin Hc. unfold wide_literal_char in Hc.
  apply orb_false_iff in Hc as [Hc Hminus].
  apply orb_false_iff in Hc as [Hc Hplus].
  apply orb_false_iff in Hc as [Hdigit Hblank].
  assert (Hnone : WideCleaner.digit16 decimal c = None).
  { destruct (WideCleaner.digit16 decimal c) as [v|] eqn:E; [|done].
    assert (H : reads_as_digit decimal c = true)
      by (apply reads_as_digit_Some; by rewrite E).
    congruence. }
  destruct chunk as [|a [|b [|d t]]]; [by apply elem_of_nil in Hin | | | done].
  - apply list_elem_of_singleton in Hin as <-. exact Hnone.
  - cbn [WideCleaner.int16].
    apply elem_of_cons in Hin as [<-|Hin%list_elem_of_singleton].
    + rewrite Hnone. destruct (WideCleaner.digit16 decimal b); [|done].
      unfold WideCleaner.plus_sign, WideCleaner.minus_sign.
      by rewrite Hblank, Hplus, Hminus.
    + subst b. rewrite Hnone.
      destruct (WideCleaner.digit16 decimal a); [|done]. by rewrite Hblank.
Qed.

(** [int] reads a chunk of one or two digits as a byte. *)
Lemma wide_int16_digits (decimal : N → option Z) (chunk : Wide.ustr) :
  decimal_table decimal →
  chunk ≠ [] → length chunk ≤ 2 →
  Forall (λ c, reads_as_digit decimal c = true) chunk →
  ∃ v, WideCleaner.int16 decimal chunk = Some v ∧ (0 ≤ v < 256)%Z.
Proof.
  intros Htable Hne Hlen Hall.
  destruct chunk as [|a [|b [|d t]]]; [done | | | cbn in Hlen; lia].
  - apply Forall_cons in Hall as [[x Hx]%reads_as_digit_Some _].
    exists x. split; [done|].
    apply (wide_digit16_range decimal a x Htable) in Hx. lia.
  - apply Forall_cons in Hall as [[x Hx]%reads_as_digit_Some Hall].
    apply Forall_cons in Hall as [[y Hy]%reads_as_digit_Some _].
    exists (16 * x + y)%Z. cbn [WideCleaner.int16]. rewrite Hx, Hy.
    split; [done|].
    apply (wide_digit16_range decimal a x Htable) in Hx.
    apply (wide_digit16_range decimal b y Htable) in Hy. lia.
Qed.

Lemma wide_slice_lookup (i k : nat) (t : Wide.ustr) (c : N) :
  t !! k = Some c → i ≤ k < i + 2 → c ∈ Wide.slice i (i + 2) t.
Proof.
  intros Hk Hik. unfold Wide.slice.
  replace (i + 2 - i) with 2 by lia.
  apply (list_elem_of_lookup_2 _ (k - i)).
  rewrite lookup_take_lt by lia. rewrite lookup_drop.
  by replace (i + (k - i)) with k by lia.
Qed.

Lemma wide_slice_sub (i j : nat) (t : Wide.ustr) (c : N) :
  c ∈ Wide.slice i j t → c ∈ t.
Proof.
  unfold Wide.slice. intros Hc.
  by apply (subseteq_drop i t), (subseteq_take (j - i)).
Qed.

(** Every character of a payload stands in the first chunk or in one of
    the chunks the loop reads. *)
Lemma wide_chunk_cover (t : Wide.ustr) (c : N) :
  c ∈ t →
  c ∈ Wide.slice 0 2 t
  ∨ ∃ i, i ∈ Cleaner.range2 2 (length t) ∧ c ∈ Wide.slice i (i + 2) t.
Proof.
  intros [k Hk]%list_elem_of_lookup_1.
  pose proof (lookup_lt_Some _ _ _ Hk) as Hlen.
  pose proof (Nat.div_mod_eq k 2) as Hdiv.
  pose proof (Nat.mod_upper_bound k 2 ltac:(done)) as Hmod.
  destruct (decide (k / 2 = 0)) as [H0|H0].
  - left. apply (wide_slice_lookup 0 k); [done | lia].
  - right. exists (2 * (k / 2)). split.
    + unfold Cleaner.range2. apply list_elem_of_fmap.
      exists (k / 2 - 1). split; [lia|].
      apply elem_of_seq. split; [lia|]. cbn [Nat.add].
      assert (Hle : k / 2 ≤ (length t - 1) / 2)
        by (apply Nat.Div0.div_le_mono; lia).
      replace (length t - 2 + 1) with (length t - 1) by lia. lia.
    + apply (wide_slice_lookup _ k); [done | lia].
Qed.

Lemma mapM_refused {A B} (f : A → option B) (l : list A) (x : A) :
  x ∈ l → f x = None → mapM f l = None.
Proof.
  intros Hx Hf. destruct (mapM f l) as [k|] eqn:E; [|done].
  assert (Hs : is_Some (mapM f l)) by by rewrite E.
  rewrite mapM_is_Some, Forall_forall in Hs.
  destruct (Hs x Hx) as [y Hy]. congruence.
Qed.

Lemma range2_below (stop i : nat) :
  i ∈ Cleaner.range2 2 stop → 2 ≤ i < stop.
Proof.
  unfold Cleaner.range2. intros (j & -> & Hj%elem_of_seq)%list_elem_of_fmap.
  cbn [Nat.add] in Hj.
  pose proof (Nat.div_mod_eq (stop - 2 + 1) 2) as Hdiv.
  pose proof (Nat.mod_upper_bound (stop - 2 + 1) 2 ltac:(done)) as Hmod.
  lia.
Qed.

Lemma length_range2 (stop : nat) :
  length (Cleaner.range2 2 stop) = (stop + 1) / 2 - 1.
Proof.
  unfold Cleaner.range2. rewrite length_map, length_seq.
  destruct stop as [|[|n]]; [done | done |].
  replace (S (S n) - 2 + 1) with (n + 1) by lia.
  replace (S (S n) + 1) with (n + 1 + 1 * 2) by lia.
  rewrite Nat.div_add by done. lia.
Qed.

(** C4, as the code has it, for a payload of any code points and any
    table of decimal digits: the decoder never propagates an exception (a
    failure of the [try] body gives the empty string), and it returns the
    empty string for the empty payload and for every payload that holds a
    character [int] can read in no literal of base 16: one that is no hex
    digit, no decimal digit of any script, no sign and no blank.  An odd
    length is no failure: a payload of [n] digits is decoded to
    [(n + 1) / 2 - 1] characters, the last digit of an odd one read as a
    byte of its own. *)
Theorem decode_cloudflare_email_malformed (decimal : N → option Z)
    (cfemail : Wide.ustr) :
  decimal_table decimal →
  (WideCleaner.decode_try decimal cfemail = None →
   WideCleaner.decode_cloudflare_email decimal cfemail = [])
  ∧ (cfemail = [] → WideCleaner.decode_cloudflare_email decimal cfemail = [])
  ∧ ((∃ c, c ∈ cfemail ∧ wide_literal_char decimal c = false) →
     WideCleaner.decode_cloudflare_email decimal cfemail = [])
  ∧ (Forall (λ c, reads_as_digit decimal c = true) cfemail →
     length (WideCleaner.decode_cloudflare_email decimal cfemail)
     = (length cfemail + 1) / 2 - 1).
Proof.
  intros Htable. split_and!.
  - unfold WideCleaner.decode_cloudflare_email. by intros ->.
  - by intros ->.
  - intros (c & Hin & Hc).
    unfold WideCleaner.decode_cloudflare_email, WideCleaner.decode_try.
    destruct (wide_chunk_cover cfemail c Hin) as [H0|(i & Hi & Hci)].
    + by rewrite (wide_int16_refuses decimal _ c H0 Hc).
    + destruct (WideCleaner.int16 decimal (Wide.slice 0 2 cfemail)) as [n|];
        [|done].
      cbn [mbind option_bind].
      rewrite (mapM_refused _ _ i Hi); [done|].
      by rewrite (wide_int16_refuses decimal _ c Hci Hc).
  - intros Hall.
    unfold WideCleaner.decode_cloudflare_email, WideCleaner.decode_try.
    destruct cfemail as [|a t]; [done|].
    assert (Hchunk : ∀ i, i < length (a :: t) →
              ∃ v, WideCleaner.int16 decimal (Wide.slice i (i + 2) (a :: t))
                   = Some v ∧ (0 ≤ v < 256)%Z).
    { intros i Hi. apply wide_int16_digits; [done | | |].
      - unfold Wide.slice. replace (i + 2 - i) with 2 by lia.
        intros Hnil. apply (f_equal length) in Hnil.
        rewrite length_take, length_drop in Hnil. cbn [length] in Hnil, Hi. lia.
      - unfold Wide.slice. rewrite length_take. lia.
      - apply Forall_forall. intros c Hc%wide_slice_sub.
        rewrite Forall_forall in Hall. by apply Hall. }
    destruct (Hchunk 0) as (n & Hn & Rn); [cbn; lia|].
    change (0 + 2) with 2 in Hn. rewrite Hn. cbn [mbind option_bind].
    assert (Hsome : is_Some
              (mapM (λ i, x ← WideCleaner.int16 decimal
                                (Wide.slice i (i + 2) (a :: t));
                          WideCleaner.chr (Z.lxor x n))
                    (Cleaner.range2 2 (length (a :: t))))).
    { rewrite mapM_is_Some, Forall_forall. intros i Hi%range2_below.
      destruct (Hchunk i) as (x & Hx & Rx); [lia|].
      cbn [compose]. rewrite Hx. cbn [mbind option_bind].
      unfold WideCleaner.chr.
      pose proof (lxor_byte x n Rx Rn).
      replace ((0 <=? Z.lxor x n)%Z && (Z.lxor x n <? 1114112)%Z) with true
        by (symmetry; apply andb_true_iff; split; lia).
      by eexists. }
    destruct Hsome as [email Hemail]. rewrite Hemail.
    apply length_mapM in Hemail. rewrite <- Hemail. apply length_range2.
Qed.

Lemma unicode_decimal_table : decimal_table unicode_decimal.
Proof.
  intros c v. unfold unicode_decimal.
  destruct (List.find _ decimal_runs) as [first|] eqn:E; [|done].
  apply find_some in E as [_ E].
  apply andb_true_iff in E as [E1%N.leb_le E2%N.ltb_lt].
  intros [= <-]. lia.
Qed.

Lemma decode_cloudflare_email_malformed_witness :
  (∃ c, c ∈ [52; 49; 122; 122]%N
        ∧ wide_literal_char unicode_decimal c = false)
  ∧ WideCleaner.decode_cloudflare_email unicode_decimal [52; 49; 122; 122]%N
    = []
  ∧ length (WideCleaner.decode_cloudflare_email unicode_decimal
              fullwidth_4142) = (4 + 1) / 2 - 1.
Proof.
  assert (H : ∃ c, c ∈ [52; 49; 122; 122]%N
                   ∧ wide_literal_char unicode_decimal c = false).
  { exists 122%N. split; [|reflexivity].
    apply list_elem_of_In. simpl. tauto. }
  split; [exact H|].
  destruct (decode_cloudflare_email_malformed unicode_decimal
              [52; 49; 122; 122]%N unicode_decimal_table)
    as (_ & _ & Hgarbage & _).
  split; [exact (Hgarbage H)|].
  destruct (decode_cloudflare_email_malformed unicode_decimal
              fullwidth_4142 unicode_decimal_table)
    as (_ & _ & _ & Hdigits).
  apply Hdigits. by repeat constructor.
Defined.

(** C4 as stated fails: "414" has odd length and is decoded to "E";
    "+a+b" holds a character that is no hex digit and is decoded to a
    one-character string; so do four fullwidth digits, none of them a hex
    digit. *)
Lemma decode_cloudflare_email_odd_length :
  Nat.odd (length [52; 49; 52]%N) = true
  ∧ WideCleaner.decode_cloudflare_email unicode_decimal [52; 49; 52]%N
    = [69%N]
  ∧ wide_is_hex 43 = false
  ∧ (43%N ∈ [43; 97; 43; 98]%N)
  ∧ WideCleaner.decode_cloudflare_email unicode_decimal [43; 97; 43; 98]%N
    = [1%N]
  ∧ Forall (λ c, wide_is_hex c = false) fullwidth_4142
  ∧ WideCleaner.decode_cloudflare_email unicode_decimal fullwidth_4142
    = [3%N].
Proof.
  split_and!; try reflexivity.
  - apply list_elem_of_In. simpl. tauto.
  - by repeat constructor.
Qed.

End Decoder.

(** ** The deduplication loop *)

Module Dedup.

Import Cleaner Spec PyFacts ReFacts.

(** *** The dedup key *)

Lemma startswith_app (a b t : str) :
  startswith (a ++ b) t = startswith a t && startswith b (drop (length a) t).
Proof.
  revert t. induction a as [|c a IH]; intros t; simpl; [done|].
  destruct t as [|x t]; [done|]. by destruct (decide (c = x)).
Qed.

Lemma drop_no_nl (n : nat) (t : str) : nl ∉ t → nl ∉ drop n t.
Proof.
  intros H Hin. apply H. rewrite <- (take_drop n t), elem_of_app. by right.
Qed.

(** The group [(https?://|/)] before a continuation that accepts every
    text without newline. *)
Lemma run_link_start {A} (k : str → option A) (a : A) (u : str) :
  (∀ v, nl ∉ v → k v = Some a) → nl ∉ u →
  Re.run link_start u k = if url_start u then Some a else None.
Proof.
  intros Hk Hu. unfold link_start, url_start, Re.cats. cbn [foldr Re.run].
  rewrite run_word_startswith.
  destruct (startswith (Py.s "http") u) eqn:E1.
  - apply startswith_spec in E1 as [u1 ->].
    assert (Hu1 : nl ∉ u1) by (by apply (drop_no_nl 4) in Hu).
    change (drop (length (Py.s "http")) (Py.s "http" ++ u1)) with u1.
    destruct u1 as [|x u2].
    { by vm_compute. }
    apply not_elem_of_cons in Hu1 as [_ Hu2].
    cbn [Re.lit Re.run]. rewrite !run_word_startswith.
    change (length (Py.s "://")) with 3.
    destruct (decide (x = "s"%char)) as [->|Hx].
    + rewrite bool_decide_eq_true_2 by done. cbn [Re.run].
      rewrite Hk by by apply drop_no_nl.
      change (startswith (Py.s "http://") (Py.s "http" ++ "s"%char :: u2))
        with false.
      change (startswith (Py.s "https://") (Py.s "http" ++ "s"%char :: u2))
        with (startswith (Py.s "://") u2).
      change (startswith (Py.s "/") (Py.s "http" ++ "s"%char :: u2)) with false.
      change (startswith (Py.s "://") ("s"%char :: u2)) with false.
      by destruct (startswith (Py.s "://") u2).
    + rewrite bool_decide_eq_false_2 by done. cbn [Re.run].
      change (startswith (Py.s "http://") (Py.s "http" ++ x :: u2))
        with (startswith (Py.s "://") (x :: u2)).
      change (startswith (Py.s "/") (Py.s "http" ++ x :: u2)) with false.
      replace (startswith (Py.s "https://") (Py.s "http" ++ x :: u2))
        with false.
      2:{ simpl. by destruct (decide ("s"%char = x)); [congruence|]. }
      rewrite orb_false_r.
      destruct (startswith (Py.s "://") (x :: u2)); [|done].
      apply not_elem_of_cons in Hu as [_ Hu]. cbn [app] in Hu.
      rewrite Hk; [done|]. apply drop_no_nl.
      intros H. apply Hu. do 3 right. done.
  - rewrite (startswith_app (Py.s "http") (Py.s "://")), E1.
    rewrite (startswith_app (Py.s "http") (Py.s "s://")), E1.
    cbn [andb orb Re.lit Re.run].
    destruct u as [|x u]; [done|].
    apply not_elem_of_cons in Hu as [_ Hu]. simpl.
    destruct (decide ("/"%char = x)) as [<-|Hx].
    + rewrite bool_decide_eq_true_2 by done. by apply Hk.
    + by rewrite bool_decide_eq_false_2 by congruence.
Qed.

Lemma run_link_start_space {A} (k : str → option A) (c : ascii) (u : str) :
  isspace c = true → Re.run link_start (c :: u) k = None.
Proof.
  intros Hc. unfold link_start, Re.cats. cbn [foldr Re.run Re.lit].
  rewrite run_word_startswith. simpl.
  destruct (decide ("h"%char = c)) as [<-|_]; [done|].
  case_bool_decide as Hs; [by subst c | done].
Qed.

Lemma match_at_url_suffix (c : ascii) (rest : str) :
  nl ∉ rest →
  Re.match_at url_suffix (c :: rest) =
    if bool_decide (c = ":"%char) && url_start (drop_while isspace rest)
    then Some (S (length rest)) else None.
Proof.
  intros Hrest. unfold Re.match_at, url_suffix, Re.cats.
  cbn [foldr]. cbn [Re.run Re.lit].
  case_bool_decide as Hc; [|done]. cbn [andb].
  rewrite star_greedy_backtrack.
  2:{ intros x u Hx. unfold Re.cls_s in Hx. by apply run_link_start_space. }
  apply (run_link_start _ (S (length rest))).
  - intros v Hv.
    change (Re.star_lazy Re.cls_dot
              (λ u, Re.run Re.Eos u
                      (λ r, Some (length (c :: rest) - length r))) v
            = Some (S (length rest))).
    rewrite star_lazy_to_end by done. simpl. f_equal.
  - destruct (drop_while_suffix isspace rest) as [pre Hpre].
    intros H. apply Hrest. rewrite Hpre, elem_of_app. by right.
Qed.

Lemma sub_url_suffix (line : str) :
  nl ∉ line → Re.sub url_suffix [] line = cut_link line.
Proof.
  unfold Re.sub. induction line as [|c rest IH]; [done|].
  intros [_ Hrest]%not_elem_of_cons.
  rewrite sub_go_cons, match_at_url_suffix by done. cbn [cut_link].
  destruct (bool_decide (c = ":"%char) && url_start (drop_while isspace rest)).
  - by rewrite drop_all.
  - by rewrite IH.
Qed.

(** On a line, the key the code computes is the line without its
    trailing link, stripped and lowercased. *)
Lemma normalized_key_dedup_key (line : str) :
  nl ∉ line → normalized_key line = dedup_key line.
Proof.
  intros H. unfold normalized_key, dedup_key. by rewrite sub_url_suffix.
Qed.

(** *** The loop as a recursion *)

Lemma foldl_dedup_step (raw : list str) (st : dedup_state) :
  dedup_lines (foldl dedup_step st raw) =
    dedup_lines st
    ++ keep_first (seen st)
         (List.filter (λ l, negb (bool_decide (l = []))) (map strip raw)).
Proof.
  revert st. induction raw as [|r raw IH]; intros st; simpl.
  - by rewrite app_nil_r.
  - rewrite IH. unfold dedup_step.
    destruct (bool_decide (strip r = [])); simpl; [done|].
    destruct (bool_decide (normalized_key (strip r) ∈ seen st)); simpl; [done|].
    by rewrite <- app_assoc.
Qed.

Lemma dedup_keep_first (texto : str) :
  dedup texto = keep_first ∅ (text_lines texto).
Proof. unfold dedup. by rewrite foldl_dedup_step. Qed.

(** *** What the loop retains *)

Lemma keep_first_fresh (seen : gset str) (lines : list str) (l : str) :
  l ∈ keep_first seen lines → normalized_key l ∉ seen.
Proof.
  revert seen. induction lines as [|x lines IH]; intros seen; simpl.
  - intros H. by apply elem_of_nil in H.
  - case_bool_decide as Hx; [apply IH|].
    intros [->|H]%elem_of_cons; [done|].
    apply IH in H. set_solver.
Qed.

Lemma keep_first_NoDup (seen : gset str) (lines : list str) :
  NoDup (map normalized_key (keep_first seen lines)).
Proof.
  revert seen. induction lines as [|x lines IH]; intros seen; simpl.
  - constructor.
  - case_bool_decide as Hx; [apply IH|].
    simpl. constructor; [|apply IH].
    intros (l & Hl & Hin)%list_elem_of_fmap.
    apply keep_first_fresh in Hin. set_solver.
Qed.

Lemma keep_first_sublist (seen : gset str) (lines : list str) :
  keep_first seen lines `sublist_of` lines.
Proof.
  revert seen. induction lines as [|x lines IH]; intros seen; simpl.
  - constructor.
  - case_bool_decide; [apply sublist_cons | apply sublist_skip]; apply IH.
Qed.

(** Every key met is the key of a retained line. *)
Lemma keep_first_covers (seen : gset str) (lines : list str) (l : str) :
  l ∈ lines →
  normalized_key l ∈ seen
  ∨ ∃ first, first ∈ keep_first seen lines
             ∧ normalized_key first = normalized_key l.
Proof.
  revert seen. induction lines as [|x lines IH]; intros seen; simpl.
  - intros H. by apply elem_of_nil in H.
  - intros [->|H]%elem_of_cons.
    + case_bool_decide as Hx; [by left|].
      right. exists x. split; [left | done].
    + case_bool_decide as Hx.
      * apply IH, H.
      * destruct (IH ({[normalized_key x]} ∪ seen) H) as [Hk|(f & Hf & Hkf)].
        -- apply elem_of_union in Hk as [Hk%elem_of_singleton|Hk]; [|by left].
           right. exists x. split; [left | done].
        -- right. exists f. split; [by right | done].
Qed.

(** A retained line stands where its key is met first. *)
Lemma keep_first_first (seen : gset str) (lines : list str) (first : str) :
  first ∈ keep_first seen lines →
  ∃ pre post, lines = pre ++ first :: post
              ∧ ∀ l, l ∈ pre → normalized_key l ≠ normalized_key first.
Proof.
  revert seen. induction lines as [|x lines IH]; intros seen; simpl.
  - intros H. by apply elem_of_nil in H.
  - case_bool_decide as Hx.
    + intros H. pose proof (keep_first_fresh _ _ _ H) as Hfresh.
      destruct (IH _ H) as (pre & post & -> & Hpre).
      exists (x :: pre), post. split; [done|].
      intros l [->|Hl]%elem_of_cons; [congruence | by apply Hpre].
    + intros [->|H]%elem_of_cons.
      * exists [], lines. split; [done|]. intros l Hl. by apply elem_of_nil in Hl.
      * pose proof (keep_first_fresh _ _ _ H) as Hfresh.
        destruct (IH _ H) as (pre & post & -> & Hpre).
        exists (x :: pre), post. split; [done|].
        intros l [->|Hl]%elem_of_cons; [set_solver | by apply Hpre].
Qed.

(** Lines with keys of their own are all retained. *)
Lemma keep_first_id (seen : gset str) (lines : list str) :
  NoDup (map normalized_key lines) →
  (∀ l, l ∈ lines → normalized_key l ∉ seen) →
  keep_first seen lines = lines.
Proof.
  revert seen. induction lines as [|x lines IH]; intros seen; simpl; [done|].
  intros [Hx Hnd]%NoDup_cons Hseen.
  rewrite bool_decide_eq_false_2 by (apply Hseen; left).
  f_equal. apply IH; [done|].
  intros l Hl. apply not_elem_of_union. split; [|apply Hseen; by right].
  intros Hk%elem_of_singleton. apply Hx. rewrite <- Hk.
  apply list_elem_of_fmap. by exists l.
Qed.

(** *** Collapsed blanks *)

Lemma collapsed_app_r (a b : str) :
  collapsed (a ++ b) = true → collapsed b = true.
Proof.
  induction a as [|c a IH]; simpl; [done|].
  intros [_ H]%andb_true_iff. by apply IH.
Qed.

Lemma collapsed_app_l (a b : str) :
  collapsed (a ++ b) = true → collapsed a = true.
Proof.
  induction a as [|c a IH]; simpl; [done|].
  intros [H1 H2]%andb_true_iff. apply andb_true_iff. split; [|by apply IH].
  destruct (blank c); [|done]. destruct a as [|d a]; simpl in *; [|done].
  apply andb_true_iff in H1 as [-> _]. done.
Qed.

Lemma collapsed_factor (pre l post : str) :
  collapsed (pre ++ l ++ post) = true → collapsed l = true.
Proof. intros H%collapsed_app_r. by apply collapsed_app_l in H. Qed.

Lemma collapsed_app_nl (a b : str) :
  collapsed a = true → collapsed b = true → collapsed (a ++ nl :: b) = true.
Proof.
  intros Ha Hb. induction a as [|c a IH]; simpl in *; [done|].
  apply andb_true_iff in Ha as [H1 H2].
  apply andb_true_iff. split; [|by apply IH].
  destruct (blank c); [|done]. by destruct a.
Qed.

Lemma collapsed_join (ls : list str) :
  Forall (λ l, collapsed l = true) ls → collapsed (join [nl] ls) = true.
Proof.
  induction ls as [|l ls IH]; [done|].
  intros [Hl Hls]%Forall_cons. destruct ls as [|l' ls]; [done|].
  change (join [nl] (l :: l' :: ls)) with (l ++ nl :: join [nl] (l' :: ls)).
  apply collapsed_app_nl; [done | by apply IH].
Qed.

(** [re.sub(r"[ \t]+", " ", t)], unfolded at the head of [t]. *)
Lemma sub_blanks_cons (c : ascii) (t : str) :
  Re.sub blanks (Py.s " ") (c :: t) =
    if blank c then " "%char :: Re.sub blanks (Py.s " ") (drop_while blank t)
    else c :: Re.sub blanks (Py.s " ") t.
Proof.
  unfold Re.sub. rewrite sub_go_cons. unfold blanks.
  rewrite match_at_Plus.
  change (bool_decide (c = " "%char) || bool_decide (c = "009"%char))
    with (blank c).
  destruct (blank c); [|done].
  destruct (drop_while_suffix blank t) as [pre Hpre].
  simpl. do 2 f_equal.
  change (drop_while _ t) with (drop_while blank t).
  revert Hpre. generalize (drop_while blank t). intros u ->.
  rewrite length_app.
  replace (length pre + length u - length u) with (length pre) by lia.
  apply drop_app_length.
Qed.

Lemma sub_blanks_head (t : str) :
  match t with d :: _ => blank d = false | [] => True end →
  match Re.sub blanks (Py.s " ") t with
  | d :: _ => blank d = false
  | [] => True
  end.
Proof.
  destruct t as [|d t]; [done|]. intros Hd.
  by rewrite sub_blanks_cons, Hd.
Qed.

Lemma sub_blanks_collapsed (t : str) :
  collapsed (Re.sub blanks (Py.s " ") t) = true.
Proof.
  remember (length t) as n eqn:Hn. revert t Hn.
  induction n as [n IH] using lt_wf_ind. intros [|c t] Hn; [done|].
  simpl in Hn. rewrite sub_blanks_cons.
  destruct (blank c) eqn:Ec.
  - destruct (drop_while_suffix blank t) as [pre Hpre].
    apply (f_equal length) in Hpre. rewrite length_app in Hpre.
    cbn [collapsed]. apply andb_true_iff. split.
    + change (blank " "%char) with true. cbn [bool_decide andb].
      pose proof (sub_blanks_head (drop_while blank t)) as Hh.
      destruct (Re.sub blanks (Py.s " ") (drop_while blank t)) as [|d r];
        [done|].
      rewrite Hh; [done|].
      destruct (drop_while blank t) as [|e u] eqn:E; [done|].
      by apply drop_while_head in E.
    + apply (IH (length (drop_while blank t))); [lia | done].
  - cbn [collapsed]. rewrite Ec. apply (IH (length t)); [lia | done].
Qed.

Lemma sub_blanks_fixed (t : str) :
  collapsed t = true → Re.sub blanks (Py.s " ") t = t.
Proof.
  induction t as [|c t IH]; [done|].
  cbn [collapsed]. intros [H1 H2]%andb_true_iff.
  rewrite sub_blanks_cons. destruct (blank c).
  - apply andb_true_iff in H1 as [->%bool_decide_eq_true H1].
    rewrite drop_while_id, IH; [done..|].
    destruct t as [|d t]; [done|]. by apply negb_true_iff in H1.
  - by rewrite IH.
Qed.

(** *** Blank lines *)

Lemma match_at_blank_lines (t : str) :
  match t with
  | c :: d :: _ => c = nl → isspace d = false
  | _ => True
  end →
  Re.match_at blank_lines t = None.
Proof.
  unfold Re.match_at, blank_lines, Re.cats, Re.lit. simpl.
  destruct t as [|c [|d t]]; [done| |].
  - intros _. by case_bool_decide.
  - intros H. case_bool_decide as Hc; [|done].
    specialize (H Hc). simpl. unfold Re.cls_s. rewrite H.
    case_bool_decide as Hd; [|done]. by rewrite Hd in H.
Qed.

Lemma sub_blank_lines_fixed (t : str) :
  no_blank_line t = true → Re.sub blank_lines [nl] t = t.
Proof.
  unfold Re.sub. induction t as [|c t IH]; [done|].
  cbn [no_blank_line]. intros [H1 H2]%andb_true_iff.
  cbn [Re.sub_go]. rewrite match_at_blank_lines.
  - by rewrite IH.
  - destruct t as [|d t]; [done|]. intros ->.
    rewrite bool_decide_eq_true_2 in H1 by done.
    by apply negb_true_iff in H1.
Qed.

Lemma no_blank_line_no_nl (t : str) : nl ∉ t → no_blank_line t = true.
Proof.
  induction t as [|c t IH]; [done|].
  intros [Hc Ht]%not_elem_of_cons. cbn [no_blank_line].
  rewrite bool_decide_eq_false_2 by done. by apply IH.
Qed.

Lemma no_blank_line_app_nl (a b : str) :
  nl ∉ a →
  match b with d :: _ => isspace d = false | [] => True end →
  no_blank_line b = true → no_blank_line (a ++ nl :: b) = true.
Proof.
  intros Ha Hd Hb. induction a as [|c a IH].
  - simpl. rewrite Hb, andb_true_r. destruct b as [|d b]; [done|].
    by rewrite Hd.
  - apply not_elem_of_cons in Ha as [Hc Ha].
    cbn [app no_blank_line]. rewrite bool_decide_eq_false_2 by done.
    by apply IH.
Qed.

(** *** Clean lines *)

Lemma join_head (l : str) (ls : list str) :
  l ≠ [] → ∃ c r r', l = c :: r ∧ join [nl] (l :: ls) = c :: r'.
Proof.
  destruct l as [|c r]; [done|]. intros _.
  destruct ls as [|l' ls]; [by exists c, r, r|].
  exists c, r, (r ++ nl :: join [nl] (l' :: ls)). done.
Qed.

Lemma no_blank_line_join (ls : list str) :
  Forall clean_line ls → no_blank_line (join [nl] ls) = true.
Proof.
  induction ls as [|l ls IH]; [done|].
  intros [Hl Hls]%Forall_cons. destruct Hl as (Hne & Hstrip & Hnl & _).
  destruct ls as [|l' ls]; [by apply no_blank_line_no_nl|].
  change (join [nl] (l :: l' :: ls)) with (l ++ nl :: join [nl] (l' :: ls)).
  apply no_blank_line_app_nl; [done | | by apply IH].
  pose proof Hls as [(Hne' & Hstrip' & _) _]%Forall_cons.
  destruct (join_head l' ls Hne') as (c & r & r' & Hl' & ->).
  by apply (strip_head l' c r).
Qed.

Lemma join_elem (sep : str) (ls : list str) (x : ascii) :
  x ∈ join sep ls → x ∈ sep ∨ ∃ l, l ∈ ls ∧ x ∈ l.
Proof.
  induction ls as [|l ls IH]; simpl.
  - intros H. by apply elem_of_nil in H.
  - destruct ls as [|l' ls].
    + intros H. right. exists l. split; [left | done].
    + rewrite !elem_of_app. intros [H|[H|H]].
      * right. exists l. split; [left | done].
      * by left.
      * destruct (IH H) as [?|(l0 & H1 & H2)]; [by left|].
        right. exists l0. split; [by right | done].
Qed.

Lemma replace_char_absent (a b : ascii) (t : str) :
  a ∉ t → replace_char a b t = t.
Proof.
  unfold replace_char. induction t as [|c t IH]; [done|].
  intros [Hc Ht]%not_elem_of_cons. simpl.
  destruct (decide (c = a)); [congruence|]. by rewrite IH.
Qed.

Lemma replace_char_gone (a b : ascii) (t : str) :
  a ≠ b → a ∉ replace_char a b t.
Proof.
  intros Hab (c & Hc & _)%list_elem_of_fmap.
  destruct (decide (c = a)); congruence.
Qed.

(** Steps 5 and 6 leave a text of clean lines as it is. *)
Lemma normalize_join (ls : list str) :
  Forall clean_line ls → normalize (join [nl] ls) = join [nl] ls.
Proof.
  intros Hls. unfold normalize.
  rewrite replace_char_absent.
  - rewrite sub_blank_lines_fixed by by apply no_blank_line_join.
    apply sub_blanks_fixed, collapsed_join.
    eapply Forall_impl; [exact Hls|]. by intros l (_ & _ & _ & _ & H).
  - intros [H|(l & Hl & Hx)]%join_elem.
    + by apply list_elem_of_singleton in H.
    + rewrite Forall_forall in Hls. by destruct (Hls l Hl) as (_ & _ & _ & H & _).
Qed.

Lemma text_lines_join (ls : list str) :
  Forall clean_line ls → text_lines (join [nl] ls) = ls.
Proof.
  intros Hls. unfold text_lines. destruct ls as [|l0 ls0]; [done|].
  rewrite split_join; [|done|].
  2:{ eapply Forall_impl; [exact Hls|]. by intros l (_ & _ & H & _). }
  induction Hls as [|l ls (Hne & Hstrip & _) Hls IH]; [done|].
  cbn [map List.filter]. rewrite Hstrip, bool_decide_eq_false_2 by done.
  simpl. by rewrite IH.
Qed.

Lemma normalize_no_nbsp (texto : str) : nbsp ∉ normalize texto.
Proof.
  unfold normalize, Re.sub.
  intros [[H|H]%sub_go_chars|H]%sub_go_chars.
  - by apply replace_char_gone in H.
  - by apply list_elem_of_singleton in H.
  - by apply list_elem_of_singleton in H.
Qed.

(** The lines the loop sees after step 5 are clean. *)
Lemma text_lines_clean (texto : str) :
  Forall clean_line (text_lines (normalize texto)).
Proof.
  apply Forall_forall. intros l Hl. unfold text_lines in Hl.
  apply list_elem_of_In, filter_In in Hl as [Hl Hne].
  apply list_elem_of_In, list_elem_of_fmap in Hl as (l0 & -> & Hl0).
  apply split_pieces in Hl0 as [Hnl (pre & post & Hl0)].
  destruct (strip_factor l0) as (pre' & post' & Hs).
  assert (Hsub : ∀ x, x ∈ strip l0 → x ∈ l0).
  { intros x Hx. rewrite Hs, !elem_of_app. auto. }
  split_and!.
  - intros E. by rewrite E in Hne.
  - apply strip_idem.
  - intros H. by apply Hnl, Hsub.
  - intros H. apply (normalize_no_nbsp texto).
    rewrite Hl0, !elem_of_app. right; left. by apply Hsub.
  - apply (collapsed_factor pre' _ post'). rewrite <- Hs.
    apply (collapsed_factor pre _ post). rewrite <- Hl0.
    apply sub_blanks_collapsed.
Qed.

Lemma sublist_Forall {A} (P : A → Prop) (l1 l2 : list A) :
  l1 `sublist_of` l2 → Forall P l2 → Forall P l1.
Proof.
  rewrite !Forall_forall. intros Hsub H x Hx.
  by eapply H, elem_of_sublist.
Qed.

(** The text [clean_html] returns, line by line. *)
Lemma normalize_dedup_lines (texto : str) :
  text_lines (normalize_dedup texto)
  = keep_first ∅ (text_lines (normalize texto)).
Proof.
  unfold normalize_dedup. rewrite dedup_keep_first.
  apply text_lines_join.
  eapply sublist_Forall; [apply keep_first_sublist | apply text_lines_clean].
Qed.

(** *** The claims *)

(** C1: in the text [clean_html] returns no two lines have the same dedup
    key; the lines are lines the loop saw, in the order and with the text
    it saw them; every key the loop met is the key of a retained line, and
    a retained line stands where its key was met first.  The key of a line
    is the line without its trailing link (from the first colon followed,
    after any whitespace, by http://, https:// or /), stripped and
    lowercased.  The lines "Contact us: https://a.com/x" and "Contact us:
    /y" have the key "contact us" and the first of them is retained. *)
Theorem clean_html_dedup :
  (∀ html : Soup.document,
     let seen_lines := text_lines (normalize (extracted_text html)) in
     let out_lines := text_lines (clean_html html) in
     clean_html html = join [nl] out_lines
     ∧ NoDup (map normalized_key out_lines)
     ∧ out_lines `sublist_of` seen_lines
     ∧ (∀ l, l ∈ seen_lines →
        ∃ first, first ∈ out_lines ∧ normalized_key first = normalized_key l)
     ∧ (∀ first, first ∈ out_lines →
        ∃ pre post,
          seen_lines = pre ++ first :: post
          ∧ ∀ l, l ∈ pre → normalized_key l ≠ normalized_key first)
     ∧ (∀ l, l ∈ seen_lines → normalized_key l = dedup_key l))
  ∧ normalized_key (Py.s "Contact us: https://a.com/x") = Py.s "contact us"
  ∧ normalized_key (Py.s "Contact us: /y") = Py.s "contact us"
  ∧ normalize_dedup
      (Py.s "Contact us: https://a.com/x" ++ [nl] ++ Py.s "Contact us: /y")
    = Py.s "Contact us: https://a.com/x"
  ∧ extracted_text two_contact_links
    = Py.s "Contact us: https://a.com/x" ++ [nl] ++ Py.s "Contact us: /y"
  ∧ clean_html two_contact_links = Py.s "Contact us: https://a.com/x".
Proof.
  split; [|by vm_compute].
  intros html seen_lines out_lines. subst seen_lines out_lines.
  unfold clean_html. rewrite normalize_dedup_lines.
  split_and!.
  - unfold normalize_dedup. by rewrite dedup_keep_first.
  - apply keep_first_NoDup.
  - apply keep_first_sublist.
  - intros l Hl. destruct (keep_first_covers ∅ _ l Hl) as [H|H]; [|done].
    by apply elem_of_empty in H.
  - apply keep_first_first.
  - intros l Hl. apply normalized_key_dedup_key.
    pose proof (text_lines_clean (extracted_text html)) as Hclean.
    rewrite Forall_forall in Hclean.
    by destruct (Hclean l Hl) as (_ & _ & H & _).
Qed.

Lemma clean_html_dedup_witness :
  Py.s "Contact us: /y"
    ∈ text_lines (normalize (extracted_text two_contact_links))
  ∧ ∃ first, first ∈ text_lines (clean_html two_contact_links)
             ∧ normalized_key first = normalized_key (Py.s "Contact us: /y").
Proof.
  assert (H : Py.s "Contact us: /y"
                ∈ text_lines (normalize (extracted_text two_contact_links))).
  { apply list_elem_of_In. vm_compute. tauto. }
  split; [exact H|].
  destruct (proj1 clean_html_dedup two_contact_links)
    as (_ & _ & _ & Hcovers & _).
  exact (Hcovers _ H).
Defined.

Lemma normalize_dedup_fixed (ls : list str) :
  Forall clean_line ls → NoDup (map normalized_key ls) →
  normalize_dedup (join [nl] ls) = join [nl] ls.
Proof.
  intros Hls Hnd. unfold normalize_dedup.
  rewrite dedup_keep_first, normalize_join, text_lines_join by done.
  rewrite keep_first_id; [done | done |].
  intros l _. apply not_elem_of_empty.
Qed.

(** C2, as the code has it: steps 5 and 6 of [clean_html], which take the
    joined text to the returned one, are idempotent; and when no two of
    the lines of a text, after the whitespace normalization, have the same
    dedup key, they return these lines joined by newlines. *)
Theorem normalize_dedup_idempotent (texto : str) :
  normalize_dedup (normalize_dedup texto) = normalize_dedup texto
  ∧ (NoDup (map normalized_key (text_lines (normalize texto))) →
     normalize_dedup texto = join [nl] (text_lines (normalize texto))).
Proof.
  split.
  - unfold normalize_dedup at 2 3. rewrite dedup_keep_first.
    apply normalize_dedup_fixed; [|apply keep_first_NoDup].
    eapply sublist_Forall; [apply keep_first_sublist | apply text_lines_clean].
  - intros Hnd. unfold normalize_dedup. rewrite dedup_keep_first.
    rewrite keep_first_id; [done | done |].
    intros l _. apply not_elem_of_empty.
Qed.

Lemma normalize_dedup_idempotent_witness :
  let texto := Py.s "  About   us " ++ [nl; nl] ++ Py.s "Contact: /c" in
  NoDup (map normalized_key (text_lines (normalize texto)))
  ∧ normalize_dedup texto = Py.s "About us" ++ [nl] ++ Py.s "Contact: /c".
Proof.
  intros texto.
  assert (H : NoDup (map normalized_key (text_lines (normalize texto)))).
  { vm_compute. repeat constructor; rewrite ?elem_of_cons, ?elem_of_nil;
      intros H; intuition discriminate. }
  split; [exact H|].
  rewrite (proj2 (normalize_dedup_idempotent texto) H). reflexivity.
Defined.

(** C2 as stated fails for [clean_html]: of the page [<p>hello</p>] it
    returns "hello"; of that text, which has no markup and no duplicate
    line, it returns the empty string. *)
Lemma clean_html_not_idempotent :
  clean_html hello_page = Py.s "hello"
  ∧ clean_html (Soup.of_text (clean_html hello_page)) = []
  ∧ clean_html (Soup.of_text (clean_html hello_page)) ≠ clean_html hello_page
  ∧ text_lines (normalize (Py.s "hello")) = [Py.s "hello"]
  ∧ NoDup (map normalized_key (text_lines (normalize (Py.s "hello"))))
  ∧ text_lines (clean_html (Soup.of_text (Py.s "hello"))) = [].
Proof.
  assert (H1 : clean_html hello_page = Py.s "hello") by (by vm_compute).
  assert (H2 : clean_html (Soup.of_text (Py.s "hello")) = [])
    by (by vm_compute).
  rewrite H1, H2. split_and!; [done | done | done | by vm_compute | | done].
  vm_compute. repeat constructor. apply not_elem_of_nil.
Qed.

End Dedup.

(** ** Framework detection *)

Module Framework.

Import Soup Fetcher Spec PyFacts ReFacts.

Lemma existsb_filter_nil {A} (f : A → bool) (l : list A) :
  existsb f l = false ↔ List.filter f l = [].
Proof.
  induction l as [|x l IH]; simpl; [done|].
  destruct (f x); simpl; [done | exact IH].
Qed.

Lemma is_spa_like_frameworks (html : document) :
  is_spa_like (detect_framework html) = false
  ↔ frameworks_detected (detect_framework html) = [].
Proof.
  unfold detect_framework. cbn [is_spa_like frameworks_detected].
  rewrite existsb_filter_nil. split.
  - by intros ->.
  - intros H. by apply fmap_nil_inv in H.
Qed.

(** *** The tags below the body are tags of the document *)

Lemma node_induction (P : node → Prop) :
  (∀ name attrs cs, Forall P cs → P (Tag name attrs cs)) →
  (∀ t, P (NavigableString t)) → (∀ t, P (Comment t)) →
  (∀ t, P (OtherString t)) → ∀ n, P n.
Proof.
  intros HT HS HC HO. fix IH 1. intros [name attrs cs | t | t | t].
  - apply HT. induction cs as [|c cs IHcs]; constructor; [apply IH | apply IHcs].
  - apply HS.
  - apply HC.
  - apply HO.
Qed.

Lemma all_nodes_together_list (roots : list node) :
  Forall (λ n, below_together (descendants n)) roots →
  below_together (all_nodes roots).
Proof.
  induction roots as [|c roots IH]; intros Hall name attrs cs Hin.
  - by apply elem_of_nil in Hin.
  - apply Forall_cons in Hall as [Hc Hroots].
    change (all_nodes (c :: roots))
      with ((c :: descendants c) ++ all_nodes roots) in *.
    apply elem_of_app in Hin as [[Hin|Hin]%elem_of_cons|Hin].
    + subst c. exists [Tag name attrs cs], (all_nodes roots). reflexivity.
    + destruct (Hc _ _ _ Hin) as (pre & post & ->).
      exists (c :: pre), (post ++ all_nodes roots).
      simpl. by rewrite <- !app_assoc.
    + destruct (IH Hroots _ _ _ Hin) as (pre & post & ->).
      exists ((c :: descendants c) ++ pre), post. by rewrite <- app_assoc.
Qed.

Lemma descendants_together (n : node) : below_together (descendants n).
Proof.
  induction n as [name attrs cs IH | t | t | t] using node_induction.
  - by apply all_nodes_together_list.
  - intros ? ? ? H. by apply elem_of_nil in H.
  - intros ? ? ? H. by apply elem_of_nil in H.
  - intros ? ? ? H. by apply elem_of_nil in H.
Qed.

Lemma all_nodes_together (roots : list node) : below_together (all_nodes roots).
Proof.
  apply all_nodes_together_list, Forall_forall.
  intros n _. apply descendants_together.
Qed.

Lemma meaningful_tags_le (roots : list node) :
  meaningful_tags roots ≤ document_tags roots.
Proof.
  unfold meaningful_tags, document_tags.
  destruct (find_all [Py.s "body"] roots) as [|[name attrs cs| | |] rest] eqn:E;
    [lia | | lia | lia | lia].
  assert (Hin : Tag name attrs cs ∈ all_nodes roots).
  { apply list_elem_of_In.
    apply (proj1 (filter_In (is_tag [Py.s "body"]) _ (all_nodes roots))).
    fold (find_all [Py.s "body"] roots). rewrite E. by left. }
  destruct (all_nodes_together roots _ _ _ Hin) as (pre & post & H).
  unfold find_all. rewrite H, !List.filter_app, !length_app. lia.
Qed.

(** *** What the code counts *)

Lemma count_forest (names : list str) (cs : list node) :
  Forall (λ c, length (List.filter (is_tag names) (c :: descendants c))
               = count_tags names c) cs →
  length (List.filter (is_tag names) (all_nodes cs)) = count_tags_in names cs.
Proof.
  induction 1 as [|c cs Hc _ IH]; [done|].
  change (all_nodes (c :: cs)) with ((c :: descendants c) ++ all_nodes cs).
  rewrite List.filter_app, length_app, Hc, IH. done.
Qed.

(** The tags [find_all] finds are those of the tree, counted node by
    node. *)
Lemma count_node (names : list str) (n : node) :
  length (List.filter (is_tag names) (n :: descendants n))
  = count_tags names n.
Proof.
  induction n as [name attrs cs IH | t | t | t] using node_induction;
    [|done..].
  cbn [List.filter is_tag count_tags].
  change (descendants (Tag name attrs cs)) with (all_nodes cs).
  pose proof (count_forest names cs IH) as Hcs. fold (count_tags_in names cs).
  case_bool_decide; cbn [length]; lia.
Qed.

Lemma find_all_count (names : list str) (roots : list node) :
  length (find_all names roots) = count_tags_in names roots.
Proof.
  apply count_forest, Forall_forall. intros c _. apply count_node.
Qed.

Lemma head_filter_app {A} (f : A → bool) (a b : list A) :
  head (List.filter f (a ++ b))
  = match head (List.filter f a) with
    | Some x => Some x
    | None => head (List.filter f b)
    end.
Proof.
  induction a as [|x a IH]; [done|]. cbn [app List.filter].
  by destruct (f x).
Qed.

Lemma first_forest (name : str) (cs : list node) :
  Forall (λ c, head (List.filter (is_tag [name]) (c :: descendants c))
               = first_tag name c) cs →
  head (List.filter (is_tag [name]) (all_nodes cs)) = first_tag_in name cs.
Proof.
  induction 1 as [|c cs Hc _ IH]; [done|].
  change (all_nodes (c :: cs)) with ((c :: descendants c) ++ all_nodes cs).
  rewrite head_filter_app, Hc, IH. done.
Qed.

(** The first tag [find_all] finds is the first of the tree in document
    order. *)
Lemma first_node (name : str) (n : node) :
  head (List.filter (is_tag [name]) (n :: descendants n)) = first_tag name n.
Proof.
  induction n as [nm attrs cs IH | t | t | t] using node_induction;
    [|done..].
  cbn [List.filter is_tag first_tag].
  change (descendants (Tag nm attrs cs)) with (all_nodes cs).
  pose proof (first_forest name cs IH) as Hcs. unfold first_tag_in in Hcs.
  case_bool_decide as Hin; case_bool_decide as Heq.
  - done.
  - by apply list_elem_of_singleton in Hin.
  - destruct Hin. by apply list_elem_of_singleton.
  - exact Hcs.
Qed.

Lemma find_all_first (name : str) (roots : list node) :
  head (find_all [name] roots) = first_tag_in name roots.
Proof.
  apply first_forest, Forall_forall. intros c _. apply first_node.
Qed.

(** The count of the code is the number of h1, h2, h3, p and li tags
    below the first body tag. *)
Lemma meaningful_tags_below_body (roots : list node) :
  meaningful_tags roots = tags_below_body roots.
Proof.
  unfold meaningful_tags, tags_below_body.
  rewrite <- find_all_first.
  destruct (find_all [Py.s "body"] roots) as [|[name attrs cs| | |] rest];
    [done | | done..].
  cbn [head]. apply find_all_count.
Qed.

Lemma document_tags_count (roots : list node) :
  document_tags roots
  = count_tags_in (map Py.s ["p"; "h1"; "h2"; "h3"; "li"]) roots.
Proof. apply find_all_count. Qed.

(** C7, as the code has it: a page is reported as traditional HTML exactly
    when no framework is detected and more than 5 tags among h1, h2, h3, p
    and li stand below the first body tag of the tree, at any depth (none
    in a tree without a body tag).  The tags are counted here on the tree
    itself: [tags_below_body] walks it from the first body tag in document
    order.  They are tags of the document, so a page reported as
    traditional HTML holds more than 5 such tags; the converse fails for
    tags outside a body tag. *)
Theorem is_html_traditional_iff (html : document) :
  (is_html_traditional (detect_framework html) = true
   ↔ frameworks_detected (detect_framework html) = []
     ∧ 5 < tags_below_body (soup html))
  ∧ tags_below_body (soup html)
    ≤ count_tags_in (map Py.s ["p"; "h1"; "h2"; "h3"; "li"]) (soup html)
  ∧ document_tags (soup html)
    = count_tags_in (map Py.s ["p"; "h1"; "h2"; "h3"; "li"]) (soup html).
Proof.
  split_and!.
  - rewrite <- is_spa_like_frameworks, <- meaningful_tags_below_body.
    unfold detect_framework. cbn [is_spa_like is_html_traditional].
    rewrite andb_true_iff, negb_true_iff, Nat.ltb_lt. done.
  - rewrite <- meaningful_tags_below_body, <- document_tags_count.
    apply meaningful_tags_le.
  - apply document_tags_count.
Qed.

(** C7 as stated fails: six paragraphs without a body tag are more than 5
    tags of the document, no framework is detected, and the page is not
    reported as traditional HTML.  The same six paragraphs in a body tag
    are reported as traditional HTML. *)
Lemma six_paragraphs_not_traditional :
  frameworks_detected (detect_framework six_paragraphs) = []
  ∧ document_tags (soup six_paragraphs) = 6
  ∧ count_tags_in (map Py.s ["p"; "h1"; "h2"; "h3"; "li"])
      (soup six_paragraphs) = 6
  ∧ tags_below_body (soup six_paragraphs) = 0
  ∧ meaningful_tags (soup six_paragraphs) = 0
  ∧ is_html_traditional (detect_framework six_paragraphs) = false
  ∧ tags_below_body (soup six_paragraphs_in_body) = 6
  ∧ is_html_traditional (detect_framework six_paragraphs_in_body) = true.
Proof. by vm_compute. Qed.

(** *** The root division *)

Lemma div_root_matches (mid post : str) (q1 q2 : ascii) :
  mid ≠ [] → (">"%char ∉ mid) → is_quote q1 → is_quote q2 →
  is_Some (Re.match_at div_root
             (Py.s "<div" ++ mid ++ Py.s "id=" ++ [q1] ++ Py.s "root"
              ++ [q2] ++ post)).
Proof.
  intros Hmid Hgt Hq1 Hq2. unfold Re.match_at, div_root, Re.cats, Re.Plus.
  cbn [foldr]. cbn [Re.run]. rewrite run_word.
  destruct mid as [|m mid]; [done|].
  apply not_elem_of_cons in Hgt as [Hm Hgt].
  cbn [app]. unfold Re.none_of at 1.
  rewrite (bool_decide_eq_false_2 (m ∈ Py.s ">")).
  2:{ intros H. by apply list_elem_of_singleton in H. }
  cbn [negb]. apply star_greedy_complete.
  - apply Forall_forall. intros c Hc. unfold Re.none_of.
    rewrite bool_decide_eq_false_2; [done|].
    intros H. apply list_elem_of_singleton in H. congruence.
  - rewrite run_word. cbn [app Re.run].
    assert (Hq : ∀ q, is_quote q →
              bool_decide (q = dq) || bool_decide (q = "'"%char) = true).
    { intros q [->| ->]; done. }
    rewrite (Hq q1 Hq1), run_word. cbn [app Re.run].
    rewrite (Hq q2 Hq2). by eexists.
Qed.




End Framework.

(** ** The locator *)

Module Locator.

Import TextUtils Spec PyFacts ReFacts.

Lemma pattern_digits (target ds : str) :
  ds ≠ [] → pattern target ds = digits_pattern ds.
Proof. intros H. unfold pattern. by rewrite bool_decide_eq_false_2. Qed.

(** On the digits themselves the pattern runs up to the last digit and
    then on through the characters that follow, as long as they are no
    digits. *)
Lemma run_digits_pattern {A} (ds t : str) (k : str → option A) :
  ds ≠ [] → Forall (λ c, isdecimal c = true) ds →
  Re.run (digits_pattern ds) (ds ++ t) k = Re.star_greedy Re.cls_D k t.
Proof.
  intros Hne Hds. induction Hds as [|d ds Hd Hds IH]; [done|].
  unfold digits_pattern, Re.cats. cbn [flat_map app foldr Re.run Re.lit_i].
  rewrite bool_decide_eq_true_2 by done.
  destruct ds as [|d' ds]; [done|].
  apply Forall_cons in Hds as [Hd' Hds].
  cbn [app Re.star_greedy]. unfold Re.cls_D at 1. rewrite Hd'. cbn [negb].
  by apply IH.
Qed.

Lemma match_takes_trailer (ds trailer : str) :
  ds ≠ [] → Forall (λ c, isdecimal c = true) ds →
  Forall (λ c, isdecimal c = false) trailer →
  Re.match_at (digits_pattern ds) (ds ++ trailer)
  = Some (length ds + length trailer).
Proof.
  intros Hne Hds Htr. unfold Re.match_at.
  rewrite run_digits_pattern by done.
  rewrite star_greedy_total by eauto.
  replace (drop_while Re.cls_D trailer) with (@nil ascii).
  - f_equal. rewrite length_app. simpl. lia.
  - induction Htr as [|c tr Hc Htr IH]; [done|].
    simpl. unfold Re.cls_D at 1. by rewrite Hc.
Qed.

(** The pattern on the digits of the target, followed by any characters
    that are no digits: the match takes them all. *)
Lemma pattern_takes_trailer (ds trailer : str) :
  ds ≠ [] → Forall (λ c, isdecimal c = true) ds →
  Forall (λ c, isdecimal c = false) trailer →
  Re.match_at (pattern ds ds) (ds ++ trailer)
  = Some (length ds + length trailer).
Proof.
  intros Hne Hds Htr.
  rewrite pattern_digits by done. by apply match_takes_trailer.
Qed.

(** C8, the code at the input of the claim: there is one hit and its
    snippet holds "call", but the match runs from the first digit to the
    end of the text, 20 characters from offset 8 to offset 28, through
    " now</p>", and is not "449-805-5337": the pattern ends in [\D*] and so
    takes the characters after the last digit too. *)
Theorem find_string_in_html_trailer :
  find_string_in_html (Py.s "449 805 5337")
    (Py.s "<p>call 449-805-5337 now</p>") 50
  = [ {| source := Py.s "raw";
         match_ := Py.s "449-805-5337 now</p>";
         start := 8;
         end_ := 28;
         snippet := Py.s "<p>call 449-805-5337 now</p>" |} ]
  ∧ contains (Py.s "call") (Py.s "<p>call 449-805-5337 now</p>") = true
  ∧ startswith (Py.s "449-805-5337") (Py.s "449-805-5337 now</p>") = true
  ∧ Py.s "449-805-5337 now</p>" ≠ Py.s "449-805-5337".
Proof.
  split_and!; [by vm_compute | by vm_compute | by vm_compute | discriminate].
Qed.

End Locator.

(** ** The batch fetch *)

Module Batch.

Import Soup Fetcher Spec.

Lemma fetch_html_url (response : option document) (u : str) (r : FetchResult) :
  fetch_html response u = Some r → url r = u.
Proof. destruct response; simpl; [|done]. by intros [= <-]. Qed.

Lemma fetch_html_is_Some (response : option document) (u : str) :
  is_Some (fetch_html response u) ↔ is_Some response.
Proof. destruct response; simpl; split; intros [? ?]; by eauto. Qed.

(** *** One network, the futures in the order of submission *)

Section Network.

Variable net : nat → option document.

Lemma omap_shift (start : nat) (u : str) (us : list str) (n i : nat) :
  start < i →
  omap (λ future, u0 ← (u :: us) !! (future - start);
                  fetch_html (net future) u0) (seq i n)
  = omap (λ future, u0 ← us !! (future - S start);
                    fetch_html (net future) u0) (seq i n).
Proof.
  revert i. induction n as [|n IH]; intros i Hi; [done|].
  cbn [seq omap list_omap].
  replace (i - start) with (S (i - S start)) by lia.
  cbn [lookup list_lookup].
  by rewrite IH by lia.
Qed.

(** The futures in the order of submission. *)
Lemma omap_submitted (start : nat) (urls : list str) :
  omap (λ future, u ← urls !! (future - start); fetch_html (net future) u)
       (seq start (length urls))
  = fetched_in_order net start urls.
Proof.
  revert start. induction urls as [|u us IH]; intros start; [done|].
  cbn [length seq omap list_omap fetched_in_order].
  rewrite Nat.sub_diag. cbn [lookup list_lookup mbind option_bind].
  rewrite <- IH.
  by rewrite omap_shift by lia.
Qed.

Lemma fetched_length (start : nat) (urls : list str) :
  length (fetched_in_order net start urls)
  + length (List.filter (λ i, negb (bool_decide (is_Some (net i))))
                        (seq start (length urls)))
  = length urls.
Proof.
  revert start. induction urls as [|u us IH]; intros start; [done|].
  cbn [fetched_in_order length seq List.filter].
  specialize (IH (S start)).
  destruct (net start) as [page|] eqn:E; simpl; lia.
Qed.

Lemma fetched_urls (start : nat) (urls : list str) :
  map url (fetched_in_order net start urls) `sublist_of` urls.
Proof.
  revert start. induction urls as [|u us IH]; intros start; [done|].
  cbn [fetched_in_order].
  destruct (fetch_html (net start) u) as [r|] eqn:E.
  - apply fetch_html_url in E as <-. apply sublist_skip, IH.
  - apply sublist_cons, IH.
Qed.

End Network.

(** C6, as the code has it: called with the default worker count or a
    positive one, on [N] URLs of which [K] fail, whatever the order in
    which the fetches complete, [fetch_multiple] raises nothing and returns
    [N - K] records: those of the fetches that succeeded.  The url of each
    is one of the input URLs, and no two records have the same url when no
    two inputs are the same URL. *)
Theorem fetch_multiple_partial (net : nat → option document)
    (completed : list nat) (urls : list str) (max_workers : option Z) :
  workers_ok max_workers →
  completed ≡ₚ seq 0 (length urls) →
  ∃ results,
    fetch_multiple net completed urls max_workers = Some results
    ∧ results ≡ₚ fetched_in_order net 0 urls
    ∧ length results = length urls - failures net (length urls)
    ∧ (∀ r, r ∈ results → url r ∈ urls)
    ∧ (NoDup urls → NoDup (map url results)).
Proof.
  intros Hw Hperm.
  set (f := λ future : nat,
              u ← (map_seq 0 urls : gmap nat str) !! future;
              fetch_html (net future) u).
  assert (Hres : omap f completed ≡ₚ fetched_in_order net 0 urls).
  { rewrite Hperm, <- omap_submitted. unfold f.
    erewrite (list_omap_ext _ _ (seq 0 (length urls)) (seq 0 (length urls)));
      [done|].
    apply Forall2_same_length_lookup_2; [done|].
    intros i x y Hx Hy. simplify_eq.
    by rewrite lookup_map_seq_0, Nat.sub_0_r. }
  assert (Hprops :
    length (omap f completed) = length urls - failures net (length urls)
    ∧ (∀ r, r ∈ omap f completed → url r ∈ urls)
    ∧ (NoDup urls → NoDup (map url (omap f completed)))).
  { split_and!.
    - rewrite Hres. pose proof (fetched_length net 0 urls). unfold failures. lia.
    - intros r Hr. rewrite Hres in Hr.
      eapply elem_of_sublist; [|apply (fetched_urls net 0)].
      apply list_elem_of_fmap. by exists r.
    - intros Hnd. rewrite Hres.
      eapply sublist_NoDup; [|apply (fetched_urls net 0)]. done. }
  unfold fetch_multiple. case_bool_decide as Hurls.
  - subst urls. apply Permutation_nil_r in Hperm as ->.
    exists []. split_and!; try done.
    intros r Hr. by apply elem_of_nil in Hr.
  - replace (default _ max_workers <=? 0)%Z with false.
    + exists (omap f completed). by split_and!; [| |apply Hprops..].
    + symmetry. apply Z.leb_gt. destruct max_workers as [w|]; simpl in *; [done|].
      destruct urls; [done|]. simpl. lia.
Qed.

Lemma fetch_multiple_partial_witness :
  ∃ results,
    fetch_multiple (λ i, if i =? 1 then None else Some plain_page) [2; 0; 1]
      [Py.s "http://a"; Py.s "http://b"; Py.s "http://c"] None
    = Some results
    ∧ length results = 3 - 1
    ∧ map url results = [Py.s "http://c"; Py.s "http://a"].
Proof.
  destruct (fetch_multiple_partial
              (λ i, if i =? 1 then None else Some plain_page) [2; 0; 1]
              [Py.s "http://a"; Py.s "http://b"; Py.s "http://c"] None)
    as (results & Heq & _ & Hlen & _).
  - exact I.
  - simpl. etrans; [apply Permutation_swap|]. apply perm_skip, perm_swap.
  - exists results. split; [exact Heq|]. split; [exact Hlen|].
    cbv [fetch_multiple] in Heq. vm_compute in Heq. by simplify_eq.
Defined.

(** A worker count below 1 is refused, whatever the URLs. *)
Lemma fetch_multiple_no_workers :
  fetch_multiple (λ _, Some plain_page) [0] [Py.s "http://a"] (Some 0%Z)
  = None.
Proof. reflexivity. Qed.

(** C6 as stated fails: of a list that names one URL twice, both fetches
    succeeding, two records come back, with the same url. *)
Lemma fetch_multiple_duplicate_urls :
  ∃ results,
    fetch_multiple (λ _, Some plain_page) [0; 1]
      [Py.s "http://a"; Py.s "http://a"] None = Some results
    ∧ length results = 2
    ∧ map url results = [Py.s "http://a"; Py.s "http://a"]
    ∧ ¬ NoDup (map url results).
Proof.
  eexists. split; [reflexivity|]. split_and!; [done | done |].
  intros [H _]%NoDup_cons. apply H. left.
Qed.

End Batch.

(** * Further properties *)

(** ** The matcher finds only what the pattern can match *)

Module ReSound.

Import Spec PyFacts ReFacts.

Lemma star_greedy_sound {A} (p : ascii → bool) (k : str → option A)
    (t : str) (a : A) :
  Re.star_greedy p k t = Some a →
  ∃ w rest, t = w ++ rest ∧ Forall (λ c, p c = true) w ∧ k rest = Some a.
Proof.
  induction t as [|c t IH]; simpl.
  - intros H. by exists [], [].
  - destruct (p c) eqn:Ec.
    + destruct (Re.star_greedy p k t) as [a'|] eqn:E.
      * intros [= ->]. destruct (IH eq_refl) as (w & rest & -> & Hw & Hk).
        exists (c :: w), rest. split_and!; [done | by constructor | done].
      * intros H. by exists [], (c :: t).
    + intros H. by exists [], (c :: t).
Qed.

Lemma star_lazy_sound {A} (p : ascii → bool) (k : str → option A)
    (t : str) (a : A) :
  Re.star_lazy p k t = Some a →
  ∃ w rest, t = w ++ rest ∧ Forall (λ c, p c = true) w ∧ k rest = Some a.
Proof.
  induction t as [|c t IH]; simpl.
  - destruct (k []) eqn:E; [|done]. intros [= ->]. by exists [], [].
  - destruct (k (c :: t)) eqn:E.
    + intros [= ->]. by exists [], (c :: t).
    + destruct (p c) eqn:Ec; [|done]. intros H.
      destruct (IH H) as (w & rest & -> & Hw & Hk).
      exists (c :: w), rest. split_and!; [done | by constructor | done].
Qed.

(** What [run] hands on is what is left after a text the pattern can
    match. *)
Lemma run_sound {A} (r : Re.regex) (t : str) (k : str → option A) (a : A) :
  Re.run r t k = Some a →
  ∃ w rest, t = w ++ rest ∧ matches r w ∧ k rest = Some a.
Proof.
  revert t k. induction r as [| p | r1 IH1 r2 IH2 | r1 IH1 r2 IH2 | r1 IH1
                              | p | p | ]; intros t k; simpl.
  - intros H. exists [], t. split_and!; [done | constructor | done].
  - destruct t as [|c t]; [done|]. destruct (p c) eqn:Ec; [|done].
    intros H. exists [c], t. split_and!; [done | by constructor | done].
  - intros H. destruct (IH1 _ _ H) as (w1 & t1 & -> & M1 & H1).
    destruct (IH2 _ _ H1) as (w2 & t2 & -> & M2 & H2).
    exists (w1 ++ w2), t2.
    split_and!; [by rewrite app_assoc | by constructor | done].
  - destruct (Re.run r1 t k) eqn:E.
    + intros [= ->]. destruct (IH1 _ _ E) as (w & rest & -> & M & H).
      exists w, rest. split_and!; [done | by apply matches_alt_l | done].
    + intros H. destruct (IH2 _ _ H) as (w & rest & -> & M & H').
      exists w, rest. split_and!; [done | by apply matches_alt_r | done].
  - destruct (Re.run r1 t k) eqn:E.
    + intros [= ->]. destruct (IH1 _ _ E) as (w & rest & -> & M & H).
      exists w, rest. split_and!; [done | by apply matches_opt | done].
    + intros H. exists [], t. split_and!; [done | apply matches_opt_nil | done].
  - intros H. destruct (star_greedy_sound _ _ _ _ H) as (w & rest & -> & Hw & Hk).
    exists w, rest. split_and!; [done | by constructor | done].
  - intros H. destruct (star_lazy_sound _ _ _ _ H) as (w & rest & -> & Hw & Hk).
    exists w, rest. split_and!; [done | by constructor | done].
  - destruct t as [|c [|d t]].
    + intros H. exists [], []. split_and!; [done | constructor | done].
    + destruct (decide _); [|done]. intros H.
      exists [], [c]. split_and!; [done | constructor | done].
    + done.
Qed.

Lemma match_at_sound (r : Re.regex) (t : str) (n : nat) :
  Re.match_at r t = Some n → n ≤ length t ∧ matches r (take n t).
Proof.
  unfold Re.match_at. intros H.
  apply run_sound in H as (w & rest & -> & M & [= <-]).
  rewrite length_app.
  replace (length w + length rest - length rest) with (length w) by lia.
  split; [lia|]. by rewrite take_app_length.
Qed.

Lemma spans_ok_weaken (r : Re.regex) (whole : str) (lo lo' : nat)
    (spans : list (nat * nat)) :
  lo ≤ lo' → spans_ok r whole lo' spans → spans_ok r whole lo spans.
Proof.
  destruct spans as [|[s e] rest]; [done|]. simpl.
  intros Hlo (H1 & H2). split; [lia | done].
Qed.

Lemma finditer_go_spans (r : Re.regex) (pre t : str) (skip : nat) :
  spans_ok r (pre ++ t) (length pre + skip)
           (Re.finditer_go r (length pre) skip t).
Proof.
  revert pre skip. induction t as [|c t IH]; intros pre skip.
  - simpl. destruct skip; [|done].
    destruct (Re.match_at r []) as [n|] eqn:E; [|done].
    apply match_at_sound in E as [Hn M]. simpl in Hn.
    assert (n = 0) as -> by lia. simpl.
    rewrite app_nil_r. split_and!; [lia | lia | lia | | done].
    unfold slice. by rewrite Nat.sub_diag.
  - assert (Hpre : pre ++ c :: t = (pre ++ [c]) ++ t)
      by by rewrite <- app_assoc.
    assert (Hlen : length (pre ++ [c]) = S (length pre))
      by (rewrite length_app; simpl; lia).
    cbn [Re.finditer_go]. destruct skip as [|skip].
    + destruct (Re.match_at r (c :: t)) as [[|n]|] eqn:E.
      * apply match_at_sound in E as [_ M]. simpl in M.
        cbn [spans_ok]. split_and!; [lia | lia | | | ].
        -- rewrite length_app. lia.
        -- unfold slice. by rewrite Nat.sub_diag.
        -- rewrite Hpre, <- Hlen.
           eapply spans_ok_weaken; [|apply (IH (pre ++ [c]) 0)]. lia.
      * apply match_at_sound in E as [Hn M].
        cbn [spans_ok]. split_and!; [lia | lia | | | ].
        -- rewrite length_app. lia.
        -- unfold slice.
           replace (length pre + S n - length pre) with (S n) by lia.
           by rewrite drop_app_length.
        -- rewrite Hpre, <- Hlen.
           eapply spans_ok_weaken; [|apply (IH (pre ++ [c]) n)]. lia.
      * rewrite Hpre, <- Hlen.
        eapply spans_ok_weaken; [|apply (IH (pre ++ [c]) 0)]. lia.
    + rewrite Hpre, <- Hlen.
      eapply spans_ok_weaken; [|apply (IH (pre ++ [c]) skip)]. lia.
Qed.

(** The spans of [re.finditer] lie in the text from left to right without
    overlap, and each holds a text the pattern can match. *)
Lemma finditer_spans (r : Re.regex) (t : str) :
  spans_ok r t 0 (Re.finditer r t).
Proof. apply (finditer_go_spans r [] t 0). Qed.

Lemma spans_ok_elem (r : Re.regex) (whole : str) (lo : nat)
    (spans : list (nat * nat)) (s e : nat) :
  spans_ok r whole lo spans → (s, e) ∈ spans →
  lo ≤ s ∧ s ≤ e ∧ e ≤ length whole ∧ matches r (slice s e whole).
Proof.
  revert lo. induction spans as [|[s' e'] rest IH]; intros lo; simpl.
  - intros _ H. by apply elem_of_nil in H.
  - intros (H1 & H2 & H3 & H4 & H5) [[= -> ->]|Hin]%elem_of_cons; [done|].
    destruct (IH _ H5 Hin) as (? & ? & ? & ?). split_and!; [lia | done..].
Qed.

(** Where the pattern matches somewhere, [re.finditer] yields a match. *)
Lemma finditer_go_nonempty (r : Re.regex) (i : nat) (pre t : str) :
  is_Some (Re.match_at r t) → Re.finditer_go r i 0 (pre ++ t) ≠ [].
Proof.
  intros [n Hn]. revert i. induction pre as [|c pre IH]; intros i.
  - destruct t as [|c t]; simpl; rewrite Hn; [done|]. by destruct n.
  - simpl. destruct (Re.match_at r (c :: pre ++ t)) as [[|m]|]; [done..|].
    apply IH.
Qed.

End ReSound.

(** ** The locator: where the hits lie and what they hold *)

Module LocatorFacts.

Import TextUtils Spec PyFacts ReFacts ReSound.

(** *** Characters, one by one *)

Lemma ascii_cases (P : ascii → Prop) :
  (∀ n, n ∈ seq 0 256 → P (ascii_of_nat n)) → ∀ c, P c.
Proof.
  intros H c. rewrite <- (ascii_nat_embedding c). apply H.
  apply elem_of_seq. pose proof (nat_ascii_bounded c). lia.
Qed.

Lemma ascii_check (f : ascii → bool) :
  forallb (λ n, f (ascii_of_nat n)) (seq 0 256) = true → ∀ c, f c = true.
Proof.
  intros H. apply ascii_cases. intros n Hn.
  rewrite forallb_forall in H. by apply H, list_elem_of_In.
Qed.

(** Lowercasing makes no digit and moves none. *)
Lemma lower_char_digit (x : ascii) :
  isdecimal (lower_char x) = true → lower_char x = x.
Proof.
  assert (H : ∀ c, implb (isdecimal (lower_char c))
                         (bool_decide (lower_char c = c)) = true)
    by (apply ascii_check; by vm_compute).
  intros Hx. specialize (H x). rewrite Hx in H.
  by apply bool_decide_eq_true_1 in H.
Qed.

Lemma lower_char_of_digit (d : ascii) :
  isdecimal d = true → lower_char d = d.
Proof.
  assert (H : ∀ c, implb (isdecimal c)
                         (bool_decide (lower_char c = c)) = true)
    by (apply ascii_check; by vm_compute).
  intros Hd. specialize (H d). rewrite Hd in H.
  by apply bool_decide_eq_true_1 in H.
Qed.

(** Under IGNORECASE a digit of the pattern matches that digit only. *)
Lemma lit_i_digit (d x : ascii) :
  isdecimal d = true →
  bool_decide (lower_char x = lower_char d) = true → x = d.
Proof.
  intros Hd H%bool_decide_eq_true.
  rewrite (lower_char_of_digit d Hd) in H.
  rewrite <- H. symmetry. apply lower_char_digit. by rewrite H.
Qed.

(** *** What the two patterns can match *)

Lemma digits_of_all (t : str) : Forall (λ c, isdecimal c = true) (digits_of t).
Proof.
  unfold digits_of. induction t as [|c t IH]; simpl; [constructor|].
  destruct (isdecimal c) eqn:E; [by constructor | done].
Qed.

Lemma digits_of_none (t : str) :
  Forall (λ c, Re.cls_D c = true) t → digits_of t = [].
Proof.
  unfold digits_of, Re.cls_D. induction 1 as [|c t Hc Ht IH]; [done|].
  simpl. by apply negb_true_iff in Hc as ->.
Qed.

Lemma digits_of_app (a b : str) : digits_of (a ++ b) = digits_of a ++ digits_of b.
Proof. unfold digits_of. apply List.filter_app. Qed.

(** A text the digits pattern can match holds the digits of the target,
    in order, and no other digit. *)
Lemma digits_pattern_matches (ds w : str) :
  Forall (λ c, isdecimal c = true) ds →
  matches (digits_pattern ds) w →
  digits_of w = ds ∧ (ds ≠ [] → ∃ d rest', w = d :: rest' ∧ head ds = Some d).
Proof.
  intros Hds. revert w. induction Hds as [|d ds Hd Hds IH]; intros w.
  - unfold digits_pattern, Re.cats. simpl. by inversion 1.
  - unfold digits_pattern, Re.cats. cbn [flat_map app foldr].
    intros M. inversion M as [| |? ? w1 w23 M1 M23| | | | | | |]; subst.
    inversion M1 as [|p x Hx| | | | | | | |]; subst.
    inversion M23 as [| |? ? w2 w3 M2 M3| | | | | | |]; subst.
    inversion M2 as [| | | | | | |p w' Hw2| |]; subst.
    apply lit_i_digit in Hx as ->; [|done].
    destruct (IH w3 M3) as [H3 _].
    split.
    + change ([d] ++ w2 ++ w3) with (d :: (w2 ++ w3)).
      unfold digits_of at 1. cbn [List.filter]. rewrite Hd. f_equal.
      fold (digits_of (w2 ++ w3)).
      by rewrite digits_of_app, (digits_of_none w2), H3.
    + intros _. by exists d, (w2 ++ w3).
Qed.

(** A text the literal pattern can match is the target, case apart. *)
Lemma word_i_matches (target w : str) :
  matches (Re.word_i target) w →
  length w = length target ∧ lower w = lower target.
Proof.
  revert w. induction target as [|c target IH]; intros w; simpl.
  - by inversion 1.
  - intros M. inversion M as [| |? ? w1 w2 M1 M2| | | | | | |]; subst.
    inversion M1 as [|p x Hx| | | | | | | |]; subst.
    apply bool_decide_eq_true in Hx. destruct (IH _ M2) as [H1 H2].
    simpl. by rewrite H1, H2, Hx.
Qed.

Lemma sub_D_digits (t : str) : Re.sub (Re.Chr Re.cls_D) [] t = digits_of t.
Proof.
  rewrite sub_Chr_empty. unfold digits_of, Re.cls_D.
  induction t as [|c t IH]; simpl; [done|].
  destruct (isdecimal c); simpl; by rewrite IH.
Qed.

(** The pattern [find_string_in_html] searches for. *)
Lemma pattern_of_target (target : str) :
  pattern target (digits_of target) =
    if bool_decide (digits_of target = []) then Re.word_i target
    else digits_pattern (digits_of target).
Proof. done. Qed.

Lemma find_hits (target html : str) (context : Z) (h : hit) :
  h ∈ find_string_in_html target html context →
  target ≠ [] ∧ html ≠ []
  ∧ ∃ s e, (s, e) ∈ Re.finditer (pattern target (digits_of target)) html
           ∧ h = {| source := Py.s "raw";
                    match_ := slice s e html;
                    start := s;
                    end_ := e;
                    snippet :=
                      slice_z (Z.max 0 (Z.of_nat s - context))
                        (Z.min (Z.of_nat (length html))
                               (Z.of_nat e + context)) html |}.
Proof.
  unfold find_string_in_html. rewrite sub_D_digits.
  case_bool_decide as Ht; [intros H; by apply elem_of_nil in H|].
  case_bool_decide as Hh; [intros H; by apply elem_of_nil in H|].
  cbn [orb]. intros ([s e] & -> & Hin)%list_elem_of_fmap.
  split_and!; [done | done |]. by exists s, e.
Qed.

Lemma spans_ok_sorted (r : Re.regex) (whole : str) (lo : nat)
    (spans : list (nat * nat)) (i j s1 e1 s2 e2 : nat) :
  spans_ok r whole lo spans → i < j →
  spans !! i = Some (s1, e1) → spans !! j = Some (s2, e2) → e1 ≤ s2.
Proof.
  revert lo i j. induction spans as [|[s e] rest IH]; intros lo i j; [done|].
  cbn [spans_ok]. intros (H1 & H2 & H3 & H4 & H5) Hij Hi Hj.
  destruct j as [|j]; [lia|]. cbn in Hj.
  destruct i as [|i].
  - cbn in Hi. simplify_eq.
    apply list_elem_of_lookup_2 in Hj.
    by destruct (spans_ok_elem _ _ _ _ _ _ H5 Hj) as (? & _).
  - cbn in Hi. apply (IH e i j); [done | lia | done | done].
Qed.

Lemma slice_length (a b : nat) (t : str) :
  b ≤ length t → length (slice a b t) = b - a.
Proof. intros H. unfold slice. rewrite length_take, length_drop. lia. Qed.

Lemma slice_split (a b c : nat) (t : str) :
  a ≤ b → b ≤ c → slice a c t = slice a b t ++ slice b c t.
Proof.
  intros Hab Hbc. unfold slice.
  replace (c - a) with ((b - a) + (c - b)) by lia.
  rewrite <- take_take_drop, drop_drop.
  by replace (a + (b - a)) with b by lia.
Qed.

(** The snippet for a context that is not negative. *)
Lemma snippet_slice (s e : nat) (context : Z) (html : str) :
  (0 ≤ context)%Z → e ≤ length html → s ≤ e →
  slice_z (Z.max 0 (Z.of_nat s - context))
    (Z.min (Z.of_nat (length html)) (Z.of_nat e + context)) html
  = slice (s - Z.to_nat context)
      (min (length html) (e + Z.to_nat context)) html.
Proof.
  intros Hc He Hse. unfold slice_z, slice_bound.
  replace (Z.max 0 (Z.of_nat s - context) <? 0)%Z with false
    by (symmetry; apply Z.ltb_ge; lia).
  replace (Z.min (Z.of_nat (length html)) (Z.of_nat e + context) <? 0)%Z
    with false by (symmetry; apply Z.ltb_ge; lia).
  f_equal; lia.
Qed.

(** X1: every hit lies in the text and holds the text between its offsets
    and at least one character; the hits come from left to right and do
    not overlap.  When [context_chars] is not negative, the snippet of a
    hit is its match with at most [context_chars] characters of the text
    before it and after it. *)
Theorem find_string_in_html_hits (target html : str) (context : Z) :
  (0 ≤ context)%Z →
  (∀ h, h ∈ find_string_in_html target html context →
     source h = Py.s "raw"
     ∧ start h < end_ h ∧ end_ h ≤ length html
     ∧ match_ h = slice (start h) (end_ h) html
     ∧ snippet h
       = slice (start h - Z.to_nat context) (start h) html
         ++ match_ h
         ++ slice (end_ h)
              (min (length html) (end_ h + Z.to_nat context)) html
     ∧ length (snippet h) ≤ length (match_ h) + 2 * Z.to_nat context)
  ∧ (∀ i j h1 h2,
       i < j →
       find_string_in_html target html context !! i = Some h1 →
       find_string_in_html target html context !! j = Some h2 →
       end_ h1 ≤ start h2).
Proof.
  intros Hcontext. split.
  - intros h Hh. apply find_hits in Hh as (Ht & Hhtml & s & e & Hin & ->).
    destruct (spans_ok_elem _ _ _ _ s e (finditer_spans _ html) Hin)
      as (_ & Hse & He & M).
    cbn [source start end_ match_ snippet].
    assert (Hlt : s < e).
    { rewrite pattern_of_target in M. case_bool_decide as Hd.
      - apply word_i_matches in M as [Hlen _].
        rewrite slice_length in Hlen by done. destruct target; [done|].
        simpl in Hlen. lia.
      - apply digits_pattern_matches in M as [Hdig _];
          [|apply digits_of_all].
        destruct (decide (s = e)) as [->|?]; [|lia].
        unfold slice in Hdig. rewrite Nat.sub_diag in Hdig. simpl in Hdig.
        by rewrite <- Hdig in Hd. }
    rewrite snippet_slice by (done || lia).
    split_and!; [done | done | done | done | |].
    + rewrite (slice_split (s - Z.to_nat context) s) by lia.
      by rewrite (slice_split s e) by lia.
    + rewrite !slice_length by lia. lia.
  - intros i j h1 h2 Hij H1 H2. unfold find_string_in_html in *.
    destruct (bool_decide (target = []) || bool_decide (html = []));
      [done|].
    rewrite list_lookup_fmap in H1, H2.
    destruct (Re.finditer _ html !! i) as [[s1 e1]|] eqn:E1; [|done].
    destruct (Re.finditer _ html !! j) as [[s2 e2]|] eqn:E2; [|done].
    cbn in H1, H2. simplify_eq. cbn [start end_].
    eapply spans_ok_sorted; [apply finditer_spans | done..].
Qed.

Lemma find_string_in_html_hits_witness :
  ∃ h, find_string_in_html (Py.s "tel") (Py.s "Tel: 1, tel: 2") 3 !! 1
       = Some h
       ∧ start h < end_ h ∧ end_ h ≤ 14
       ∧ length (snippet h) ≤ length (match_ h) + 2 * 3.
Proof.
  destruct (find_string_in_html_hits (Py.s "tel") (Py.s "Tel: 1, tel: 2") 3)
    as [Hall _]; [lia|].
  eexists. split; [reflexivity|].
  match goal with
  | |- context [start ?h] =>
      destruct (Hall h) as (_ & H1 & H2 & _ & _ & H3)
  end.
  - apply list_elem_of_In. vm_compute. tauto.
  - split_and!; [exact H1 | exact H2 | exact H3].
Defined.

(** A negative [context_chars] is not refused: the snippet is then cut
    inside the match.  For the target "12" in "ab 1-2 cd" and the context
    -2, the match is "1-2 cd" and the snippet "2 ". *)
Lemma find_string_in_html_negative_context :
  find_string_in_html (Py.s "12") (Py.s "ab 1-2 cd") (-2)
  = [ {| source := Py.s "raw";
         match_ := Py.s "1-2 cd";
         start := 3;
         end_ := 9;
         snippet := Py.s "2 " |} ].
Proof. by vm_compute. Qed.

(** X2: for a target that holds a digit, the digits of every match are
    the digits of the target, in order, and the match begins with the
    first of them. *)
Theorem find_string_in_html_digits (target html : str) (context : Z)
    (h : hit) :
  digits_of target ≠ [] →
  h ∈ find_string_in_html target html context →
  digits_of (match_ h) = digits_of target
  ∧ ∃ d rest, match_ h = d :: rest ∧ head (digits_of target) = Some d.
Proof.
  intros Hd Hh. apply find_hits in Hh as (_ & _ & s & e & Hin & ->).
  destruct (spans_ok_elem _ _ _ _ s e (finditer_spans _ html) Hin)
    as (_ & _ & _ & M).
  rewrite pattern_of_target, bool_decide_eq_false_2 in M by done.
  apply digits_pattern_matches in M as [H1 H2]; [|apply digits_of_all].
  cbn [match_]. split; [done|]. by apply H2.
Qed.

Lemma find_string_in_html_digits_witness :
  let h := {| source := Py.s "raw"; match_ := Py.s "44-98 x";
              start := 2; end_ := 9; snippet := Py.s "t 44-98 x" |} in
  digits_of (match_ h) = digits_of (Py.s "(44) 98").
Proof.
  intros h.
  apply (find_string_in_html_digits (Py.s "(44) 98") (Py.s "t 44-98 x") 2 h).
  - discriminate.
  - apply list_elem_of_In. vm_compute. tauto.
Defined.

(** X3: for a target and a page of code points below 256 (what a [str]
    holds here), the target not empty and without digits: every match has
    the length of the target and is the target up to the case of letters,
    its lowercase form being that of the target. *)
Theorem find_string_in_html_literal (target html : str) (context : Z)
    (h : hit) :
  digits_of target = [] →
  h ∈ find_string_in_html target html context →
  length (match_ h) = length target ∧ lower (match_ h) = lower target.
Proof.
  intros Hd Hh. apply find_hits in Hh as (_ & _ & s & e & Hin & ->).
  destruct (spans_ok_elem _ _ _ _ s e (finditer_spans _ html) Hin)
    as (_ & _ & _ & M).
  rewrite pattern_of_target, bool_decide_eq_true_2 in M by done.
  by apply word_i_matches in M.
Qed.

Lemma find_string_in_html_literal_witness :
  let h := {| source := Py.s "raw"; match_ := Py.s "CALL";
              start := 3; end_ := 7; snippet := Py.s "<p>CALL us" |} in
  length (match_ h) = 4 ∧ lower (match_ h) = Py.s "call".
Proof.
  intros h.
  apply (find_string_in_html_literal (Py.s "Call") (Py.s "<p>CALL us</p>") 3 h).
  - reflexivity.
  - apply list_elem_of_In. vm_compute. tauto.
Defined.

(** *** A target that stands in the text is found *)

Lemma drop_while_prefix (p : ascii → bool) (t : str) :
  ∃ pre, t = pre ++ drop_while p t ∧ Forall (λ c, p c = true) pre.
Proof.
  induction t as [|c t (pre & IH & Hpre)]; simpl.
  - by exists [].
  - destruct (p c) eqn:E; [|by exists []].
    exists (c :: pre). split; [simpl; by f_equal | by constructor].
Qed.

Lemma run_word_i {A} (w t : str) (k : str → option A) :
  Re.run (Re.word_i w) (w ++ t) k = k t.
Proof.
  induction w as [|c w IH]; simpl; [done|].
  by rewrite bool_decide_eq_true_2.
Qed.

Lemma run_digits_of {A} (u post : str) (k : str → option A) :
  (∀ v, is_Some (k v)) →
  is_Some (Re.run (digits_pattern (digits_of u))
                  (drop_while Re.cls_D u ++ post) k).
Proof.
  intros Hk. revert k Hk. induction u as [|c u IH]; intros k Hk.
  - apply Hk.
  - assert (Hdig : digits_of (c :: u)
                   = if isdecimal c then c :: digits_of u else digits_of u)
      by done.
    rewrite Hdig. cbn [drop_while].
    change (Re.cls_D c) with (negb (isdecimal c)).
    destruct (isdecimal c) eqn:Ec; cbn [negb]; [|by apply IH].
    unfold digits_pattern, Re.cats. cbn [flat_map app foldr Re.run Re.lit_i].
    rewrite bool_decide_eq_true_2 by done.
    destruct (drop_while_prefix Re.cls_D u) as (pre & Hu & Hpre).
    replace (u ++ post) with (pre ++ (drop_while Re.cls_D u ++ post))
      by (rewrite app_assoc; by rewrite <- Hu).
    apply star_greedy_complete; [done|]. by apply IH.
Qed.

(** X4: a non-empty target that stands in the text as it is written gives
    at least one hit. *)
Theorem find_string_in_html_verbatim (target html : str) (context : Z) :
  target ≠ [] → occurs_in target html →
  find_string_in_html target html context ≠ [].
Proof.
  intros Ht (pre & post & Hhtml). unfold find_string_in_html.
  rewrite sub_D_digits.
  rewrite bool_decide_eq_false_2 by done.
  rewrite bool_decide_eq_false_2.
  2:{ rewrite Hhtml. destruct pre, target; done. }
  cbn [orb]. intros H%fmap_nil_inv. revert H.
  rewrite pattern_of_target. case_bool_decide as Hd.
  - rewrite Hhtml. apply finditer_go_nonempty.
    unfold Re.match_at. rewrite run_word_i. by eexists.
  - destruct (drop_while_prefix Re.cls_D target) as (n0 & Hn0 & _).
    rewrite Hhtml, Hn0, <- app_assoc, app_assoc.
    apply finditer_go_nonempty. unfold Re.match_at.
    rewrite <- Hn0. apply run_digits_of. by eexists.
Qed.

Lemma find_string_in_html_verbatim_witness :
  find_string_in_html (Py.s "+52 449") (Py.s "<p>+52 449</p>") 50 ≠ [].
Proof.
  apply find_string_in_html_verbatim.
  - discriminate.
  - by exists (Py.s "<p>"), (Py.s "</p>").
Defined.

End LocatorFacts.

(** ** The signals of a page *)

Module SignalFacts.

Import Fetcher Spec PyFacts ReFacts ReSound LocatorFacts.

(** *** Matches are cut out of the text *)

Lemma slice_occurs (s e : nat) (t : str) :
  s ≤ e → e ≤ length t → occurs_in (slice s e t) t.
Proof.
  intros Hse He. exists (take s t), (drop e t).
  rewrite <- (take_drop s t) at 1. f_equal.
  rewrite <- (take_drop (e - s) (drop s t)) at 1. unfold slice. f_equal.
  rewrite drop_drop. f_equal. lia.
Qed.

Lemma matches_found (r : Re.regex) (t w : str) :
  w ∈ Fetcher.matches r t → occurs_in w t ∧ Spec.matches r w.
Proof.
  unfold Fetcher.matches. intros ([s e] & -> & Hin)%list_elem_of_fmap.
  destruct (spans_ok_elem _ _ _ _ s e (finditer_spans r t) Hin)
    as (_ & Hse & He & M).
  split; [by apply slice_occurs | done].
Qed.

Lemma digits_of_occurs (u t : str) :
  occurs_in u t → length (digits_of u) ≤ length (digits_of t).
Proof.
  intros (pre & post & ->). rewrite !digits_of_app, !length_app. lia.
Qed.

(** *** Phones *)

Lemma is_valid_phone_of_digits (t : str) :
  is_valid_phone (digits_of t) = is_valid_phone t.
Proof.
  unfold is_valid_phone.
  by rewrite !PhoneFacts.clean_number_digits, PhoneFacts.digits_of_idem.
Qed.

Lemma phones_found_from (html p : str) :
  p ∈ phones_found (detect_signals html) →
  ∃ candidate, occurs_in candidate html ∧ digits_of candidate = p
               ∧ is_valid_phone candidate = true.
Proof.
  unfold detect_signals. cbn [phones_found].
  rewrite elem_of_list_to_set.
  intros (cand & -> & Hin)%list_elem_of_fmap.
  apply list_elem_of_In, filter_In in Hin as [Hin Hvalid].
  apply list_elem_of_In, matches_found in Hin as [Hocc _].
  exists cand. by rewrite PhoneFacts.clean_number_digits.
Qed.

(** X5: every phone number [detect_signals] reports is made of 8 to 12
    digits, not all the same, passes [is_valid_phone] itself, and is the
    digits of a piece of the page. *)
Theorem phones_found_valid (html p : str) :
  p ∈ phones_found (detect_signals html) →
  Forall (λ c, isdecimal c = true) p
  ∧ 8 ≤ length p ≤ 12
  ∧ ¬ repeated_digit p
  ∧ is_valid_phone p = true
  ∧ ∃ candidate, occurs_in candidate html ∧ digits_of candidate = p.
Proof.
  intros (cand & Hocc & <- & Hvalid)%phones_found_from.
  assert (Hv : is_valid_phone (digits_of cand) = true)
    by by rewrite is_valid_phone_of_digits.
  pose proof Hv as (H1 & H2 & _)%PhoneFacts.is_valid_phone_digits;
    [|apply PhoneFacts.digits_of_idem].
  split_and!; [apply digits_of_all | lia | lia | done | done |].
  by exists cand.
Qed.

Lemma phones_found_valid_witness :
  8 ≤ length (Py.s "524498055337") ≤ 12
  ∧ is_valid_phone (Py.s "524498055337") = true.
Proof.
  destruct (phones_found_valid (Py.s "tel +52 (449) 805-5337 ok")
              (Py.s "524498055337")) as (_ & H1 & _ & H2 & _).
  - apply elem_of_elements. apply list_elem_of_In. vm_compute. tauto.
  - exact (conj H1 H2).
Defined.

(** *** Emails *)

Lemma matches_cat_inv (r1 r2 : Re.regex) (w : str) :
  Spec.matches (Re.Cat r1 r2) w →
  ∃ w1 w2, w = w1 ++ w2 ∧ Spec.matches r1 w1 ∧ Spec.matches r2 w2.
Proof. inversion 1; subst. by eexists _, _. Qed.

Lemma matches_chr_inv (p : ascii → bool) (w : str) :
  Spec.matches (Re.Chr p) w → ∃ c, w = [c] ∧ p c = true.
Proof. inversion 1; subst. by eexists. Qed.

Lemma matches_star_inv (p : ascii → bool) (w : str) :
  Spec.matches (Re.Star p) w → Forall (λ c, p c = true) w.
Proof. by inversion 1. Qed.

Lemma matches_eps_inv (w : str) : Spec.matches Re.Eps w → w = [].
Proof. by inversion 1. Qed.

Lemma matches_alt_inv (r1 r2 : Re.regex) (w : str) :
  Spec.matches (Re.Alt r1 r2) w → Spec.matches r1 w ∨ Spec.matches r2 w.
Proof. inversion 1; subst; [by left | by right]. Qed.

Lemma matches_plus_inv (p : ascii → bool) (w : str) :
  Spec.matches (Re.Plus p) w → w ≠ [] ∧ Forall (λ c, p c = true) w.
Proof.
  intros (w1 & w2 & -> & (c & -> & Hc)%matches_chr_inv
          & Hw2%matches_star_inv)%matches_cat_inv.
  split; [done | by constructor].
Qed.

Lemma matches_lit_inv (c : ascii) (w : str) :
  Spec.matches (Re.lit c) w → w = [c].
Proof.
  intros (x & -> & Hx)%matches_chr_inv. by apply bool_decide_eq_true in Hx as ->.
Qed.

Lemma alt_words_inv (r0 : Re.regex) (ws : list string) (w : str) :
  Spec.matches (foldl (λ r w', Re.Alt r (Re.word_i (Py.s w'))) r0 ws) w →
  Spec.matches r0 w ∨ ∃ x, x ∈ ws ∧ Spec.matches (Re.word_i (Py.s x)) w.
Proof.
  revert r0. induction ws as [|x ws IH]; intros r0; simpl; [by left|].
  intros [[M|M]%matches_alt_inv|(y & Hy & M)]%IH.
  - by left.
  - right. exists x. split; [left | done].
  - right. exists y. split; [by right | done].
Qed.

(** What [EMAIL_REGEX] can match has the shape of an address. *)
Lemma email_regex_shape (w : str) :
  Spec.matches EMAIL_REGEX w → email_shape w.
Proof.
  unfold EMAIL_REGEX, Re.cats. cbn [foldr].
  intros (local & w1 & -> & [Hl1 Hl2]%matches_plus_inv & M)%matches_cat_inv.
  apply matches_cat_inv in M as (at_ & w2 & -> & ->%matches_lit_inv & M).
  apply matches_cat_inv in M
    as (domain & w3 & -> & [Hd1 Hd2]%matches_plus_inv & M).
  apply matches_cat_inv in M as (dot & w4 & -> & ->%matches_lit_inv & M).
  apply matches_cat_inv in M as (tld & w5 & -> & Mtld & ->%matches_eps_inv).
  exists local, domain, tld. rewrite app_nil_r.
  split_and!; [done | done | done | | |].
  - intros Hin. rewrite Forall_forall in Hl2. by specialize (Hl2 _ Hin).
  - intros Hin. rewrite Forall_forall in Hd2. by specialize (Hd2 _ Hin).
  - unfold alt_words in Mtld.
    apply alt_words_inv in Mtld as [M|(x & Hx & M)].
    + apply word_i_matches in M as [_ ->]. apply list_elem_of_In.
      vm_compute. tauto.
    + apply word_i_matches in M as [_ ->].
      repeat (apply elem_of_cons in Hx as [->|Hx];
              [apply list_elem_of_In; vm_compute; tauto|]).
      by apply elem_of_nil in Hx.
Qed.

(** X6: for a page of code points below 256 (what a [str] holds here),
    every email [detect_signals] reports stands in the page and has the
    shape of an address: a non-empty local part, one "@", a non-empty
    domain, a dot and one of the listed top-level domains in any case. *)
Theorem emails_found_shape (html email : str) :
  email ∈ emails_found (detect_signals html) →
  occurs_in email html ∧ email_shape email.
Proof.
  unfold detect_signals. cbn [emails_found]. rewrite elem_of_list_to_set.
  intros [Hocc M]%matches_found. split; [done|]. by apply email_regex_shape.
Qed.

Lemma emails_found_shape_witness :
  occurs_in (Py.s "Ana.B@Uni.EDU") (Py.s "mail Ana.B@Uni.EDU.")
  ∧ email_shape (Py.s "Ana.B@Uni.EDU").
Proof.
  apply emails_found_shape.
  apply elem_of_elements. apply list_elem_of_In. vm_compute. tauto.
Defined.

(** *** Pages without signals *)

Lemma size_empty_iff (X : gset str) : (0 <? size X) = false ↔ X = ∅.
Proof.
  rewrite Nat.ltb_ge. split.
  - intros H. apply leibniz_equiv, size_empty_inv. lia.
  - intros ->. by rewrite size_empty.
Qed.

(** X7: a page without "@" has no email and a page with fewer than 8
    digits has no phone; the flags are then false. *)
Theorem detect_signals_nothing (html : str) :
  (("@"%char ∉ html) →
   emails_found (detect_signals html) = ∅
   ∧ has_email (detect_signals html) = false)
  ∧ (length (digits_of html) < 8 →
     phones_found (detect_signals html) = ∅
     ∧ has_phone (detect_signals html) = false).
Proof.
  split.
  - intros Hat.
    assert (H : emails_found (detect_signals html) = ∅).
    { apply set_eq. intros email. split; [|by intros ?%elem_of_empty].
      unfold detect_signals. cbn [emails_found]. rewrite elem_of_list_to_set.
      intros [(pre & post & Hhtml) M]%matches_found.
      apply email_regex_shape in M as (l & d & t & -> & _).
      exfalso. apply Hat. rewrite Hhtml, !elem_of_app, elem_of_cons. tauto. }
    split; [done|].
    change (has_email (detect_signals html))
      with (0 <? size (emails_found (detect_signals html))).
    by apply size_empty_iff.
  - intros Hfew.
    assert (H : phones_found (detect_signals html) = ∅).
    { apply set_eq. intros p. split; [|by intros ?%elem_of_empty].
      intros (cand & Hocc & <- & Hvalid)%phones_found_from.
      rewrite <- is_valid_phone_of_digits in Hvalid.
      apply PhoneFacts.is_valid_phone_digits in Hvalid as (Hlen & _);
        [|apply PhoneFacts.digits_of_idem].
      apply digits_of_occurs in Hocc. lia. }
    split; [done|].
    change (has_phone (detect_signals html))
      with (0 <? size (phones_found (detect_signals html))).
    by apply size_empty_iff.
Qed.

Lemma detect_signals_nothing_witness :
  (emails_found (detect_signals (Py.s "call 555-1234 now")) = ∅
   ∧ has_email (detect_signals (Py.s "call 555-1234 now")) = false)
  ∧ (phones_found (detect_signals (Py.s "call 555-1234 now")) = ∅
     ∧ has_phone (detect_signals (Py.s "call 555-1234 now")) = false).
Proof.
  destruct (detect_signals_nothing (Py.s "call 555-1234 now")) as [He Hp].
  split.
  - apply He. intros Hin. apply list_elem_of_In in Hin. vm_compute in Hin.
    intuition discriminate.
  - apply Hp. vm_compute. lia.
Defined.

(** *** Keywords *)

Lemma lower_char_idem (c : ascii) : lower_char (lower_char c) = lower_char c.
Proof.
  assert (H : ∀ x, bool_decide (lower_char (lower_char x) = lower_char x)
                   = true)
    by (apply ascii_check; by vm_compute).
  by apply bool_decide_eq_true_1 with (1 := H c).
Qed.

Lemma lower_idem (t : str) : lower (lower t) = lower t.
Proof.
  unfold lower. rewrite map_map. apply map_ext. intros c.
  apply lower_char_idem.
Qed.

Lemma filter_sublist {A} (f : A → bool) (l : list A) :
  List.filter f l `sublist_of` l.
Proof.
  induction l as [|x l IH]; simpl; [done|].
  destruct (f x); [by apply sublist_skip | by apply sublist_cons].
Qed.

(** X8: the keywords reported are keywords of the list, in the order of
    the list and each once; a keyword is reported exactly when it stands in
    the lowercased page, so a page and its lowercase form give the same
    keywords. *)
Theorem keywords_found_spec (html : str) :
  keywords_found (detect_signals html) `sublist_of` KEYWORDS
  ∧ NoDup (keywords_found (detect_signals html))
  ∧ (∀ k, k ∈ keywords_found (detect_signals html)
          ↔ k ∈ KEYWORDS ∧ occurs_in k (lower html))
  ∧ keywords_found (detect_signals (lower html))
    = keywords_found (detect_signals html).
Proof.
  unfold detect_signals. cbn [keywords_found].
  split_and!.
  - apply filter_sublist.
  - eapply sublist_NoDup; [|apply filter_sublist].
    apply (bool_decide_unpack _). by vm_compute.
  - intros k. rewrite list_elem_of_In, filter_In, <- list_elem_of_In.
    by rewrite contains_spec.
  - by rewrite lower_idem.
Qed.

End SignalFacts.

(** ** The marks of the frameworks *)

Module FrameworkFacts.

Import Soup Fetcher Spec PyFacts ReFacts ReSound LocatorFacts SignalFacts.

Lemma occurs_in_trans (a b c : str) :
  occurs_in a b → occurs_in b c → occurs_in a c.
Proof.
  intros (p1 & q1 & ->) (p2 & q2 & ->).
  exists (p2 ++ p1), (q1 ++ q2). by rewrite <- !app_assoc.
Qed.

Lemma contains_occurs (needle hay : str) :
  contains needle hay = true ↔ occurs_in needle hay.
Proof. apply contains_spec. Qed.

Lemma word_matches (u w : str) : Spec.matches (Re.word u) w → w = u.
Proof.
  revert w. induction u as [|c u IH]; intros w; simpl.
  - apply matches_eps_inv.
  - intros (w1 & w2 & -> & ->%matches_lit_inv & ->%IH)%matches_cat_inv. done.
Qed.

Lemma search_from_sound (r : Re.regex) (i : nat) (t : str) (se : nat * nat) :
  Re.search_from r i t = Some se → ∃ w, occurs_in w t ∧ Spec.matches r w.
Proof.
  revert i. induction t as [|c t IH]; intros i; simpl.
  - destruct (Re.match_at r []) as [n|] eqn:E; [|done].
    intros _. apply match_at_sound in E as [_ M].
    exists (take n []). split; [|done]. exists [], []. by rewrite take_nil.
  - destruct (Re.match_at r (c :: t)) as [n|] eqn:E.
    + intros _. apply match_at_sound in E as [Hn M].
      exists (take n (c :: t)). split; [|done].
      exists [], (drop n (c :: t)). by rewrite app_nil_l, take_drop.
    + intros (w & (pre & post & ->) & M)%IH.
      exists w. split; [|done]. by exists (c :: pre), post.
Qed.

(** What [div_root] can match: a div start tag up to its root id. *)
Lemma div_root_shape (w : str) :
  Spec.matches div_root w →
  ∃ mid q1 q2,
    w = Py.s "<div" ++ mid ++ Py.s "id=" ++ [q1] ++ Py.s "root" ++ [q2]
    ∧ mid ≠ [] ∧ (">"%char ∉ mid) ∧ is_quote q1 ∧ is_quote q2.
Proof.
  unfold div_root, Re.cats. cbn [foldr].
  intros (w1 & r1 & -> & ->%word_matches & M)%matches_cat_inv.
  apply matches_cat_inv in M as (mid & r2 & -> & [Hm1 Hm2]%matches_plus_inv & M).
  apply matches_cat_inv in M as (w3 & r3 & -> & ->%word_matches & M).
  apply matches_cat_inv in M as (w4 & r4 & -> & (q1 & -> & Hq1)%matches_chr_inv
                                  & M).
  apply matches_cat_inv in M as (w5 & r5 & -> & ->%word_matches & M).
  apply matches_cat_inv in M as (w6 & r6 & -> & (q2 & -> & Hq2)%matches_chr_inv
                                  & ->%matches_eps_inv).
  exists mid, q1, q2. split_and!.
  - by rewrite app_nil_r.
  - done.
  - intros Hin. rewrite Forall_forall in Hm2. by specialize (Hm2 _ Hin).
  - apply orb_true_iff in Hq1 as [->%bool_decide_eq_true | ->%bool_decide_eq_true];
      [by left | by right].
  - apply orb_true_iff in Hq2 as [->%bool_decide_eq_true | ->%bool_decide_eq_true];
      [by left | by right].
Qed.

Lemma div_root_search (page : str) :
  is_Some (Re.search div_root page) ↔
  ∃ mid q1 q2,
    mid ≠ [] ∧ (">"%char ∉ mid) ∧ is_quote q1 ∧ is_quote q2
    ∧ occurs_in (Py.s "<div" ++ mid ++ Py.s "id=" ++ [q1] ++ Py.s "root"
                 ++ [q2]) page.
Proof.
  split.
  - intros [se (w & Hocc & M)%search_from_sound].
    apply div_root_shape in M as (mid & q1 & q2 & -> & ? & ? & ? & ?).
    by exists mid, q1, q2.
  - intros (mid & q1 & q2 & Hmid & Hgt & Hq1 & Hq2 & pre & post & ->).
    apply search_from_complete.
    pose proof (Framework.div_root_matches mid post q1 q2 Hmid Hgt Hq1 Hq2)
      as H.
    by rewrite <- !app_assoc.
Qed.

(** The names reported are those whose condition holds. *)
Lemma frameworks_detected_marks (html : document) :
  let page := lower (markup html) in
  let found := frameworks_detected (detect_framework html) in
  (Py.s "react" ∈ found ↔ react_marks page = true)
  ∧ (Py.s "vue" ∈ found ↔ vue_marks page = true)
  ∧ (Py.s "angular" ∈ found ↔ angular_marks page = true)
  ∧ (Py.s "nextjs" ∈ found ↔ nextjs_marks page = true).
Proof.
  unfold detect_framework. cbn [frameworks_detected].
  destruct (react_marks _), (vue_marks _), (angular_marks _), (nextjs_marks _);
    cbn [List.filter snd map fst];
    rewrite ?elem_of_cons, ?elem_of_nil;
    split_and!; split; (done || (intros H; by intuition) || by intuition).
Qed.

(** X9: what each framework name stands for.  react: "reactroot",
    "__react" or "react-dom" in the lowercased markup, or a div start tag
    with the id root; vue: id="app", "data-v-", "vue.js" or "vue.runtime";
    angular: "ng-" or "angular.js"; nextjs: "__next", "/_next/" or
    "next.config".  The marks "data-reactroot", "ng-app" and "ng-version"
    of the code add nothing to these. *)
Theorem frameworks_detected_iff (html : document) :
  let page := lower (markup html) in
  let found := frameworks_detected (detect_framework html) in
  (Py.s "react" ∈ found ↔
     occurs_in (Py.s "reactroot") page ∨ occurs_in (Py.s "__react") page
     ∨ occurs_in (Py.s "react-dom") page
     ∨ ∃ mid q1 q2,
         mid ≠ [] ∧ (">"%char ∉ mid) ∧ is_quote q1 ∧ is_quote q2
         ∧ occurs_in (Py.s "<div" ++ mid ++ Py.s "id=" ++ [q1]
                      ++ Py.s "root" ++ [q2]) page)
  ∧ (Py.s "vue" ∈ found ↔
       occurs_in (Py.s "id=" ++ [dq] ++ Py.s "app" ++ [dq]) page
       ∨ occurs_in (Py.s "data-v-") page ∨ occurs_in (Py.s "vue.js") page
       ∨ occurs_in (Py.s "vue.runtime") page)
  ∧ (Py.s "angular" ∈ found ↔
       occurs_in (Py.s "ng-") page ∨ occurs_in (Py.s "angular.js") page)
  ∧ (Py.s "nextjs" ∈ found ↔
       occurs_in (Py.s "__next") page ∨ occurs_in (Py.s "/_next/") page
       ∨ occurs_in (Py.s "next.config") page).
Proof.
  intros page found.
  destruct (frameworks_detected_marks html) as (Hr & Hv & Ha & Hn).
  fold page found in Hr, Hv, Ha, Hn.
  rewrite Hr, Hv, Ha, Hn. clear.
  unfold react_marks, vue_marks, angular_marks, nextjs_marks.
  rewrite !orb_true_iff, !contains_occurs, bool_decide_eq_true, div_root_search.
  assert (Hdata : occurs_in (Py.s "data-reactroot") page
                  → occurs_in (Py.s "reactroot") page).
  { apply occurs_in_trans. by exists (Py.s "data-"), []. }
  assert (Happ : occurs_in (Py.s "ng-app") page → occurs_in (Py.s "ng-") page).
  { apply occurs_in_trans. by exists [], (Py.s "app"). }
  assert (Hver : occurs_in (Py.s "ng-version") page
                 → occurs_in (Py.s "ng-") page).
  { apply occurs_in_trans. by exists [], (Py.s "version"). }
  split_and!; try tauto.
Qed.

(** X10: the names reported come from react, vue, angular, nextjs, in this
    order and each at most once; the page is SPA-like exactly when a name
    is reported and is then not reported as traditional HTML; and pages
    with the same lowercased markup get the same names. *)
Theorem frameworks_detected_names (html : document) :
  let info := detect_framework html in
  frameworks_detected info
    `sublist_of` map Py.s ["react"; "vue"; "angular"; "nextjs"]
  ∧ NoDup (frameworks_detected info)
  ∧ (is_spa_like info = true ↔ frameworks_detected info ≠ [])
  ∧ ¬ (is_spa_like info = true ∧ is_html_traditional info = true)
  ∧ ∀ html', lower (markup html') = lower (markup html) →
      frameworks_detected (detect_framework html') = frameworks_detected info
      ∧ is_spa_like (detect_framework html') = is_spa_like info.
Proof.
  intros info.
  assert (Hsub : frameworks_detected info
                   `sublist_of` map Py.s ["react"; "vue"; "angular"; "nextjs"]).
  { unfold info, detect_framework. cbn [frameworks_detected].
    destruct (react_marks _), (vue_marks _), (angular_marks _),
      (nextjs_marks _); cbn [List.filter snd map fst];
      repeat (first [ apply sublist_nil | apply sublist_skip
                    | apply sublist_cons ]). }
  split_and!.
  - done.
  - eapply sublist_NoDup; [|exact Hsub].
    apply (bool_decide_unpack _). by vm_compute.
  - pose proof (Framework.is_spa_like_frameworks html) as H. fold info in H.
    destruct (is_spa_like info); split; intros H1; try done.
    + intros H2. apply H in H2. done.
    + destruct H1. by apply H.
  - unfold info, detect_framework. cbn [is_spa_like is_html_traditional].
    intros [-> H]. done.
  - intros html' Heq. unfold info, detect_framework.
    cbn [frameworks_detected is_spa_like]. by rewrite Heq.
Qed.

End FrameworkFacts.

(** ** The decoder, further *)

Module DecoderFacts.

Import Cleaner Spec PyFacts LocatorFacts SignalFacts.

Lemma code_of_chr (v : Z) (c : ascii) : chr v = Some c → code c = v.
Proof.
  unfold chr. destruct ((0 <=? v)%Z && (v <? 256)%Z) eqn:E; [|done].
  apply andb_true_iff in E as [H0 H1]. intros [= <-].
  unfold code, ord. rewrite N_ascii_embedding; lia.
Qed.

Lemma mapM_Forall2 {A B} (f : A → option B) (l : list A) (k : list B) :
  mapM f l = Some k → Forall2 (λ x y, f x = Some y) l k.
Proof. intros H. by apply mapM_Some_1. Qed.

(** X11: the decoder gives all or nothing.  Either it returns the empty
    string, or the first chunk of the payload is a number [n], every later
    chunk of two characters (one, at the end of an odd payload) is a number
    [x], and the output holds one character per later chunk, of code
    [x xor n]. *)
Theorem decode_all_or_nothing (cfemail : str) :
  decode_cloudflare_email cfemail = []
  ∨ (length (decode_cloudflare_email cfemail) = (length cfemail + 1) / 2 - 1
     ∧ ∃ n, int16 (take 2 cfemail) = Some n
            ∧ Forall2 (λ chunk c, ∃ x, int16 chunk = Some x
                                       ∧ code c = Z.lxor x n)
                      (chunks2 (drop 2 cfemail))
                      (decode_cloudflare_email cfemail)).
Proof.
  unfold decode_cloudflare_email. rewrite Decoder.decode_try_chunks.
  destruct (int16 (take 2 cfemail)) as [n|] eqn:Hn; cbn [mbind option_bind];
    [|by left].
  destruct (mapM _ _) as [email|] eqn:Hm; [|by left].
  right. split.
  - apply length_mapM in Hm. rewrite <- Hm, Decoder.length_chunks2.
    rewrite length_drop.
    destruct cfemail as [|a [|b t]]; [done | done |].
    cbn [length]. replace (S (S (length t)) - 2) with (length t) by lia.
    replace (S (S (length t)) + 1) with (length t + 1 + 1 * 2) by lia.
    rewrite Nat.div_add by done. lia.
  - exists n. split; [done|].
    apply mapM_Forall2 in Hm. eapply Forall2_impl; [exact Hm|].
    intros chunk c Hc. cbn in Hc.
    destruct (int16 chunk) as [x|]; [|done]. cbn in Hc.
    exists x. split; [done|]. by apply code_of_chr.
Qed.

(** *** Letter case *)

Lemma hexval_lower (c : ascii) : hexval (lower_char c) = hexval c.
Proof.
  assert (H : ∀ x, bool_decide (hexval (lower_char x) = hexval x) = true)
    by (apply ascii_check; by vm_compute).
  by apply bool_decide_eq_true_1 with (1 := H c).
Qed.

Lemma int_blank_lower (c : ascii) : int_blank (lower_char c) = int_blank c.
Proof.
  assert (H : ∀ x, bool_decide (int_blank (lower_char x) = int_blank x) = true)
    by (apply ascii_check; by vm_compute).
  by apply bool_decide_eq_true_1 with (1 := H c).
Qed.

Lemma sign_lower (s c : ascii) :
  s = "+"%char ∨ s = "-"%char →
  bool_decide (lower_char c = s) = bool_decide (c = s).
Proof.
  assert (H : ∀ x, bool_decide
                     (bool_decide (lower_char x = "+"%char)
                        = bool_decide (x = "+"%char)
                      ∧ bool_decide (lower_char x = "-"%char)
                        = bool_decide (x = "-"%char)) = true)
    by (apply ascii_check; by vm_compute).
  pose proof (bool_decide_eq_true_1 _ (H c)) as [H1 H2].
  by intros [->| ->].
Qed.

Lemma int16_lower (chunk : str) : int16 (lower chunk) = int16 chunk.
Proof.
  destruct chunk as [|a [|b [|c t]]]; cbn [lower map int16]; [done | | | done].
  - apply hexval_lower.
  - rewrite !hexval_lower, !int_blank_lower.
    by rewrite (sign_lower "+"%char), (sign_lower "-"%char) by tauto.
Qed.

(** X12: the decoder does not look at the letter case of the payload. *)
Theorem decode_cloudflare_email_lower (cfemail : str) :
  decode_cloudflare_email (lower cfemail) = decode_cloudflare_email cfemail.
Proof.
  unfold decode_cloudflare_email, decode_try, slice, lower.
  rewrite length_map.
  rewrite !skipn_map, !firstn_map.
  change (map lower_char ?t) with (lower t). rewrite int16_lower.
  destruct (int16 _) as [n|]; cbn [mbind option_bind]; [|done].
  rewrite (mapM_ext
             (λ i, x ← int16 (take (i + 2 - i) (drop i (lower cfemail)));
                   chr (Z.lxor x n))
             (λ i, x ← int16 (take (i + 2 - i) (drop i cfemail));
                   chr (Z.lxor x n))); [done|].
  intros i. unfold lower.
  rewrite !skipn_map, !firstn_map.
  change (map lower_char ?t) with (lower t). by rewrite int16_lower.
Qed.

(** *** From the payload back to the payload *)

Lemma hexdigit_hexval (c : ascii) (v : Z) :
  hexval c = Some v → hexdigit false v = lower_char c.
Proof.
  assert (H : ∀ x, match hexval x with
                   | Some u => bool_decide (hexdigit false u = lower_char x)
                   | None => true
                   end = true)
    by (apply ascii_check; by vm_compute).
  intros Hv. specialize (H c). rewrite Hv in H.
  by apply bool_decide_eq_true_1 in H.
Qed.

Lemma hex2_int16 (a b : ascii) :
  is_hex a = true → is_hex b = true →
  ∃ v, int16 [a; b] = Some v ∧ (0 ≤ v < 256)%Z
       ∧ hex2 false v = [lower_char a; lower_char b].
Proof.
  intros [x Hx]%Decoder.hexval_hex [y Hy]%Decoder.hexval_hex.
  exists (16 * x + y)%Z. cbn [int16]. rewrite Hx, Hy.
  pose proof (Decoder.hexval_range _ _ Hx) as Rx.
  pose proof (Decoder.hexval_range _ _ Hy) as Ry.
  split_and!; [done | lia | lia |].
  unfold hex2.
  replace ((16 * x + y) / 16)%Z with x
    by (symmetry; rewrite Z.mul_comm, Z.div_add_l by lia;
        rewrite Z.div_small by lia; lia).
  replace ((16 * x + y) mod 16)%Z with y
    by (symmetry; rewrite Z.add_comm, Z.mul_comm, Z.mod_add by lia;
        by apply Z.mod_small).
  by rewrite (hexdigit_hexval a x), (hexdigit_hexval b y).
Qed.

Lemma decode_pairs (n : Z) (t : str) :
  (0 ≤ n < 256)%Z →
  Forall (λ c, is_hex c = true) t → Nat.even (length t) = true →
  ∃ email,
    mapM (λ chunk, x ← int16 chunk; chr (Z.lxor x n)) (chunks2 t) = Some email
    ∧ flat_map (λ c, hex2 false (Z.lxor (code c) n)) email = lower t.
Proof.
  intros Hn. induction t as [| a | a b t IH] using Decoder.pair_induction.
  - intros _ _. by exists [].
  - done.
  - intros Hall Hev.
    apply Forall_cons in Hall as [Ha Hall].
    apply Forall_cons in Hall as [Hb Hall].
    destruct (IH Hall Hev) as (email & Hm & Hf).
    destruct (hex2_int16 a b Ha Hb) as (v & Hv & Rv & Hh).
    pose proof (Decoder.lxor_byte v n Rv Hn) as Rx.
    set (c := ascii_of_N (Z.to_N (Z.lxor v n))).
    assert (Hc : chr (Z.lxor v n) = Some c).
    { unfold chr.
      replace ((0 <=? Z.lxor v n)%Z && (Z.lxor v n <? 256)%Z) with true
        by (symmetry; apply andb_true_iff; split; lia).
      done. }
    exists (c :: email). split.
    + cbn [chunks2 mapM]. rewrite Hv. cbn [mbind option_bind].
      rewrite Hc. cbn [mbind option_bind]. rewrite Hm. done.
    + cbn [flat_map]. rewrite Hf, (code_of_chr _ _ Hc), Decoder.lxor_cancel, Hh.
      done.
Qed.

(** X13: from a payload of hex digits of even length, the decoder gives
    an email of which the payload is the obfuscation: obfuscated again with
    the key the payload starts with, the email gives the payload back, in
    small letters. *)
Theorem obfuscate_decode (cfemail : str) :
  Forall (λ c, is_hex c = true) cfemail →
  Nat.even (length cfemail) = true →
  cfemail ≠ [] →
  ∃ key, int16 (take 2 cfemail) = Some key ∧ (0 ≤ key < 256)%Z
         ∧ obfuscate false key (decode_cloudflare_email cfemail)
           = lower cfemail.
Proof.
  intros Hall Hev Hne.
  destruct cfemail as [|a [|b t]]; [done | done |].
  apply Forall_cons in Hall as [Ha Hall].
  apply Forall_cons in Hall as [Hb Hall].
  destruct (hex2_int16 a b Ha Hb) as (key & Hkey & Rkey & Hh).
  destruct (decode_pairs key t Rkey Hall Hev) as (email & Hm & Hf).
  exists key. split; [exact Hkey|]. split; [exact Rkey|].
  unfold decode_cloudflare_email. rewrite Decoder.decode_try_chunks.
  change (take 2 (a :: b :: t)) with [a; b].
  change (drop 2 (a :: b :: t)) with t.
  rewrite Hkey. cbn [mbind option_bind]. rewrite Hm.
  unfold obfuscate. by rewrite Hh, Hf.
Qed.

Lemma obfuscate_decode_witness :
  ∃ key, int16 (take 2 (Py.s "422302206C2C2D")) = Some key
         ∧ (0 ≤ key < 256)%Z
         ∧ obfuscate false key (decode_cloudflare_email (Py.s "422302206C2C2D"))
           = Py.s "422302206c2c2d".
Proof.
  apply (obfuscate_decode (Py.s "422302206C2C2D")).
  - apply Forall_forall. intros c Hc. apply list_elem_of_In in Hc.
    vm_compute in Hc. by intuition subst.
  - reflexivity.
  - done.
Defined.

(** *** The two decoders *)

Lemma digit16_hexval (decimal : N → option Z) (c : ascii) :
  (∀ x, (127 ≤ x < 256)%N → decimal x = None) →
  WideCleaner.digit16 decimal (ord c) = hexval c.
Proof.
  intros Hd.
  assert (H : ∀ x, bool_decide (WideCleaner.digit16 (λ _, None) (ord x)
                                = hexval x) = true)
    by (apply ascii_check; by vm_compute).
  rewrite <- (bool_decide_eq_true_1 _ (H c)).
  unfold WideCleaner.digit16. destruct (ord c <? 127)%N eqn:E; [done|].
  destruct (Wide.isspace (ord c)); [done|].
  apply Hd. apply N.ltb_ge in E. split; [done|].
  unfold ord. apply N_ascii_bounded.
Qed.

Lemma wide_int_blank_ord (c : ascii) :
  WideCleaner.int_blank (ord c) = int_blank c.
Proof.
  assert (H : ∀ x, bool_decide (WideCleaner.int_blank (ord x) = int_blank x)
                   = true)
    by (apply ascii_check; by vm_compute).
  exact (bool_decide_eq_true_1 _ (H c)).
Qed.

Lemma wide_sign_ord (c : ascii) :
  (ord c =? WideCleaner.plus_sign)%N = bool_decide (c = "+"%char)
  ∧ (ord c =? WideCleaner.minus_sign)%N = bool_decide (c = "-"%char).
Proof.
  assert (H : ∀ x, bool_decide
                     ((ord x =? WideCleaner.plus_sign)%N
                        = bool_decide (x = "+"%char)
                      ∧ (ord x =? WideCleaner.minus_sign)%N
                        = bool_decide (x = "-"%char)) = true)
    by (apply ascii_check; by vm_compute).
  exact (bool_decide_eq_true_1 _ (H c)).
Qed.

Lemma wide_int16_ord (decimal : N → option Z) (chunk : str) :
  (∀ x, (127 ≤ x < 256)%N → decimal x = None) →
  WideCleaner.int16 decimal (map ord chunk) = int16 chunk.
Proof.
  intros Hd. destruct chunk as [|a [|b [|c t]]]; [done | | | done].
  - apply (digit16_hexval decimal a Hd).
  - cbn [map WideCleaner.int16 int16].
    rewrite !(digit16_hexval decimal _ Hd), !wide_int_blank_ord.
    destruct (wide_sign_ord a) as [-> ->]. done.
Qed.

Lemma wide_slice_ord (i j : nat) (t : str) :
  Wide.slice i j (map ord t) = map ord (slice i j t).
Proof. unfold Wide.slice, slice. by rewrite skipn_map, firstn_map. Qed.

(** On a payload of code points below 256 the decoder for any code
    points is [Cleaner.decode_cloudflare_email]. *)
Lemma wide_decode_latin1 (decimal : N → option Z) (cfemail : str) :
  (∀ x, (127 ≤ x < 256)%N → decimal x = None) →
  WideCleaner.decode_cloudflare_email decimal (map ord cfemail)
  = map ord (decode_cloudflare_email cfemail).
Proof.
  intros Hd.
  unfold WideCleaner.decode_cloudflare_email, WideCleaner.decode_try,
    decode_cloudflare_email, decode_try.
  rewrite length_map, wide_slice_ord, (wide_int16_ord decimal _ Hd).
  destruct (int16 (slice 0 2 cfemail)) as [n|] eqn:Hn;
    cbn [mbind option_bind]; [|done].
  assert (Hmap : ∀ l,
            mapM (λ i, x ← WideCleaner.int16 decimal
                             (Wide.slice i (i + 2) (map ord cfemail));
                       WideCleaner.chr (Z.lxor x n)) l
            = map ord <$> mapM (λ i, x ← int16 (slice i (i + 2) cfemail);
                                     chr (Z.lxor x n)) l).
  { induction l as [|i l IH]; [done|]. cbn [mapM].
    rewrite wide_slice_ord, (wide_int16_ord decimal _ Hd), IH.
    generalize (mapM (λ i, x ← int16 (slice i (i + 2) cfemail);
                           chr (Z.lxor x n)) l).
    intros rest.
    destruct (int16 (slice i (i + 2) cfemail)) as [x|] eqn:Hx;
      cbn [mbind option_bind]; [|done].
    pose proof (Decoder.xor_in_range _ _ _ _ Hx Hn) as Hlt.
    unfold WideCleaner.chr, chr.
    destruct (0 <=? Z.lxor x n)%Z eqn:H0; cbn [andb]; [|done].
    replace (Z.lxor x n <? 1114112)%Z with true
      by (symmetry; apply Z.ltb_lt; lia).
    replace (Z.lxor x n <? 256)%Z with true by (symmetry; by apply Z.ltb_lt).
    cbn [mbind option_bind].
    destruct rest as [k|]; cbn; [|done].
    do 2 f_equal. unfold ord. rewrite N_ascii_embedding; [done|].
    apply Z.leb_le in H0. lia. }
  rewrite Hmap. by destruct (mapM _ _).
Qed.

Lemma unicode_decimal_latin1 (x : N) :
  (127 ≤ x < 256)%N → unicode_decimal x = None.
Proof.
  intros Hx. unfold unicode_decimal.
  destruct (List.find _ decimal_runs) as [first|] eqn:E; [|done].
  apply find_some in E as [Hin E].
  apply andb_true_iff in E as [E1%N.leb_le E2%N.ltb_lt].
  apply list_elem_of_In in Hin. unfold decimal_runs in Hin.
  repeat (apply elem_of_cons in Hin as [->|Hin]; [lia|]).
  by apply elem_of_nil in Hin.
Qed.

End DecoderFacts.

(** ** The batch fetch, further *)

Module BatchFacts.

Import Soup Fetcher Spec.

(** X14: [fetch_multiple] raises in one case only: a list of URLs that is
    not empty together with a worker count that is given and below 1.  An
    empty list returns the empty list whatever the worker count. *)
Theorem fetch_multiple_raises_iff (net : nat → option document)
    (completed : list nat) (urls : list str) (max_workers : option Z) :
  (fetch_multiple net completed urls max_workers = None
   ↔ urls ≠ [] ∧ ∃ w, max_workers = Some w ∧ (w ≤ 0)%Z)
  ∧ fetch_multiple net completed [] max_workers = Some [].
Proof.
  split; [|done].
  unfold fetch_multiple. case_bool_decide as Hurls.
  - split; [done|]. by intros [? _].
  - destruct max_workers as [w|]; cbn [default from_option id].
    + destruct (w <=? 0)%Z eqn:E.
      * apply Z.leb_le in E. split; [|done]. intros _. split; [done|].
        by exists w.
      * apply Z.leb_gt in E. split; [done|].
        intros [_ (w' & [= <-] & Hw)]. lia.
    + destruct urls as [|u us]; [done|].
      replace (Z.min 10 (Z.of_nat (length (u :: us))) <=? 0)%Z with false.
      * split; [done|]. by intros [_ (w & ? & _)].
      * symmetry. apply Z.leb_gt. cbn [length]. lia.
Qed.

Lemma omap_fmap_bind {A B C} (f : A → option B) (g : B → C) (l : list A) :
  g <$> omap f l = omap (λ x, g <$> f x) l.
Proof.
  induction l as [|x l IH]; [done|]. cbn [omap list_omap].
  destruct (f x) as [y|]; cbn; by rewrite IH.
Qed.

(** X15: what [fetch_multiple] returns follows the order in which the
    fetches complete, not the order of the input: the urls of the records
    are those of the futures that got a page, in completion order.  Each
    record holds the page of its own URL, its length, and the signals and
    the framework report of that page. *)
Theorem fetch_multiple_records (net : nat → option document)
    (completed : list nat) (urls : list str) (max_workers : option Z)
    (results : list FetchResult) :
  fetch_multiple net completed urls max_workers = Some results →
  map url results = omap (λ i, _ ← net i; urls !! i) completed
  ∧ Forall (λ r, ∃ i page,
              i ∈ completed ∧ urls !! i = Some (url r)
              ∧ net i = Some page
              ∧ html r = markup page
              ∧ size_ r = length (html r)
              ∧ signals r = detect_signals (html r)
              ∧ framework r = detect_framework page) results.
Proof.
  unfold fetch_multiple. intros Hres. case_bool_decide as Hurls.
  - subst urls. injection Hres as <-. split; [|done].
    induction completed as [|i l IH]; [done|]. cbn [omap list_omap].
    by destruct (net i).
  - destruct (_ <=? 0)%Z; [done|]. injection Hres as <-. split.
    + change (map url ?l) with (url <$> l). rewrite omap_fmap_bind.
      apply list_omap_ext, Forall2_same_length_lookup_2; [done|].
      intros j i i' Hi Hi'. simplify_eq.
      rewrite lookup_map_seq_0.
      destruct (urls !! i) as [u|]; cbn; [|by destruct (net i)].
      by destruct (net i).
    + apply Forall_forall. intros r Hr.
      apply list_elem_of_omap in Hr as (i & Hi & Hr).
      rewrite lookup_map_seq_0 in Hr.
      destruct (urls !! i) as [u|] eqn:Hu; cbn in Hr; [|done].
      destruct (net i) as [page|] eqn:Hp; cbn in Hr; [|done].
      injection Hr as <-. exists i, page. by split_and!.
Qed.

Lemma fetch_multiple_records_witness :
  let net := λ i, if i =? 1 then None else Some plain_page in
  let urls := [Py.s "http://a"; Py.s "http://b"; Py.s "http://c"] in
  ∃ results,
    fetch_multiple net [2; 0; 1] urls None = Some results
    ∧ map url results = [Py.s "http://c"; Py.s "http://a"]
    ∧ Forall (λ r, size_ r = length (html r)) results.
Proof.
  intros net urls.
  destruct (fetch_multiple net [2; 0; 1] urls None) as [results|] eqn:E;
    [|by vm_compute in E].
  destruct (fetch_multiple_records net [2; 0; 1] urls None results E)
    as [Hurl Hall].
  exists results. split_and!; [done | exact Hurl |].
  eapply Forall_impl; [exact Hall|].
  by intros r (i & page & _ & _ & _ & _ & Hsize & _).
Defined.

End BatchFacts.

(** ** The text extractor, further *)

Module CleanerFacts.

Import Soup Cleaner Spec PyFacts ReFacts.

(** *** The shape of the returned text *)

Lemma join_snoc (sep : str) (ls : list str) (l : str) :
  ls ≠ [] → join sep (ls ++ [l]) = join sep ls ++ sep ++ l.
Proof.
  induction ls as [|a [|b ls] IH]; intros Hne; [done | done |].
  change (join sep ((a :: b :: ls) ++ [l]))
    with (a ++ sep ++ join sep ((b :: ls) ++ [l])).
  rewrite IH by done.
  change (join sep (a :: b :: ls)) with (a ++ sep ++ join sep (b :: ls)).
  by rewrite <- !app_assoc.
Qed.

Lemma join_reverse (sep : str) (ls : list str) :
  reverse (join sep ls) = join (reverse sep) (reverse (map reverse ls)).
Proof.
  induction ls as [|a [|b ls] IH]; [done | done |].
  change (join sep (a :: b :: ls)) with (a ++ sep ++ join sep (b :: ls)).
  rewrite !reverse_app, IH.
  change (map reverse (a :: b :: ls))
    with (reverse a :: map reverse (b :: ls)).
  rewrite (reverse_cons _ (reverse a)), join_snoc, <- app_assoc; [done|].
  cbn [map]. rewrite reverse_cons. by intros [_ ?]%app_eq_nil.
Qed.

Lemma clean_line_reverse_head (l : str) :
  clean_line l → ∃ c r, reverse l = c :: r ∧ isspace c = false.
Proof.
  intros (Hne & [_ Hs]%strip_fixed & _).
  destruct (reverse l) as [|c r] eqn:E.
  - apply (f_equal reverse) in E. rewrite reverse_involutive in E. done.
  - exists c, r. split; [done|]. unfold lstrip in Hs.
    by apply drop_while_head in Hs.
Qed.

Lemma join_clean_strip (ls : list str) :
  Forall clean_line ls → strip (join [nl] ls) = join [nl] ls.
Proof.
  intros Hall. destruct ls as [|l ls]; [done|].
  apply strip_fixed. split.
  - apply Forall_cons in Hall as [(Hne & Hs & _) _].
    destruct (Dedup.join_head l ls Hne) as (c & r & r' & -> & ->).
    apply drop_while_id. by eapply strip_head.
  - rewrite join_reverse. change (reverse [nl]) with [nl].
    destruct (reverse (map reverse (l :: ls))) as [|x xs] eqn:E.
    { apply (f_equal reverse) in E. by rewrite reverse_involutive in E. }
    assert (Hx : x ∈ reverse (map reverse (l :: ls))) by (rewrite E; left).
    apply elem_of_reverse, list_elem_of_fmap in Hx as (l0 & -> & Hl0).
    rewrite Forall_forall in Hall. specialize (Hall _ Hl0).
    destruct (clean_line_reverse_head _ Hall) as (c & r & Hr & Hc).
    assert (Hne : reverse l0 ≠ []) by by rewrite Hr.
    destruct (Dedup.join_head (reverse l0) xs Hne) as (c' & r1 & r' & H1 & ->).
    apply drop_while_id. rewrite Hr in H1. by injection H1 as <- _.
Qed.

(** X16: the text [clean_html] returns is in normal form.  It holds no
    tab, no non-breaking space and no two spaces in a row; it neither
    begins nor ends with whitespace; every newline is followed by a
    character that is no whitespace, so no line is empty; the whitespace
    normalization of step 5 leaves it as it is; and unless it is empty, it
    is made of lines that are stripped and not empty. *)
Theorem clean_html_shape (html : document) :
  let out := clean_html html in
  collapsed out = true
  ∧ no_blank_line out = true
  ∧ (nbsp ∉ out)
  ∧ strip out = out
  ∧ normalize out = out
  ∧ (out = [] ∨ Forall clean_line (split nl out)).
Proof.
  intros out.
  set (ls := keep_first ∅ (text_lines (normalize (extracted_text html)))).
  assert (Hout : out = join [nl] ls).
  { unfold out, clean_html, normalize_dedup. by rewrite Dedup.dedup_keep_first. }
  assert (Hall : Forall clean_line ls).
  { eapply Dedup.sublist_Forall; [apply Dedup.keep_first_sublist|].
    apply Dedup.text_lines_clean. }
  rewrite Hout. split_and!.
  - apply Dedup.collapsed_join. eapply Forall_impl; [exact Hall|].
    by intros l (_ & _ & _ & _ & H).
  - by apply Dedup.no_blank_line_join.
  - intros [Hin|(l & Hl & Hin)]%Dedup.join_elem.
    + apply list_elem_of_singleton in Hin. done.
    + rewrite Forall_forall in Hall.
      by destruct (Hall _ Hl) as (_ & _ & _ & H & _).
  - by apply join_clean_strip.
  - by apply Dedup.normalize_join.
  - destruct ls as [|l ls']; [by left|]. right.
    rewrite split_join; [done | done |].
    eapply Forall_impl; [exact Hall|]. by intros l0 (_ & _ & H & _).
Qed.

(** *** The tree after the removals *)

Lemma elem_of_all_nodes (m : node) (roots : list node) :
  m ∈ all_nodes roots ↔ ∃ c, c ∈ roots ∧ (m = c ∨ m ∈ descendants c).
Proof.
  unfold all_nodes. rewrite list_elem_of_In, in_flat_map. split.
  - intros (c & Hc & Hm). exists c. rewrite list_elem_of_In. split; [done|].
    destruct Hm as [->|Hm]; [by left|]. right. by apply list_elem_of_In.
  - intros (c & Hc & Hm). exists c. rewrite <- list_elem_of_In.
    split; [done|]. destruct Hm as [->|Hm]; [by left|].
    right. by apply list_elem_of_In.
Qed.

Lemma elem_of_flat_map {A B} (f : A → list B) (l : list A) (y : B) :
  y ∈ flat_map f l ↔ ∃ x, x ∈ l ∧ y ∈ f x.
Proof.
  rewrite list_elem_of_In, in_flat_map. split.
  - intros (x & Hx & Hy). exists x. by rewrite !list_elem_of_In.
  - intros (x & Hx & Hy). exists x. by rewrite <- !list_elem_of_In.
Qed.

Lemma all_nodes_singleton (n m : node) :
  m ∈ all_nodes [n] ↔ m = n ∨ m ∈ descendants n.
Proof.
  rewrite elem_of_all_nodes. split.
  - by intros (c & ->%list_elem_of_singleton & H).
  - intros H. exists n. split; [left | done].
Qed.

Lemma origin_refl (Q : node → bool) (roots : list node) : origin Q roots roots.
Proof. intros m Hm HQ. by exists m. Qed.

Lemma origin_trans (Q : node → bool) (r1 r2 r3 : list node) :
  origin Q r1 r2 → origin Q r2 r3 → origin Q r1 r3.
Proof.
  intros H12 H23 m Hm HQ. destruct (H23 m Hm HQ) as (m' & Hm' & HQ').
  by apply (H12 m').
Qed.

(** A transformation of the nodes one by one, lifted to the roots. *)
Lemma origin_flat_map (Q : node → bool) (f : node → list node)
    (roots : list node) :
  (∀ n, n ∈ roots → origin Q [n] (f n)) → origin Q roots (flat_map f roots).
Proof.
  intros Hf m Hm HQ.
  apply elem_of_all_nodes in Hm as (c & Hc & Hm).
  apply elem_of_flat_map in Hc as (n & Hn & Hc).
  destruct (Hf n Hn m) as (m' & Hm' & HQ'); [|done|].
  { apply elem_of_all_nodes. by exists c. }
  exists m'. split; [|done].
  apply all_nodes_singleton in Hm'. apply elem_of_all_nodes. by exists n.
Qed.

Lemma origin_map (Q : node → bool) (f : node → node) (roots : list node) :
  (∀ n, n ∈ roots → origin Q [n] [f n]) → origin Q roots (map f roots).
Proof.
  intros Hf.
  assert (Heq : map f roots = flat_map (λ n, [f n]) roots).
  { clear. induction roots as [|c roots IH]; [done|]. cbn. by rewrite IH. }
  rewrite Heq. by apply origin_flat_map.
Qed.

(** From the contents to the tag. *)
Lemma origin_tag (Q : node → bool) (name : str) (attrs attrs' : gmap str str)
    (cs cs' : list node) :
  Q (Tag name attrs' cs') = Q (Tag name attrs cs) →
  origin Q cs cs' →
  origin Q [Tag name attrs cs] [Tag name attrs' cs'].
Proof.
  intros HQ Hcs m Hm Hm'.
  apply all_nodes_singleton in Hm as [->|Hm].
  - exists (Tag name attrs cs). split.
    + apply all_nodes_singleton. by left.
    + by rewrite <- HQ.
  - destruct (Hcs m Hm Hm') as (m' & H1 & H2).
    exists m'. split; [|done]. apply all_nodes_singleton. by right.
Qed.

(** Pruning makes no node. *)
Lemma origin_prune (Q : node → bool) (gone : node → bool) (n : node) :
  ignores_contents Q → origin Q [n] (prune gone n).
Proof.
  intros HQ. induction n as [name attrs cs IH | t | t | t]
    using Framework.node_induction.
  - cbn [prune]. destruct (gone _); [by intros m Hm%elem_of_nil|].
    apply origin_tag; [apply HQ|].
    apply origin_flat_map. intros c Hc.
    rewrite Forall_forall in IH. by apply IH.
  - cbn [prune]. destruct (gone _); [by intros m Hm%elem_of_nil|].
    apply origin_refl.
  - cbn [prune]. destruct (gone _); [by intros m Hm%elem_of_nil|].
    apply origin_refl.
  - cbn [prune]. destruct (gone _); [by intros m Hm%elem_of_nil|].
    apply origin_refl.
Qed.

(** What is pruned is no longer there. *)
Lemma prune_gone (gone : node → bool) (n m : node) :
  ignores_contents gone → m ∈ all_nodes (prune gone n) → gone m = false.
Proof.
  intros Hg. revert m. induction n as [name attrs cs IH | t | t | t]
    using Framework.node_induction; intros m.
  - cbn [prune]. destruct (gone (Tag name attrs cs)) eqn:E;
      [by intros ?%elem_of_nil|].
    intros [->|Hm]%all_nodes_singleton.
    + by rewrite (Hg name attrs _ cs).
    + apply elem_of_all_nodes in Hm as (c & Hc & Hm).
      apply elem_of_flat_map in Hc as (c0 & Hc0 & Hc).
      rewrite Forall_forall in IH. apply (IH c0 Hc0).
      apply elem_of_all_nodes. by exists c.
  - cbn [prune]. destruct (gone (NavigableString t)) eqn:E;
      [by intros ?%elem_of_nil|].
    by intros [->|?%elem_of_nil]%all_nodes_singleton.
  - cbn [prune]. destruct (gone (Comment t)) eqn:E;
      [by intros ?%elem_of_nil|].
    by intros [->|?%elem_of_nil]%all_nodes_singleton.
  - cbn [prune]. destruct (gone (OtherString t)) eqn:E;
      [by intros ?%elem_of_nil|].
    by intros [->|?%elem_of_nil]%all_nodes_singleton.
Qed.

Lemma prune_gone_roots (gone : node → bool) (roots : list node) (m : node) :
  ignores_contents gone → m ∈ all_nodes (flat_map (prune gone) roots) →
  gone m = false.
Proof.
  intros Hg Hm. apply elem_of_all_nodes in Hm as (c & Hc & Hm).
  apply elem_of_flat_map in Hc as (n & Hn & Hc).
  apply (prune_gone gone n m Hg). apply elem_of_all_nodes. by exists c.
Qed.

(** The decoding steps put strings in, and no tag or comment. *)
Lemma origin_decode_cfemail_tags (Q : node → bool) (n : node) :
  by_name Q → origin Q [n] [decode_cfemail_tags n].
Proof.
  intros [HQ HS]. induction n as [name attrs cs IH | t | t | t]
    using Framework.node_induction; [|apply origin_refl..].
  assert (Hsame : origin Q [Tag name attrs cs]
                    [Tag name attrs (map decode_cfemail_tags cs)]).
  { apply origin_tag; [apply HQ|]. apply origin_map. intros c Hc.
    rewrite Forall_forall in IH. by apply IH. }
  cbn [decode_cfemail_tags].
  destruct (attrs !! Py.s "data-cfemail") as [cf|]; [|done].
  case_bool_decide; [done|].
  apply origin_tag; [apply HQ|].
  intros m [->|[]%elem_of_nil]%all_nodes_singleton. by rewrite HS.
Qed.

Lemma origin_decode_protected_links (Q : node → bool) (n : node) :
  by_name Q → origin Q [n] [decode_protected_links n].
Proof.
  intros [HQ HS]. induction n as [name attrs cs IH | t | t | t]
    using Framework.node_induction; [|apply origin_refl..].
  assert (Hsame : origin Q [Tag name attrs cs]
                    [Tag name attrs (map decode_protected_links cs)]).
  { apply origin_tag; [apply HQ|]. apply origin_map. intros c Hc.
    rewrite Forall_forall in IH. by apply IH. }
  cbn [decode_protected_links].
  case_bool_decide; [|done].
  destruct (attrs !! Py.s "href") as [href|]; [|done].
  destruct (contains protection_marker href); [|done].
  case_bool_decide; [done|].
  apply origin_tag; [apply HQ|].
  intros m [->|[]%elem_of_nil]%all_nodes_singleton. by rewrite HS.
Qed.

Lemma by_name_ignores (Q : node → bool) : by_name Q → ignores_contents Q.
Proof. intros [HQ _] name attrs cs cs'. apply HQ. Qed.

Lemma by_name_is_tag (names : list str) : by_name (is_tag names).
Proof. by split. Qed.

Lemma by_name_is_comment : by_name is_comment.
Proof. by split. Qed.

Lemma ignores_is_hidden : ignores_contents is_hidden.
Proof. by intros name attrs cs cs'. Qed.

(** Steps 1 to 3 make no tag and no comment. *)
Lemma origin_cleaned_tree (Q : node → bool) (html : document) :
  by_name Q → origin Q (soup html) (cleaned_tree html).
Proof.
  intros HQ. pose proof (by_name_ignores Q HQ) as HI.
  unfold cleaned_tree, remove_noise.
  eapply origin_trans; [|apply origin_flat_map; intros; by apply origin_prune].
  eapply origin_trans;
    [|apply origin_map; intros; by apply origin_decode_protected_links].
  eapply origin_trans;
    [|apply origin_map; intros; by apply origin_decode_cfemail_tags].
  eapply origin_trans; [|apply origin_flat_map; intros; by apply origin_prune].
  apply origin_flat_map; intros; by apply origin_prune.
Qed.

Lemma find_all_nil (names : list str) (roots : list node) :
  find_all names roots = []
  ↔ ∀ m, m ∈ all_nodes roots → is_tag names m = false.
Proof.
  unfold find_all. split.
  - intros H m Hm. destruct (is_tag names m) eqn:E; [|done].
    assert (Hin : m ∈ List.filter (is_tag names) (all_nodes roots)).
    { apply list_elem_of_In, filter_In. by rewrite <- list_elem_of_In. }
    rewrite H in Hin. by apply elem_of_nil in Hin.
  - intros H. destruct (List.filter _ _) as [|m l] eqn:E; [done|].
    assert (Hin : m ∈ List.filter (is_tag names) (all_nodes roots))
      by (rewrite E; left).
    apply list_elem_of_In, filter_In in Hin as [Hin Hm].
    apply list_elem_of_In, H in Hin. congruence.
Qed.

Lemma absent_origin (Q : node → bool) (roots roots' : list node) :
  origin Q roots roots' →
  (∀ m, m ∈ all_nodes roots → Q m = false) →
  ∀ m, m ∈ all_nodes roots' → Q m = false.
Proof.
  intros Ho Habs m Hm. destruct (Q m) eqn:E; [|done].
  destruct (Ho m Hm E) as (m' & Hm' & HQ'). rewrite Habs in HQ'; done.
Qed.

Lemma extracted_text_cleaned (html : document) :
  extracted_text html = join [nl] (extract_lines (cleaned_tree html)).
Proof. reflexivity. Qed.

(** X17: the lines are read from a tree that holds no script, style or
    noscript element, no comment and no element hidden by its style; and
    steps 1 to 3 make no element: a tag name that is not in the page is not
    in this tree either. *)
Theorem cleaned_tree_clean (html : document) :
  extracted_text html = join [nl] (extract_lines (cleaned_tree html))
  ∧ (∀ m, m ∈ all_nodes (cleaned_tree html) →
          is_tag (map Py.s ["script"; "style"; "noscript"]) m = false
          ∧ is_comment m = false
          ∧ is_hidden m = false)
  ∧ (∀ names, find_all names (soup html) = [] →
              find_all names (cleaned_tree html) = []).
Proof.
  split; [done|]. split.
  - intros m Hm.
    set (noise := is_tag (map Py.s ["script"; "style"; "noscript"])).
    set (r1 := flat_map (prune noise) (soup html)).
    set (r2 := flat_map (prune is_comment) r1).
    set (r3 := map decode_cfemail_tags r2).
    set (r4 := map decode_protected_links r3).
    assert (Hnoise : by_name noise) by apply by_name_is_tag.
    pose proof by_name_is_comment as Hcomment.
    assert (Hstep : ∀ Q, by_name Q → origin Q r2 (cleaned_tree html)).
    { intros Q HQ. pose proof (by_name_ignores Q HQ) as HI.
      unfold cleaned_tree, remove_noise. fold noise r1 r2 r3 r4.
      eapply origin_trans;
        [|apply origin_flat_map; intros; by apply origin_prune].
      eapply origin_trans;
        [|apply origin_map; intros; by apply origin_decode_protected_links].
      apply origin_map; intros; by apply origin_decode_cfemail_tags. }
    split_and!.
    + apply (absent_origin noise r1 (cleaned_tree html)); [| |done].
      * eapply origin_trans; [|by apply Hstep].
        apply origin_flat_map; intros.
        by apply origin_prune, by_name_ignores.
      * intros m' Hm'. eapply prune_gone_roots; [|exact Hm'].
        by apply by_name_ignores.
    + apply (absent_origin is_comment r2 (cleaned_tree html)); [| |done].
      * by apply Hstep.
      * intros m' Hm'. eapply prune_gone_roots; [|exact Hm'].
        by apply by_name_ignores.
    + eapply prune_gone_roots; [apply ignores_is_hidden | exact Hm].
  - intros names Hnone. apply find_all_nil.
    apply (absent_origin _ (soup html)).
    + apply origin_cleaned_tree, by_name_is_tag.
    + by apply find_all_nil.
Qed.

Lemma cleaned_tree_clean_witness :
  find_all content_tags (cleaned_tree (of_text (Py.s "hello"))) = [].
Proof.
  by apply (proj2 (proj2 (cleaned_tree_clean (of_text (Py.s "hello"))))).
Defined.

(** X18: a page without h1, h2, h3, h4, p, li and a elements gives the
    empty text, whatever else it holds. *)
Theorem clean_html_no_content (html : document) :
  find_all content_tags (soup html) = [] → clean_html html = [].
Proof.
  intros Hnone.
  assert (H : find_all content_tags (cleaned_tree html) = []).
  { apply find_all_nil. apply (absent_origin _ (soup html)).
    - apply origin_cleaned_tree, by_name_is_tag.
    - by apply find_all_nil. }
  unfold clean_html.
  change (extracted_text html) with (join [nl] (extract_lines (cleaned_tree html))).
  unfold extract_lines. by rewrite H.
Qed.

Lemma clean_html_no_content_witness :
  clean_html
    {| markup := Py.s "<div>hello <b>you</b></div>";
       soup := [Tag (Py.s "div") ∅
                  [NavigableString (Py.s "hello ");
                   Tag (Py.s "b") ∅ [NavigableString (Py.s "you")]]] |} = [].
Proof. by apply clean_html_no_content. Defined.

(** *** A protected mail link, from the tree to the text *)

Lemma split_app_sep (sep : ascii) (a b : str) :
  split sep (a ++ sep :: b) = split sep a ++ split sep b.
Proof.
  induction a as [|c a IH]; cbn [app split].
  - by destruct (decide (sep = sep)).
  - destruct (decide (c = sep)); [by rewrite IH|].
    rewrite IH. pose proof (split_nonempty sep a).
    by destruct (split sep a).
Qed.

Lemma last_split (sep : ascii) (a b : str) :
  sep ∉ b → List.last (split sep (a ++ sep :: b)) [] = b.
Proof.
  intros Hb. rewrite split_app_sep, (split_no_sep sep b Hb).
  apply last_last.
Qed.

Lemma decoded_literal (cfemail : str) (c : ascii) :
  decode_cloudflare_email cfemail ≠ [] → c ∈ cfemail → literal_char c = true.
Proof.
  intros Hne Hc. destruct (literal_char c) eqn:E; [done|].
  destruct Hne. unfold decode_cloudflare_email.
  destruct (Decoder.chunks2_cover cfemail c Hc) as (chunk & Hchunk & Hin).
  by rewrite (Decoder.decode_try_refused cfemail chunk Hchunk
                (Decoder.int16_refuses chunk c Hin E)).
Qed.

Lemma strip_no_space (t : str) :
  Forall (λ c, isspace c = false) t → strip t = t.
Proof.
  intros Hall. apply strip_fixed. split; apply drop_while_id.
  - destruct t as [|c t]; [done|]. by apply Forall_cons in Hall as [? _].
  - destruct (reverse t) as [|c r] eqn:E; [done|].
    rewrite Forall_forall in Hall. apply Hall, elem_of_reverse.
    rewrite E. left.
Qed.

Lemma sub_spaces_none (t : str) :
  Forall (λ c, isspace c = false) t →
  Re.sub (Re.Plus Re.cls_s) (Py.s " ") t = t.
Proof.
  intros Hall. apply sub_no_match. intros i.
  destruct (drop i t) as [|c u] eqn:E; [apply match_at_Plus_nil|].
  rewrite match_at_Plus.
  assert (Hc : c ∈ t).
  { rewrite <- (take_drop i t), E. apply elem_of_app. right. left. }
  rewrite Forall_forall in Hall. unfold Re.cls_s. by rewrite (Hall c Hc).
Qed.

Lemma contains_length (needle hay : str) :
  contains needle hay = true → length needle ≤ length hay.
Proof.
  intros (pre & post & ->)%contains_spec. rewrite !length_app. lia.
Qed.

Lemma collapsed_no_blank (a b : str) :
  Forall (λ c, blank c = false) a →
  match b with d :: _ => blank d = false | [] => True end →
  collapsed b = true → collapsed (a ++ b) = true.
Proof.
  intros Ha Hb Hcb. induction a as [|c a IH]; [done|].
  apply Forall_cons in Ha as [Hc Ha]. cbn [app collapsed].
  rewrite Hc. by apply IH.
Qed.

Lemma space_blank (c : ascii) : isspace c = false → blank c = false.
Proof.
  assert (H : ∀ x, implb (negb (isspace x)) (negb (blank x)) = true)
    by (apply LocatorFacts.ascii_check; by vm_compute).
  intros Hc. specialize (H c). rewrite Hc in H. cbn in H.
  by destruct (blank c).
Qed.

Lemma collapsed_cons_no_blank (c : ascii) (t : str) :
  blank c = false → collapsed (c :: t) = collapsed t.
Proof. intros H. cbn [collapsed]. by rewrite H. Qed.

Lemma collapsed_cons_space (d : ascii) (t : str) :
  blank d = false → collapsed (" "%char :: d :: t) = collapsed (d :: t).
Proof.
  intros H. cbn [collapsed]. rewrite H.
  by replace (blank " ") with true by done.
Qed.

Lemma collapsed_all_no_blank (a : str) :
  Forall (λ c, blank c = false) a → collapsed a = true.
Proof.
  intros Ha. rewrite <- (app_nil_r a). by apply collapsed_no_blank.
Qed.

Lemma collapsed_app (a b : str) :
  collapsed a = true → collapsed b = true →
  match b with d :: _ => blank d = false | [] => True end →
  collapsed (a ++ b) = true.
Proof.
  intros Ha Hb Hd. induction a as [|c a IH]; [done|].
  cbn [collapsed] in Ha. apply andb_true_iff in Ha as [Hc Ha].
  cbn [app collapsed]. rewrite (IH Ha), andb_true_r.
  destruct (blank c); [|done].
  apply andb_true_iff in Hc as [-> Hc]. cbn [andb].
  destruct a as [|e a]; [|done]. cbn [app].
  destruct b as [|d b]; [done|]. by rewrite Hd.
Qed.

Lemma ends_reverse (t r : str) (c : ascii) :
  t = r ++ [c] → reverse t = c :: reverse r.
Proof. intros ->. by rewrite reverse_app. Qed.

(** A string that begins and ends with a character that is no whitespace
    is stripped. *)
Lemma strip_ends (t : str) :
  match t with c :: _ => isspace c = false | [] => True end →
  match reverse t with c :: _ => isspace c = false | [] => True end →
  strip t = t.
Proof. intros H1 H2. apply strip_fixed. split; by apply drop_while_id. Qed.

Lemma stripped_ends (t : str) :
  t ≠ [] → strip t = t →
  (∃ c r, t = c :: r ∧ isspace c = false)
  ∧ ∃ c r, reverse t = c :: r ∧ isspace c = false.
Proof.
  intros Hne [H1 H2]%strip_fixed. unfold lstrip in *. split.
  - destruct t as [|c r]; [done|]. exists c, r. split; [done|].
    by apply drop_while_head in H1.
  - destruct (reverse t) as [|c r] eqn:E.
    { apply (f_equal reverse) in E. by rewrite reverse_involutive in E. }
    exists c, r. split; [done|]. by apply drop_while_head in H2.
Qed.

Lemma clean_line_no_space (t : str) :
  t ≠ [] → Forall (λ c, isspace c = false) t → clean_line t.
Proof.
  intros Hne Hall. rewrite Forall_forall in Hall. split_and!.
  - done.
  - by apply strip_no_space, Forall_forall.
  - intros Hin. by apply Hall in Hin.
  - intros Hin. by apply Hall in Hin.
  - apply collapsed_all_no_blank, Forall_forall.
    intros c Hc. by apply space_blank, Hall.
Qed.

(** A line and its link. *)
Lemma link_line (text href : str) :
  clean_line text → href ≠ [] → Forall (λ c, isspace c = false) href →
  clean_line (text ++ Py.s ": " ++ href).
Proof.
  intros (Hne & Hs & Hnl & Hnb & Hc) Hh Hall.
  destruct (clean_line_no_space href Hh Hall) as (_ & Hs' & Hnl' & Hnb' & Hc').
  destruct (stripped_ends text Hne Hs) as [(c & r & -> & Hc1) _].
  destruct (stripped_ends href Hh Hs') as [(d & r' & Hd & Hd1) (e & r2 & He & He1)].
  split_and!.
  - done.
  - apply strip_ends; [done|].
    rewrite !reverse_app, He. done.
  - intros [Hin|[Hin|Hin]%elem_of_app]%elem_of_app; [done| |done].
    apply list_elem_of_In in Hin. cbn in Hin. by intuition.
  - intros [Hin|[Hin|Hin]%elem_of_app]%elem_of_app; [done| |done].
    apply list_elem_of_In in Hin. cbn in Hin. by intuition.
  - apply collapsed_app; [done | | done].
    rewrite Hd in *.
    change (Py.s ": " ++ d :: r') with (":"%char :: " "%char :: d :: r').
    rewrite collapsed_cons_no_blank, collapsed_cons_space; [done | | done].
    by apply space_blank.
Qed.

(** The line of a mail link. *)
Lemma mailto_line (email : str) :
  email ≠ [] → Forall (λ c, isspace c = false) email →
  clean_line (email ++ Py.s ": mailto:" ++ email).
Proof.
  intros Hne Hall.
  apply (link_line email (Py.s "mailto:" ++ email)); [|done|].
  - by apply clean_line_no_space.
  - apply Forall_app. split; [|done].
    apply Forall_forall. intros c Hc. apply list_elem_of_In in Hc.
    cbn in Hc. by repeat (destruct Hc as [<-|Hc]; [done|]).
Qed.

Lemma prune_kept (gone : node → bool) (name : str) (attrs : gmap str str)
    (cs : list node) :
  gone (Tag name attrs cs) = false →
  prune gone (Tag name attrs cs)
  = [Tag name attrs (flat_map (prune gone) cs)].
Proof. intros H. cbn [prune]. by rewrite H. Qed.

Lemma decode_cfemail_tags_tag (name : str) (attrs : gmap str str)
    (cs : list node) :
  ∃ cs', decode_cfemail_tags (Tag name attrs cs) = Tag name attrs cs'.
Proof.
  cbn [decode_cfemail_tags].
  destruct (attrs !! Py.s "data-cfemail") as [cf|]; [|by eexists].
  case_bool_decide; by eexists.
Qed.

(** X19: a mail link protected by Cloudflare comes out as the address and
    its mailto link.  When the page is one link whose href holds
    "/cdn-cgi/l/email-protection#" followed by a payload, the payload
    decodes to an address of 3 characters or more without whitespace, and
    no style attribute hides the link, [clean_html] returns the address,
    ": mailto:" and the address again, whatever the link held. *)
Theorem clean_html_protected_link (page : str) (attrs : gmap str str)
    (cs : list node) (prefix payload : str) :
  let email := decode_cloudflare_email payload in
  attrs !! Py.s "href" = Some (prefix ++ protection_marker ++ payload) →
  attrs !! Py.s "style" = None →
  3 ≤ length email → Forall (λ c, isspace c = false) email →
  clean_html {| markup := page; soup := [Tag (Py.s "a") attrs cs] |}
  = email ++ Py.s ": mailto:" ++ email.
Proof.
  intros email Hhref Hstyle Hlen Hall.
  assert (Hne : email ≠ []) by (destruct email; [cbn in Hlen; lia | done]).
  set (line := email ++ Py.s ": mailto:" ++ email).
  set (attrs' := <[Py.s "href" := Py.s "mailto:" ++ email]> attrs).
  assert (Htree : cleaned_tree {| markup := page;
                                  soup := [Tag (Py.s "a") attrs cs] |}
                  = [Tag (Py.s "a") attrs' [NavigableString email]]).
  { unfold cleaned_tree, remove_noise. cbn [soup flat_map].
    rewrite prune_kept by done. cbn [app flat_map].
    rewrite prune_kept by done. cbn [app map].
    destruct (decode_cfemail_tags_tag (Py.s "a") attrs
                (flat_map (prune is_comment)
                   (flat_map (prune (is_tag [Py.s "script"; Py.s "style";
                                             Py.s "noscript"])) cs)))
      as [cs' ->].
    cbn [decode_protected_links].
    rewrite bool_decide_eq_true_2 by done. rewrite Hhref.
    replace (contains protection_marker
               (prefix ++ protection_marker ++ payload)) with true
      by (symmetry; apply contains_spec; by exists prefix, payload).
    assert (Hhash : List.last (split "#"%char
                                 (prefix ++ protection_marker ++ payload)) []
                    = payload).
    { change protection_marker
        with (Py.s "/cdn-cgi/l/email-protection" ++ ["#"%char]).
      rewrite <- (app_assoc _ ["#"%char]), app_assoc. cbn [app].
      apply last_split. intros Hin.
      by pose proof (decoded_literal payload _ Hne Hin). }
    rewrite Hhash. fold email. rewrite bool_decide_eq_false_2 by done.
    fold attrs'. cbn [flat_map]. rewrite prune_kept; [done|].
    cbn [is_hidden]. unfold attrs'.
    by rewrite lookup_insert_ne, Hstyle. }
  assert (Hline : line_of (Tag (Py.s "a") attrs' [NavigableString email])
                  = Some line).
  { assert (Htext : get_text (Py.s " ")
                      (Tag (Py.s "a") attrs' [NavigableString email]) = email).
    { unfold get_text. cbn [strings flat_map app map].
      rewrite (strip_no_space email Hall). cbn [List.filter].
      by rewrite (bool_decide_eq_false_2 (email = [])) by done. }
    unfold line_of. rewrite Htext.
    rewrite (bool_decide_eq_false_2 (email = [])) by done.
    rewrite (sub_spaces_none email Hall).
    replace (length email <? 3) with false
      by (symmetry; apply Nat.ltb_ge; lia).
    rewrite bool_decide_eq_true_2 by done.
    unfold attrs'. rewrite lookup_insert_eq.
    assert (Hs : strip (Py.s "mailto:" ++ email) = Py.s "mailto:" ++ email).
    { apply strip_no_space, Forall_app. split; [|done].
      apply Forall_forall. intros c Hc. apply list_elem_of_In in Hc.
      cbn in Hc. by repeat (destruct Hc as [<-|Hc]; [done|]). }
    rewrite Hs.
    destruct (contains (Py.s "mailto:" ++ email) email) eqn:E; [|done].
    apply contains_length in E. rewrite length_app in E. cbn in E. lia. }
  unfold clean_html.
  rewrite extracted_text_cleaned, Htree.
  unfold extract_lines, find_all.
  cbn [all_nodes flat_map descendants app List.filter is_tag].
  rewrite bool_decide_eq_true_2
    by (apply list_elem_of_In; vm_compute; tauto).
  cbn [omap list_omap]. rewrite Hline.
  apply (Dedup.normalize_dedup_fixed [line]).
  - constructor; [|done]. by apply mailto_line.
  - apply NoDup_singleton.
Qed.

Lemma clean_html_protected_link_witness :
  clean_html
    {| markup := Py.s "<a href=/cdn-cgi/l/email-protection#422302206c2c2d>x</a>";
       soup := [Tag (Py.s "a")
                  {[ Py.s "href" :=
                       Py.s "/cdn-cgi/l/email-protection#422302206c2c2d" ]}
                  [NavigableString (Py.s "x")]] |}
  = Py.s "a@b.no: mailto:a@b.no".
Proof.
  apply (clean_html_protected_link _ _ _ [] (Py.s "422302206c2c2d")).
  - done.
  - done.
  - vm_compute. lia.
  - apply Forall_forall. intros c Hc. apply list_elem_of_In in Hc.
    vm_compute in Hc. by intuition subst.
Defined.

(** *** The lines read from the elements *)

Lemma sub_spaces_cons (c : ascii) (t : str) :
  Re.sub (Re.Plus Re.cls_s) (Py.s " ") (c :: t) =
    if isspace c
    then " "%char
         :: Re.sub (Re.Plus Re.cls_s) (Py.s " ") (drop_while isspace t)
    else c :: Re.sub (Re.Plus Re.cls_s) (Py.s " ") t.
Proof.
  unfold Re.sub. rewrite sub_go_cons, match_at_Plus.
  change (Re.cls_s c) with (isspace c).
  destruct (isspace c); [|done].
  destruct (drop_while_suffix isspace t) as [pre Hpre].
  simpl. do 2 f_equal.
  change (drop_while Re.cls_s t) with (drop_while isspace t).
  revert Hpre. generalize (drop_while isspace t). intros u ->.
  rewrite length_app.
  replace (length pre + length u - length u) with (length pre) by lia.
  apply drop_app_length.
Qed.

Lemma squeeze_space (c : ascii) (t : str) :
  isspace c = true →
  squeeze (c :: t) = " "%char :: squeeze (drop_while isspace t).
Proof.
  revert c. induction t as [|d t IH]; intros c Hc.
  - cbn [squeeze]. by rewrite Hc.
  - cbn [squeeze drop_while]. rewrite Hc.
    destruct (isspace d) eqn:Hd.
    + specialize (IH d Hd). cbn [squeeze] in IH. by rewrite Hd in IH.
    + cbn [squeeze]. by rewrite Hd.
Qed.

(** [re.sub(r"\s+", " ", text)] *)
Lemma sub_spaces_squeeze (t : str) :
  Re.sub (Re.Plus Re.cls_s) (Py.s " ") t = squeeze t.
Proof.
  remember (length t) as n eqn:Hn. revert t Hn.
  induction n as [n IH] using lt_wf_ind. intros [|c t] Hn; [done|].
  cbn [length] in Hn. rewrite sub_spaces_cons.
  destruct (isspace c) eqn:Hc.
  - rewrite (squeeze_space c t Hc).
    destruct (drop_while_suffix isspace t) as [pre Hpre].
    apply (f_equal length) in Hpre. rewrite length_app in Hpre.
    f_equal. apply (IH (length (drop_while isspace t))); [lia | done].
  - cbn [squeeze]. rewrite Hc. f_equal. apply (IH (length t)); [lia | done].
Qed.

Lemma squeeze_elem (t : str) (c : ascii) :
  c ∈ squeeze t → isspace c = true → c = " "%char.
Proof.
  induction t as [|d t IH]; [by intros ?%elem_of_nil|].
  cbn [squeeze]. destruct (isspace d) eqn:Hd.
  - destruct t as [|e t].
    + by intros ->%list_elem_of_singleton.
    + destruct (isspace e); [done|].
      intros [->|Hin]%elem_of_cons; [done | by apply IH].
  - intros [->|Hin]%elem_of_cons Hc; [congruence | by apply IH].
Qed.

Lemma squeeze_head (d : ascii) (t : str) :
  isspace d = false → squeeze (d :: t) = d :: squeeze t.
Proof. intros Hd. cbn [squeeze]. by rewrite Hd. Qed.

Lemma squeeze_collapsed (t : str) : collapsed (squeeze t) = true.
Proof.
  induction t as [|c t IH]; [done|].
  cbn [squeeze]. destruct (isspace c) eqn:Hc.
  - destruct t as [|d t]; [done|].
    destruct (isspace d) eqn:Hd; [done|].
    rewrite (squeeze_head d t Hd) in *.
    rewrite collapsed_cons_space; [done|]. by apply space_blank.
  - rewrite collapsed_cons_no_blank; [done|]. by apply space_blank.
Qed.

Lemma squeeze_last (r : str) (c : ascii) :
  isspace c = false → ∃ r', squeeze (r ++ [c]) = r' ++ [c].
Proof.
  intros Hc. induction r as [|a r [r' IH]].
  - exists []. cbn [app squeeze]. by rewrite Hc.
  - cbn [app]. cbn [squeeze]. rewrite IH. destruct (isspace a).
    + destruct (r ++ [c]) as [|d u] eqn:E.
      { by apply app_eq_nil in E as [_ ?]. }
      destruct (isspace d); [by exists r' | by exists (" "%char :: r')].
    + by exists (a :: r').
Qed.

(** A text that begins and ends with a character that is no whitespace
    is, squeezed, a line in normal form. *)
Lemma squeeze_clean (t : str) :
  t ≠ [] → strip t = t → clean_line (squeeze t).
Proof.
  intros Hne Hs.
  destruct (stripped_ends t Hne Hs) as [(c & r & -> & Hc) (e & r2 & He & He1)].
  assert (Hlast : ∃ r', squeeze (c :: r) = r' ++ [e]).
  { apply (f_equal reverse) in He. rewrite reverse_involutive in He.
    rewrite He, reverse_cons. by apply squeeze_last. }
  destruct Hlast as [r' Hr']. split_and!.
  - by rewrite squeeze_head.
  - apply strip_ends.
    + by rewrite squeeze_head.
    + by rewrite Hr', reverse_app.
  - intros Hin. by apply squeeze_elem in Hin.
  - intros Hin. by apply squeeze_elem in Hin.
  - apply squeeze_collapsed.
Qed.

Lemma join_cons_head (sep l : str) (ls : list str) (c : ascii) (r : str) :
  l = c :: r → ∃ r', join sep (l :: ls) = c :: r'.
Proof. intros ->. destruct ls; by eexists. Qed.

(** Stripped pieces joined make a stripped text. *)
Lemma join_stripped (sep : str) (ls : list str) :
  Forall (λ l, l ≠ [] ∧ strip l = l) ls → strip (join sep ls) = join sep ls.
Proof.
  intros Hall. destruct ls as [|l ls]; [done|]. apply strip_ends.
  - apply Forall_cons in Hall as [[Hne Hs] _].
    destruct (stripped_ends l Hne Hs) as [(c & r & Hl & Hc) _].
    by destruct (join_cons_head sep l ls c r Hl) as [r' ->].
  - rewrite join_reverse.
    destruct (reverse (map reverse (l :: ls))) as [|x xs] eqn:E.
    { apply (f_equal reverse) in E. by rewrite reverse_involutive in E. }
    assert (Hx : x ∈ reverse (map reverse (l :: ls))) by (rewrite E; left).
    apply elem_of_reverse, list_elem_of_fmap in Hx as (l0 & -> & Hl0).
    rewrite Forall_forall in Hall. destruct (Hall _ Hl0) as [Hne Hs].
    destruct (stripped_ends l0 Hne Hs) as [_ (c & r & Hr & Hc)].
    by destruct (join_cons_head (reverse sep) (reverse l0) xs c r Hr)
      as [r' ->].
Qed.

Lemma get_text_stripped (sep : str) (elem : node) :
  strip (get_text sep elem) = get_text sep elem.
Proof.
  unfold get_text. apply join_stripped, Forall_forall.
  intros l [Hl Hne]%list_elem_of_In%filter_In.
  apply list_elem_of_In, list_elem_of_fmap in Hl as (l0 & -> & _).
  split; [|apply strip_idem].
  by apply negb_true_iff, bool_decide_eq_false in Hne.
Qed.

(** What [line_of] gives: the text of the element, and for a link whose
    href is not in the text, the href after it. *)
Lemma line_of_Some (elem : node) (line : str) :
  line_of elem = Some line →
  clean_line (element_text elem) ∧ 3 ≤ length (element_text elem)
  ∧ (line = element_text elem
     ∨ ∃ attrs cs h,
         elem = Tag (Py.s "a") attrs cs ∧ attrs !! Py.s "href" = Some h
         ∧ strip h ≠ [] ∧ ¬ occurs_in (strip h) (element_text elem)
         ∧ line = element_text elem ++ Py.s ": " ++ strip h).
Proof.
  destruct elem as [name attrs cs | t | t | t]; [|done..].
  unfold line_of, element_text. rewrite sub_spaces_squeeze.
  set (text := get_text (Py.s " ") (Tag name attrs cs)).
  case_bool_decide as Htext; [done|].
  destruct (length (squeeze text) <? 3) eqn:Hlen; [done|].
  apply Nat.ltb_ge in Hlen.
  assert (Hclean : clean_line (squeeze text))
    by (apply squeeze_clean; [done | apply get_text_stripped]).
  intros Hline. split; [done|]. split; [done|].
  case_bool_decide as Hname; [|left; by injection Hline].
  destruct (attrs !! Py.s "href") as [h|] eqn:Hh; [|left; by injection Hline].
  destruct (contains (strip h) (squeeze text)) eqn:Hc;
    [left; by injection Hline|].
  right. exists attrs, cs, h. subst name. split_and!; [done | done | | |].
  - intros Hnil. rewrite Hnil in Hc. by destruct (squeeze text).
  - intros Hocc%contains_spec. congruence.
  - by injection Hline.
Qed.

(** X20: every line read from the tree is the text of one of its h1-h4,
    p, li or a elements: the strings below the element that [get_text]
    collects (those of the class [NavigableString] or [CData]; not the
    comments, and not the strings the builder keeps in a class of their
    own, as below [rt], [rp] or [template]), stripped and joined by
    spaces, every run of whitespace made one space.  This text has 3
    characters or more and is in normal form (no whitespace but single
    spaces, none at its ends).  The line is this text, or, for a link
    whose stripped href is not empty and does not stand in the text, the
    text followed by ": " and the stripped href. *)
Theorem extract_lines_shape (roots : list node) (line : str) :
  line ∈ extract_lines roots →
  ∃ elem, elem ∈ find_all content_tags roots
    ∧ clean_line (element_text elem) ∧ 3 ≤ length (element_text elem)
    ∧ (line = element_text elem
       ∨ ∃ attrs cs h,
           elem = Tag (Py.s "a") attrs cs ∧ attrs !! Py.s "href" = Some h
           ∧ strip h ≠ [] ∧ ¬ occurs_in (strip h) (element_text elem)
           ∧ line = element_text elem ++ Py.s ": " ++ strip h).
Proof.
  unfold extract_lines.
  intros (elem & Helem & Hline)%list_elem_of_omap.
  exists elem. split; [done|]. by apply line_of_Some.
Qed.

Lemma extract_lines_shape_witness :
  ∃ elem, elem ∈ find_all content_tags (soup ruby_paragraph)
    ∧ clean_line (element_text elem) ∧ 3 ≤ length (element_text elem)
    ∧ (Py.s "abc" = element_text elem
       ∨ ∃ attrs cs h,
           elem = Tag (Py.s "a") attrs cs ∧ attrs !! Py.s "href" = Some h
           ∧ strip h ≠ [] ∧ ¬ occurs_in (strip h) (element_text elem)
           ∧ Py.s "abc" = element_text elem ++ Py.s ": " ++ strip h).
Proof.
  apply extract_lines_shape.
  apply list_elem_of_In. vm_compute. tauto.
Defined.

(** The text below [rt] is not read: of [<p>abc <rt>def</rt></p>] the
    line is "abc". *)
Lemma clean_html_ruby : clean_html ruby_paragraph = Py.s "abc".
Proof. by vm_compute. Qed.

(** X21: when no href of a link of the cleaned tree holds whitespace
    inside, the whitespace normalization of step 5 changes nothing: the
    text returned is the lines read from the tree where a dedup key is met
    first, joined by newlines. *)
Theorem clean_html_no_normalization (html : document) :
  (∀ attrs cs h,
     Tag (Py.s "a") attrs cs ∈ all_nodes (cleaned_tree html) →
     attrs !! Py.s "href" = Some h →
     Forall (λ c, isspace c = false) (strip h)) →
  normalize (extracted_text html) = extracted_text html
  ∧ clean_html html
    = join [nl] (keep_first ∅ (extract_lines (cleaned_tree html))).
Proof.
  intros Hhref.
  assert (Hall : Forall clean_line (extract_lines (cleaned_tree html))).
  { apply Forall_forall. intros line Hline.
    apply list_elem_of_omap in Hline as (elem & Helem & Hline).
    apply line_of_Some in Hline as (Hclean & _ & [->|Hlink]); [done|].
    destruct Hlink as (attrs & cs & h & -> & Hh & Hne & _ & ->).
    apply link_line; [done | done |].
    apply (Hhref attrs cs h); [|done].
    unfold find_all in Helem.
    by apply list_elem_of_In, filter_In in Helem as [?%list_elem_of_In _]. }
  rewrite extracted_text_cleaned.
  split; [by apply Dedup.normalize_join|].
  unfold clean_html, normalize_dedup.
  rewrite Dedup.dedup_keep_first, extracted_text_cleaned.
  by rewrite Dedup.normalize_join, Dedup.text_lines_join.
Qed.

Lemma clean_html_no_normalization_witness :
  normalize (extracted_text two_contact_links)
  = extracted_text two_contact_links
  ∧ clean_html two_contact_links
    = join [nl]
        (keep_first ∅ (extract_lines (cleaned_tree two_contact_links))).
Proof.
  apply clean_html_no_normalization.
  intros attrs cs h Hin Hh.
  apply list_elem_of_In in Hin. vm_compute in Hin.
  destruct Hin as [Hin|[Hin|[Hin|[Hin|[]]]]]; try discriminate;
    injection Hin as <- <-; vm_compute in Hh; injection Hh as <-;
    apply Forall_forall; intros c Hc; apply list_elem_of_In in Hc;
    vm_compute in Hc; by intuition subst.
Defined.

End CleanerFacts.

(** ** The search *)

Module SearchFacts.

Import Soup Fetcher Spec PyFacts FrameworkFacts.

Lemma existsb_contains (ws : list str) (t : str) :
  existsb (λ w, contains w t) ws = true ↔ ∃ w, w ∈ ws ∧ occurs_in w t.
Proof.
  rewrite existsb_exists. split.
  - intros (w & Hw & Hc). exists w. split; [by apply list_elem_of_In|].
    by apply contains_spec.
  - intros (w & Hw & Hc). exists w. split; [by apply list_elem_of_In|].
    by apply contains_spec.
Qed.

(** The nine names of [SOCIAL_DOMAINS] test what six of them test. *)
Lemma social_sites (domain : str) :
  (∃ w, w ∈ SOCIAL_DOMAINS ∧ occurs_in w domain)
  ↔ ∃ w, w ∈ SOCIAL_SITES ∧ occurs_in w domain.
Proof.
  split.
  - intros (w & Hw & Hocc). unfold SOCIAL_DOMAINS in Hw. cbn [map] in Hw.
    repeat (apply elem_of_cons in Hw as [->|Hw]; [|]);
      [..|by apply elem_of_nil in Hw].
    + exists (Py.s "facebook.com"). split; [apply list_elem_of_In; cbn; tauto|done].
    + exists (Py.s "facebook.com"). split; [apply list_elem_of_In; cbn; tauto|].
      eapply occurs_in_trans; [|exact Hocc]. by exists (Py.s "www."), [].
    + exists (Py.s "facebook.com"). split; [apply list_elem_of_In; cbn; tauto|].
      eapply occurs_in_trans; [|exact Hocc]. by exists (Py.s "m."), [].
    + exists (Py.s "instagram.com"). split; [apply list_elem_of_In; cbn; tauto|done].
    + exists (Py.s "instagram.com"). split; [apply list_elem_of_In; cbn; tauto|].
      eapply occurs_in_trans; [|exact Hocc]. by exists (Py.s "www."), [].
    + exists (Py.s "twitter.com"). split; [apply list_elem_of_In; cbn; tauto|done].
    + exists (Py.s "x.com"). split; [apply list_elem_of_In; cbn; tauto|done].
    + exists (Py.s "tiktok.com"). split; [apply list_elem_of_In; cbn; tauto|done].
    + exists (Py.s "linkedin.com"). split; [apply list_elem_of_In; cbn; tauto|done].
  - intros (w & Hw & Hocc). exists w. split; [|done].
    apply list_elem_of_In in Hw. apply list_elem_of_In.
    cbn in Hw |- *. tauto.
Qed.

(** X22: [is_bad_url] answers true for a URL that holds one of the bad
    keywords, without parsing it.  For any other URL it raises when
    [urlparse] does, and else answers true exactly when the lowercased
    network location holds, anywhere, one of facebook.com, instagram.com,
    twitter.com, x.com, tiktok.com and linkedin.com. *)
Theorem is_bad_url_spec (netloc : str → option str) (url : str) :
  ((∃ bad, bad ∈ BAD_URL_KEYWORDS ∧ occurs_in bad url) →
   is_bad_url netloc url = Some true)
  ∧ ((∀ bad, bad ∈ BAD_URL_KEYWORDS → ¬ occurs_in bad url) →
     match netloc url with
     | None => is_bad_url netloc url = None
     | Some loc =>
         ∃ b, is_bad_url netloc url = Some b
              ∧ (b = true ↔ ∃ site, site ∈ SOCIAL_SITES
                                     ∧ occurs_in site (lower loc))
     end).
Proof.
  unfold is_bad_url. split.
  - intros Hbad%existsb_contains. by rewrite Hbad.
  - intros Hnone.
    destruct (existsb _ BAD_URL_KEYWORDS) eqn:E.
    { apply existsb_contains in E as (bad & Hbad & Hocc).
      by destruct (Hnone bad Hbad). }
    destruct (netloc url) as [loc|]; [|done]. cbn [mbind option_bind].
    destruct (existsb _ SOCIAL_DOMAINS) eqn:Es.
    + exists true. split; [done|]. split; [|done]. intros _.
      by apply social_sites, existsb_contains.
    + exists false. split; [done|]. split; [done|].
      intros Hsite%social_sites%existsb_contains. congruence.
Qed.

Lemma is_bad_url_spec_witness :
  ∃ b, is_bad_url (λ _, Some (Py.s "www.Netflix.com"))
         (Py.s "https://www.Netflix.com/mx") = Some b
       ∧ (b = true ↔ ∃ site, site ∈ SOCIAL_SITES
                              ∧ occurs_in site (lower (Py.s "www.Netflix.com"))).
Proof.
  apply (proj2 (is_bad_url_spec (λ _, Some (Py.s "www.Netflix.com"))
                  (Py.s "https://www.Netflix.com/mx"))).
  intros bad Hbad Hocc%contains_spec.
  apply list_elem_of_In in Hbad. cbn in Hbad.
  repeat (destruct Hbad as [<-|Hbad]; [by vm_compute in Hocc|]). done.
Defined.

(** *** The loop over the links *)

Lemma select_links_step (is_bad : str → option bool) (bad : str → bool)
    (n_sites : Z) (links : list str) (link : option str)
    (rest : list (option str)) :
  (∀ l, link = Some l → is_bad l = Some (bad l)) →
  select_links is_bad n_sites links (link :: rest)
  = let links' := links ++ good_links bad [link] in
    if (n_sites <=? Z.of_nat (length links'))%Z then Some links'
    else select_links is_bad n_sites links' rest.
Proof.
  intros Hbad. cbn [select_links good_links omap list_omap].
  destruct link as [l|]; cbn [mbind option_bind].
  - case_bool_decide as Hl; cbn [orb mbind option_bind].
    + by rewrite app_nil_r.
    + rewrite (Hbad l eq_refl). destruct (bad l); cbn [negb mbind option_bind].
      * by rewrite app_nil_r.
      * done.
  - by rewrite app_nil_r.
Qed.

Lemma select_links_take (is_bad : str → option bool) (bad : str → bool)
    (n : nat) (links : list str) (raw_links : list (option str)) :
  (∀ l, Some l ∈ raw_links → is_bad l = Some (bad l)) →
  length links < n →
  select_links is_bad (Z.of_nat n) links raw_links
  = Some (take n (links ++ good_links bad raw_links)).
Proof.
  revert links. induction raw_links as [|link rest IH]; intros links Hbad Hlen.
  - cbn [select_links good_links omap list_omap].
    by rewrite app_nil_r, take_ge by lia.
  - rewrite (select_links_step is_bad bad).
    2:{ intros l ->. apply Hbad. left. }
    cbn zeta.
    assert (Hgood : good_links bad (link :: rest)
                    = good_links bad [link] ++ good_links bad rest).
    { unfold good_links. by rewrite <- omap_app. }
    rewrite Hgood, app_assoc.
    destruct (Z.of_nat n <=? Z.of_nat (length (links ++ good_links bad [link])))%Z
      eqn:E.
    + apply Z.leb_le in E.
      assert (Hn : length (links ++ good_links bad [link]) = n).
      { assert (length (good_links bad [link]) ≤ 1).
        { unfold good_links. cbn [omap list_omap].
          destruct (_ ≫= _); cbn; lia. }
        rewrite length_app in *. lia. }
      by rewrite <- Hn, take_app_length.
    + apply Z.leb_gt in E. apply IH; [|lia].
      intros l Hl. apply Hbad. by right.
Qed.

Lemma select_links_loop (is_bad : str → option bool) (bad : str → bool)
    (n_sites : Z) (raw_links : list (option str)) :
  (∀ l, Some l ∈ raw_links → is_bad l = Some (bad l)) →
  select_links is_bad n_sites [] raw_links
  = Some (selected bad n_sites raw_links).
Proof.
  intros Hbad. unfold selected. destruct (1 <=? n_sites)%Z eqn:E.
  - apply Z.leb_le in E.
    rewrite <- (Z2Nat.id n_sites) at 1 by lia.
    rewrite (select_links_take is_bad bad); [done | done | cbn; lia].
  - apply Z.leb_gt in E. destruct raw_links as [|link rest]; [done|].
    rewrite (select_links_step is_bad bad).
    2:{ intros l ->. apply Hbad. left. }
    cbn zeta. cbn [take app].
    replace (n_sites <=? Z.of_nat (length (good_links bad [link])))%Z
      with true by (symmetry; apply Z.leb_le; lia).
    done.
Qed.


Lemma selected_prefix (bad : str → bool) (n_sites : Z)
    (raw_links : list (option str)) :
  selected bad n_sites raw_links `prefix_of` good_links bad raw_links.
Proof.
  unfold selected. destruct (1 <=? n_sites)%Z.
  - exists (drop (Z.to_nat n_sites) (good_links bad raw_links)).
    by rewrite take_drop.
  - exists (good_links bad (drop 1 raw_links)).
    unfold good_links. by rewrite <- omap_app, take_drop.
Qed.

Lemma omap_length_le {A B} (f : A → option B) (l : list A) :
  length (omap f l) ≤ length l.
Proof.
  induction l as [|x l IH]; [done|]. cbn [omap list_omap].
  destruct (f x); cbn [length]; lia.
Qed.

Lemma selected_length (bad : str → bool) (n_sites : Z)
    (raw_links : list (option str)) :
  length (selected bad n_sites raw_links) ≤ Z.to_nat (Z.max 1 n_sites).
Proof.
  unfold selected. destruct (1 <=? n_sites)%Z eqn:E.
  - apply Z.leb_le in E. rewrite length_take. lia.
  - apply Z.leb_gt in E. replace (Z.to_nat (Z.max 1 n_sites)) with 1 by lia.
    unfold good_links. etrans; [apply omap_length_le|].
    rewrite length_take. lia.
Qed.

(** X23: the links [main_search] retains.  For [n_sites] from 1 on they
    are the first [n_sites] of the links that are there, not empty and not
    bad, in the order of the search.  For [n_sites] below 1 the loop still
    looks at the first result, and retains it when it is good.  In both
    cases they are the first good links, [max(n_sites, 1)] at most. *)
Theorem select_links_selected (is_bad : str → option bool) (bad : str → bool)
    (n_sites : Z) (raw_links : list (option str)) :
  (∀ l, Some l ∈ raw_links → is_bad l = Some (bad l)) →
  select_links is_bad n_sites [] raw_links
  = Some (selected bad n_sites raw_links)
  ∧ selected bad n_sites raw_links `prefix_of` good_links bad raw_links
  ∧ length (selected bad n_sites raw_links) ≤ Z.to_nat (Z.max 1 n_sites).
Proof.
  intros Hbad. split_and!.
  - by apply select_links_loop.
  - apply selected_prefix.
  - apply selected_length.
Qed.

Lemma select_links_selected_witness :
  select_links (λ l, Some (contains (Py.s "ads") l)) 0 []
    [Some (Py.s "http://a"); Some (Py.s "http://b")]
  = Some [Py.s "http://a"].
Proof.
  apply (select_links_selected _ (λ l, contains (Py.s "ads") l) 0).
  by intros l _.
Defined.

Lemma selected_good (bad : str → bool) (n_sites : Z)
    (raw_links : list (option str)) (l : str) :
  l ∈ selected bad n_sites raw_links →
  Some l ∈ raw_links ∧ l ≠ [] ∧ bad l = false.
Proof.
  assert (Hgood : ∀ raw, l ∈ good_links bad raw →
                    Some l ∈ raw ∧ l ≠ [] ∧ bad l = false).
  { intros raw (link & Hlink & Hl)%list_elem_of_omap.
    destruct link as [l'|]; cbn in Hl; [|done].
    case_bool_decide; cbn in Hl; [done|].
    destruct (bad l') eqn:Eb; [done|]. by injection Hl as <-. }
  unfold selected. destruct (1 <=? n_sites)%Z.
  - intros Hl%subseteq_take. by apply Hgood.
  - intros Hl%Hgood. by destruct Hl as (Hin%subseteq_take & ? & ?).
Qed.

(** X24: [main_search], when the search request succeeds and [urlparse]
    accepts the links it is given, raises nothing: it returns at most
    [max(n_sites, 1)] records, each of one of the retained links, which is
    a result of the search, not empty and not bad.  When the search request
    raises, so does [main_search]. *)
Theorem main_search_results (netloc : str → option str)
    (raw_links : list (option str)) (bad : str → bool)
    (net : nat → option document) (completed : list nat) (n_sites : Z) :
  (∀ l, Some l ∈ raw_links → is_bad_url netloc l = Some (bad l)) →
  completed ≡ₚ seq 0 (length (selected bad n_sites raw_links)) →
  main_search netloc None net completed n_sites = None
  ∧ ∃ results,
      main_search netloc (Some raw_links) net completed n_sites = Some results
      ∧ length results ≤ Z.to_nat (Z.max 1 n_sites)
      ∧ ∀ r, r ∈ results →
          url r ∈ selected bad n_sites raw_links
          ∧ Some (url r) ∈ raw_links ∧ url r ≠ [] ∧ bad (url r) = false.
Proof.
  intros Hbad Hperm. split; [done|].
  unfold main_search. cbn [mbind option_bind].
  rewrite (select_links_loop _ bad) by done. cbn [mbind option_bind].
  set (links := selected bad n_sites raw_links) in *.
  assert (Hf : ∃ results,
             fetch_multiple net completed links None = Some results
             ∧ length results ≤ length completed
             ∧ ∀ r, r ∈ results → url r ∈ links).
  { unfold fetch_multiple. case_bool_decide as Hnil.
    - exists []. split_and!; [done | cbn; lia |]. by intros r ?%elem_of_nil.
    - replace (default _ None <=? 0)%Z with false.
      2:{ symmetry. apply Z.leb_gt. cbn [default from_option].
          destruct links; [done|]. cbn [length]. lia. }
      eexists. split_and!; [done | apply omap_length_le |].
      intros r (i & Hi & Hr)%list_elem_of_omap.
      rewrite lookup_map_seq_0 in Hr.
      destruct (links !! i) as [u|] eqn:Hu; cbn in Hr; [|done].
      apply Batch.fetch_html_url in Hr as ->.
      by eapply list_elem_of_lookup_2. }
  destruct Hf as (results & -> & Hlen & Hurl).
  exists results. split_and!; [done | |].
  - apply Permutation_length in Hperm. rewrite length_seq in Hperm.
    pose proof (selected_length bad n_sites raw_links). fold links in H. lia.
  - intros r Hr. split; [by apply Hurl|].
    by apply (selected_good bad n_sites raw_links), Hurl.
Qed.

Lemma main_search_results_witness :
  ∃ results,
    main_search (λ _, Some (Py.s "a")) (Some [Some (Py.s "http://a"); None])
      (λ _, Some plain_page) [0] 5 = Some results
    ∧ length results ≤ Z.to_nat (Z.max 1 5).
Proof.
  destruct (main_search_results (λ _, Some (Py.s "a"))
              [Some (Py.s "http://a"); None] (λ _, false)
              (λ _, Some plain_page) [0] 5)
    as (_ & results & Hres & Hlen & _).
  - intros l [[= ->]|Hl]%elem_of_cons; [reflexivity|].
    by apply elem_of_cons in Hl as [?|?%elem_of_nil].
  - reflexivity.
  - exists results. by split.
Defined.

End SearchFacts.

(** ** Decorative text *)

Module DecorativeFacts.

Import TextUtils.

(** *** Strings of code points *)

Lemma wide_drop_while_prefix (p : N → bool) (t : Wide.ustr) :
  ∃ pre, t = pre ++ Wide.drop_while p t.
Proof.
  induction t as [|c t [pre IH]]; simpl.
  - by exists [].
  - destruct (p c); [|by exists []].
    exists (c :: pre). simpl. by f_equal.
Qed.

Lemma wide_drop_while_head (p : N → bool) (t : Wide.ustr) (c : N)
    (r : Wide.ustr) :
  Wide.drop_while p t = c :: r → p c = false.
Proof.
  induction t as [|d t IH]; simpl; [done|].
  destruct (p d) eqn:E; [done|]. intros H. by simplify_eq.
Qed.

Lemma wide_drop_while_id (p : N → bool) (t : Wide.ustr) :
  match t with c :: _ => p c = false | [] => True end →
  Wide.drop_while p t = t.
Proof. destruct t as [|c t]; simpl; [done|]. by intros ->. Qed.

Lemma wide_drop_while_idem (p : N → bool) (t : Wide.ustr) :
  Wide.drop_while p (Wide.drop_while p t) = Wide.drop_while p t.
Proof.
  apply wide_drop_while_id.
  destruct (Wide.drop_while p t) as [|c r] eqn:E; [done|].
  by apply wide_drop_while_head in E.
Qed.

Lemma wide_strip_factor (t : Wide.ustr) :
  ∃ pre post, t = pre ++ Wide.strip t ++ post.
Proof.
  unfold Wide.strip, Wide.rstrip, Wide.lstrip.
  destruct (wide_drop_while_prefix Wide.isspace t) as [pre Hpre].
  destruct (wide_drop_while_prefix Wide.isspace
              (reverse (Wide.drop_while Wide.isspace t))) as [post Hpost].
  exists pre, (reverse post). rewrite <- reverse_app, <- Hpost.
  by rewrite reverse_involutive.
Qed.

(** What [strip] returns neither begins nor ends with whitespace. *)
Lemma wide_strip_ends (t : Wide.ustr) :
  match Wide.strip t with c :: _ => Wide.isspace c = false | [] => True end
  ∧ match reverse (Wide.strip t) with
    | c :: _ => Wide.isspace c = false
    | [] => True
    end.
Proof.
  unfold Wide.strip, Wide.rstrip, Wide.lstrip.
  set (u := Wide.drop_while Wide.isspace t).
  rewrite reverse_involutive.
  assert (Hrev : match Wide.drop_while Wide.isspace (reverse u) with
                 | c :: _ => Wide.isspace c = false
                 | [] => True
                 end).
  { destruct (Wide.drop_while _ (reverse u)) as [|c r] eqn:E; [done|].
    by apply wide_drop_while_head in E. }
  split; [|done].
  destruct (reverse (Wide.drop_while Wide.isspace (reverse u)))
    as [|c r] eqn:E; [done|].
  destruct (wide_drop_while_prefix Wide.isspace (reverse u)) as [post Hpost].
  apply (f_equal reverse) in Hpost.
  rewrite reverse_involutive, reverse_app, E in Hpost.
  subst u. eapply wide_drop_while_head. rewrite Hpost. reflexivity.
Qed.

Lemma wide_strip_idem (t : Wide.ustr) :
  Wide.strip (Wide.strip t) = Wide.strip t.
Proof.
  destruct (wide_strip_ends t) as [H1 H2].
  unfold Wide.strip at 1. unfold Wide.rstrip, Wide.lstrip.
  rewrite (wide_drop_while_id _ (Wide.strip t)) by done.
  rewrite (wide_drop_while_id _ (reverse (Wide.strip t))) by done.
  apply reverse_involutive.
Qed.

(** *** The matcher *)

Lemma wide_star_greedy_result {A} (p : N → bool)
    (k : Wide.ustr → option A) (t : Wide.ustr) (a : A) :
  Wide.star_greedy p k t = Some a →
  ∃ rest, k rest = Some a ∧ length rest ≤ length t.
Proof.
  induction t as [|c t IH]; simpl.
  - intros H. exists []. by split.
  - destruct (p c).
    + destruct (Wide.star_greedy p k t) as [a'|] eqn:E.
      * intros [= ->]. destruct (IH eq_refl) as (rest & H1 & H2).
        exists rest. split; [done | lia].
      * intros H. exists (c :: t). by split.
    + intros H. exists (c :: t). by split.
Qed.

Lemma wide_run_result {A} (r : Wide.regex) (t : Wide.ustr)
    (k : Wide.ustr → option A) (a : A) :
  Wide.run r t k = Some a → ∃ rest, k rest = Some a ∧ length rest ≤ length t.
Proof.
  revert t k. induction r as [| p | r1 IH1 r2 IH2 | p]; intros t k; simpl.
  - intros H. exists t. by split.
  - destruct t as [|c t]; [done|]. destruct (p c); [|done].
    intros H. exists t. split; [done | simpl; lia].
  - intros H. destruct (IH1 _ _ H) as (t1 & H1 & L1).
    destruct (IH2 _ _ H1) as (t2 & H2 & L2). exists t2. split; [done | lia].
  - apply wide_star_greedy_result.
Qed.

Lemma wide_match_at_le (r : Wide.regex) (t : Wide.ustr) (n : nat) :
  Wide.match_at r t = Some n → n ≤ length t.
Proof.
  unfold Wide.match_at. intros H.
  apply wide_run_result in H as (rest & [= <-] & _). lia.
Qed.

Lemma wide_sub_go_skip (r : Wide.regex) (repl : Wide.ustr) (n : nat)
    (t : Wide.ustr) :
  n ≤ length t → Wide.sub_go r repl n t = Wide.sub_go r repl 0 (drop n t).
Proof.
  revert t. induction n as [|n IH]; intros t Hn; [by rewrite drop_0|].
  destruct t as [|c t]; simpl in Hn; [lia|].
  simpl. apply IH. lia.
Qed.

Lemma wide_sub_go_cons (r : Wide.regex) (repl : Wide.ustr) (c : N)
    (t : Wide.ustr) :
  Wide.sub_go r repl 0 (c :: t) =
    match Wide.match_at r (c :: t) with
    | Some (S n) => repl ++ Wide.sub_go r repl 0 (drop n t)
    | Some 0 => repl ++ c :: Wide.sub_go r repl 0 t
    | None => c :: Wide.sub_go r repl 0 t
    end.
Proof.
  cbn [Wide.sub_go].
  destruct (Wide.match_at r (c :: t)) as [[|n]|] eqn:E; [done| |done].
  apply wide_match_at_le in E. simpl in E. f_equal.
  apply wide_sub_go_skip. lia.
Qed.

(** [sub] writes only code points of the text and of the replacement. *)
Lemma wide_sub_go_chars (r : Wide.regex) (repl : Wide.ustr) (skip : nat)
    (t : Wide.ustr) (x : N) :
  x ∈ Wide.sub_go r repl skip t → x ∈ t ∨ x ∈ repl.
Proof.
  revert skip. induction t as [|c t IH]; intros skip; simpl.
  - destruct skip; [|by left].
    destruct (Wide.match_at r []); [by right | by left].
  - destruct skip as [|n].
    + destruct (Wide.match_at r (c :: t)) as [[|n]|].
      * rewrite elem_of_app, !elem_of_cons.
        intros [?|[?|H]]; [by right | by left; left|].
        destruct (IH _ H); [left; by right | by right].
      * rewrite elem_of_app. intros [?|H]; [by right|].
        destruct (IH _ H); [left; by right | by right].
      * rewrite !elem_of_cons. intros [?|H]; [by left; left|].
        destruct (IH _ H); [left; by right | by right].
    + intros H. destruct (IH _ H); [left; by right | by right].
Qed.

Lemma wide_star_greedy_total {A} (p : N → bool) (k : Wide.ustr → option A)
    (t : Wide.ustr) :
  (∀ u, is_Some (k u)) →
  Wide.star_greedy p k t = k (Wide.drop_while p t).
Proof.
  intros Hk. induction t as [|c t IH]; simpl; [done|].
  destruct (p c); [|done]. rewrite IH.
  by destruct (Hk (Wide.drop_while p t)) as [a ->].
Qed.

Lemma wide_match_at_Plus (p : N → bool) (c : N) (t : Wide.ustr) :
  Wide.match_at (Wide.Plus p) (c :: t) =
    if p c then Some (S (length t - length (Wide.drop_while p t))) else None.
Proof.
  unfold Wide.match_at, Wide.Plus. cbn [Wide.run]. destruct (p c); [|done].
  rewrite wide_star_greedy_total by eauto.
  f_equal. destruct (wide_drop_while_prefix p t) as [pre Hpre].
  apply (f_equal length) in Hpre. rewrite length_app in Hpre.
  cbn [length]. lia.
Qed.

(** [re.sub] of [[class]+]: every run of the class gives way to the
    replacement. *)
Lemma wide_sub_Plus_cons (p : N → bool) (repl : Wide.ustr) (c : N)
    (t : Wide.ustr) :
  Wide.sub (Wide.Plus p) repl (c :: t) =
    if p c then repl ++ Wide.sub (Wide.Plus p) repl (Wide.drop_while p t)
    else c :: Wide.sub (Wide.Plus p) repl t.
Proof.
  unfold Wide.sub. rewrite wide_sub_go_cons, wide_match_at_Plus.
  destruct (p c); [|done]. f_equal. f_equal.
  destruct (wide_drop_while_prefix p t) as [pre Hpre].
  revert Hpre. generalize (Wide.drop_while p t). intros u ->.
  rewrite length_app.
  replace (length pre + length u - length u) with (length pre) by lia.
  apply drop_app_length.
Qed.

(** After it, no code point of the class is left but those of the
    replacement. *)
Lemma wide_sub_Plus_chars (p : N → bool) (repl : Wide.ustr)
    (t : Wide.ustr) (x : N) :
  x ∈ Wide.sub (Wide.Plus p) repl t → x ∈ repl ∨ (x ∈ t ∧ p x = false).
Proof.
  remember (length t) as n eqn:Hn. revert t Hn.
  induction n as [n IH] using lt_wf_ind. intros [|c t] Hn.
  - by intros ?%elem_of_nil.
  - cbn [length] in Hn. rewrite wide_sub_Plus_cons.
    destruct (p c) eqn:Hc.
    + destruct (wide_drop_while_prefix p t) as [pre Hpre].
      intros [?|Hx]%elem_of_app; [by left|].
      assert (Hlen : length (Wide.drop_while p t) ≤ length t).
      { apply (f_equal length) in Hpre. rewrite length_app in Hpre. lia. }
      destruct (IH (length (Wide.drop_while p t)) ltac:(lia) _ eq_refl Hx)
        as [?|[Hin ?]]; [by left|].
      right. split; [|done]. right. rewrite Hpre. apply elem_of_app. by right.
    + intros [->|Hx]%elem_of_cons; [right; split; [left | done]|].
      destruct (IH (length t) ltac:(lia) _ eq_refl Hx) as [?|[Hin ?]];
        [by left|].
      right. split; [by right | done].
Qed.

(** X25: what [remove_decorative] returns holds no code point of the
    nine emoji ranges and no tab; every code point of it is one of the
    text, a space or a newline; and it neither begins nor ends with
    whitespace, so that stripping it again changes nothing. *)
Theorem remove_decorative_clean (text : Wide.ustr) :
  let out := remove_decorative text in
  (∀ c, c ∈ out →
        emoji c = false ∧ c ≠ tab
        ∧ (c ∈ text ∨ c = space ∨ c = newline))
  ∧ match out with c :: _ => Wide.isspace c = false | [] => True end
  ∧ match reverse out with c :: _ => Wide.isspace c = false | [] => True end
  ∧ Wide.strip out = out.
Proof.
  intros out. unfold out, remove_decorative.
  set (t1 := Wide.sub (Wide.Plus emoji) [] text).
  set (blank := λ c : N, (c =? space)%N || (c =? tab)%N).
  set (t2 := Wide.sub (Wide.Plus blank) [space] t1).
  set (t3 := Wide.sub _ [newline] t2).
  split; [|split; [apply wide_strip_ends|split;
                   [apply wide_strip_ends | apply wide_strip_idem]]].
  intros c Hc.
  destruct (wide_strip_factor t3) as (pre & post & H3).
  assert (Hc3 : c ∈ t3).
  { rewrite H3, !elem_of_app. tauto. }
  apply wide_sub_go_chars in Hc3 as [Hc2|Hnl].
  - apply wide_sub_Plus_chars in Hc2 as [Hsp|[Hc1 Hblank]].
    + apply list_elem_of_singleton in Hsp as ->. split_and!; [done | done |].
      right. by left.
    + apply wide_sub_Plus_chars in Hc1 as [?%elem_of_nil|[Hin Hemoji]]; [done|].
      split_and!; [done | | by left].
      intros ->. by vm_compute in Hblank.
  - apply list_elem_of_singleton in Hnl as ->. split_and!; [done | done |].
    right. by right.
Qed.

Lemma wide_filter_drop_while (p : N → bool) (t : Wide.ustr) :
  List.filter (λ c, negb (p c)) (Wide.drop_while p t)
  = List.filter (λ c, negb (p c)) t.
Proof.
  induction t as [|c t IH]; [done|]. cbn [Wide.drop_while List.filter].
  destruct (p c) eqn:Hc; cbn [negb]; [done|].
  cbn [List.filter]. by rewrite Hc.
Qed.

(** [re.sub] of [[class]+] by the empty string drops the code points of
    the class and nothing else. *)
Lemma wide_sub_Plus_filter (p : N → bool) (t : Wide.ustr) :
  Wide.sub (Wide.Plus p) [] t = List.filter (λ c, negb (p c)) t.
Proof.
  remember (length t) as n eqn:Hn. revert t Hn.
  induction n as [n IH] using lt_wf_ind. intros [|c t] Hn; [done|].
  cbn [length] in Hn. rewrite wide_sub_Plus_cons. cbn [List.filter].
  destruct (p c) eqn:Hc; cbn [negb app].
  - destruct (wide_drop_while_prefix p t) as [pre Hpre].
    apply (f_equal length) in Hpre. rewrite length_app in Hpre.
    rewrite (IH (length (Wide.drop_while p t))) by (lia || done).
    apply wide_filter_drop_while.
  - f_equal. by apply (IH (length t)); [lia|].
Qed.

Lemma filter_twice {A} (f : A → bool) (l : list A) :
  List.filter f (List.filter f l) = List.filter f l.
Proof.
  induction l as [|x l IH]; [done|]. cbn [List.filter].
  destruct (f x) eqn:E; [|done]. cbn [List.filter]. by rewrite E, IH.
Qed.

(** X26: the first step of [remove_decorative] drops the emoji code
    points one by one and touches nothing else: the function gives for a
    text what it gives for the text without its emoji code points, and on
    a text without any its first step does nothing. *)
Theorem remove_decorative_emoji (text : Wide.ustr) :
  let plain := List.filter (λ c, negb (emoji c)) text in
  Wide.sub (Wide.Plus emoji) [] text = plain
  ∧ remove_decorative text = remove_decorative plain
  ∧ (Forall (λ c, emoji c = false) text → plain = text).
Proof.
  intros plain. split_and!.
  - apply wide_sub_Plus_filter.
  - unfold remove_decorative, plain.
    by rewrite !wide_sub_Plus_filter, filter_twice.
  - unfold plain. induction 1 as [|c t Hc _ IH]; [done|].
    cbn [List.filter]. rewrite Hc. cbn [negb]. by rewrite IH.
Qed.

End DecorativeFacts.
